(** * Enemy manager of the tower-defence kit: pool of reusable enemy units

    Shallow embedding of [src/td-core/enemy-manager.ts] (class [EnemyManager])
    and the properties of its slot pool.

    Conventions of the embedding
    - a TypeScript [number] that holds an index, a type, a wave or a counter
      is a [Z] (integers only: no NaN, no fractions, no exponent notation in
      [toString]);
    - enemy units are objects shared by reference between [enemyList] and
      [enemyDict]: the collections hold references ([Ref]) into one object
      store, so a write through one collection is seen through the other;
    - a method is a function from the state to an [Outcome]: a normal return
      with a value, a thrown error (the state keeps the writes made before
      the throw), or a loop that never ends;
    - the logging behind [GameState.EnemyDebugging] has no effect on the
      state and is left out; [enemyTypeDict] is created empty and never
      touched again, it is left out too, and so are the health-bar shapes,
      the trigger shape and the two callbacks, which are only handed to each
      unit's constructor. *)

From stdpp Require Import base numbers option list gmap strings pretty.

Local Open Scope Z_scope.

(** ** Data *)

(** A loaded model: [new GLTFShape(path)]. *)
Record GLTFShape := { src : string }.

#[global] Instance GLTFShape_eq_dec : EqDecision GLTFShape.
Proof. solve_decision. Defined.

(** One row of the archetype table [EnemyData] (only [Path] is read here). *)
Record EnemyDataObject := { Path : string }.

(** The unit object. [index], [isAlive] and [type] are the fields the manager
    reads; [shape] is the unit's [GLTFShape] component ([None]: no such
    component), [engineState] is what [SetEngineState] last set, and
    [damageTaken] lists the amounts passed to [TakeDamage], latest first. *)
Record EnemyUnitObject := {
  index : Z;
  isAlive : bool;
  type : Z;
  wave : Z;
  shape : option GLTFShape;
  engineState : bool;
  damageTaken : list Z
}.

(** References to unit objects: positions in the object store. *)
Abbreviation Ref := nat (only parsing).

(** Instrumentation of the component calls made on units. *)
Inductive ShapeOp :=
| RemoveShape (r : Ref)
| AddShape (r : Ref) (s : GLTFShape).

#[global] Instance ShapeOp_eq_dec : EqDecision ShapeOp.
Proof. solve_decision. Defined.

(** The manager. The first eight fields are those of the class; [objects] is
    the store the references point into and [shapeOps] the log of
    [removeComponent]/[addComponent] calls, oldest first. *)
Record EnemyManager := {
  iterationIndex : Z;
  iterationHalt : Z;
  enemySizeMax : Z;
  enemySizeCur : Z;
  enemySizeRemaining : Z;
  enemyList : list Ref;
  enemyDict : gmap string Ref;
  enemyModelDict : gmap string GLTFShape;
  objects : list EnemyUnitObject;
  shapeOps : list ShapeOp
}.

Inductive Error := OutOfRangeError | NotFoundError | TypeError.

#[global] Instance Error_eq_dec : EqDecision Error.
Proof. solve_decision. Defined.

(** ** Field writes *)

Definition set_isAlive (b : bool) (o : EnemyUnitObject) : EnemyUnitObject :=
  {| index := index o; isAlive := b; type := type o; wave := wave o;
     shape := shape o; engineState := engineState o;
     damageTaken := damageTaken o |}.

Definition set_shape (s : option GLTFShape) (o : EnemyUnitObject) : EnemyUnitObject :=
  {| index := index o; isAlive := isAlive o; type := type o; wave := wave o;
     shape := s; engineState := engineState o;
     damageTaken := damageTaken o |}.

Definition set_engineState (b : bool) (o : EnemyUnitObject) : EnemyUnitObject :=
  {| index := index o; isAlive := isAlive o; type := type o; wave := wave o;
     shape := shape o; engineState := b;
     damageTaken := damageTaken o |}.

Definition set_iterationIndex (i : Z) (st : EnemyManager) : EnemyManager :=
  {| iterationIndex := i; iterationHalt := iterationHalt st;
     enemySizeMax := enemySizeMax st; enemySizeCur := enemySizeCur st;
     enemySizeRemaining := enemySizeRemaining st;
     enemyList := enemyList st; enemyDict := enemyDict st;
     enemyModelDict := enemyModelDict st;
     objects := objects st; shapeOps := shapeOps st |}.

Definition set_iterationHalt (i : Z) (st : EnemyManager) : EnemyManager :=
  {| iterationIndex := iterationIndex st; iterationHalt := i;
     enemySizeMax := enemySizeMax st; enemySizeCur := enemySizeCur st;
     enemySizeRemaining := enemySizeRemaining st;
     enemyList := enemyList st; enemyDict := enemyDict st;
     enemyModelDict := enemyModelDict st;
     objects := objects st; shapeOps := shapeOps st |}.

Definition set_enemySizeMax (n : Z) (st : EnemyManager) : EnemyManager :=
  {| iterationIndex := iterationIndex st; iterationHalt := iterationHalt st;
     enemySizeMax := n; enemySizeCur := enemySizeCur st;
     enemySizeRemaining := enemySizeRemaining st;
     enemyList := enemyList st; enemyDict := enemyDict st;
     enemyModelDict := enemyModelDict st;
     objects := objects st; shapeOps := shapeOps st |}.

Definition set_enemySizeCur (n : Z) (st : EnemyManager) : EnemyManager :=
  {| iterationIndex := iterationIndex st; iterationHalt := iterationHalt st;
     enemySizeMax := enemySizeMax st; enemySizeCur := n;
     enemySizeRemaining := enemySizeRemaining st;
     enemyList := enemyList st; enemyDict := enemyDict st;
     enemyModelDict := enemyModelDict st;
     objects := objects st; shapeOps := shapeOps st |}.

Definition set_enemySizeRemaining (n : Z) (st : EnemyManager) : EnemyManager :=
  {| iterationIndex := iterationIndex st; iterationHalt := iterationHalt st;
     enemySizeMax := enemySizeMax st; enemySizeCur := enemySizeCur st;
     enemySizeRemaining := n;
     enemyList := enemyList st; enemyDict := enemyDict st;
     enemyModelDict := enemyModelDict st;
     objects := objects st; shapeOps := shapeOps st |}.

Definition set_objects (os : list EnemyUnitObject) (st : EnemyManager) : EnemyManager :=
  {| iterationIndex := iterationIndex st; iterationHalt := iterationHalt st;
     enemySizeMax := enemySizeMax st; enemySizeCur := enemySizeCur st;
     enemySizeRemaining := enemySizeRemaining st;
     enemyList := enemyList st; enemyDict := enemyDict st;
     enemyModelDict := enemyModelDict st;
     objects := os; shapeOps := shapeOps st |}.

Definition log_shapeOp (op : ShapeOp) (st : EnemyManager) : EnemyManager :=
  {| iterationIndex := iterationIndex st; iterationHalt := iterationHalt st;
     enemySizeMax := enemySizeMax st; enemySizeCur := enemySizeCur st;
     enemySizeRemaining := enemySizeRemaining st;
     enemyList := enemyList st; enemyDict := enemyDict st;
     enemyModelDict := enemyModelDict st;
     objects := objects st; shapeOps := shapeOps st ++ [op] |}.

(** ** Outcomes and the method monad *)

Inductive Outcome (A : Type) : Type :=
| Ok (a : A) (st : EnemyManager)
| Throw (e : Error) (st : EnemyManager)
| Diverge.

Arguments Ok {A} a st.
Arguments Throw {A} e st.
Arguments Diverge {A}.

Definition M (A : Type) : Type := EnemyManager → Outcome A.

#[global] Instance M_ret : MRet M := λ A a st, Ok a st.

#[global] Instance M_bind : MBind M := λ A B f m st,
  match m st with
  | Ok a st' => f a st'
  | Throw e st' => Throw e st'
  | Diverge => Diverge
  end.

Definition gets {A} (f : EnemyManager → A) : M A := λ st, Ok (f st) st.
Definition modify (f : EnemyManager → EnemyManager) : M unit := λ st, Ok tt (f st).

(** ** The collaborators the manager calls *)

(** [n.toString()] of an integer. *)
Definition toString (n : Z) : string := pretty n.

(** Modelled from the spec: [List], [src/utilities/collections], is not among
    the sources. [size()] is the number of items added; [getItem(i)] is the
    registry's [Get(index)], which "fails with OutOfRangeError if index is not
    a previously created slot". *)
Definition List_size (l : list Ref) : Z := Z.of_nat (length l).

Definition List_getItem (l : list Ref) (i : Z) : option Ref :=
  if bool_decide (0 ≤ i) then l !! Z.to_nat i else None.

Definition enemyList_getItem (i : Z) : M Ref := λ st,
  match List_getItem (enemyList st) i with
  | Some r => Ok r st
  | None => Throw OutOfRangeError st
  end.

(** Modelled from the spec: [Dictionary], [src/utilities/collections], is not
    among the sources. For the index-keyed lookup, [getItem(key)] is the
    registry's [Get(index)] again ("fails with OutOfRangeError ..."); for the
    model cache it is [Get(type)], which "fails with NotFoundError if type was
    never registered". [addItem(key, value)] binds the key. *)
Definition enemyDict_getItem (key : string) : M Ref := λ st,
  match enemyDict st !! key with
  | Some r => Ok r st
  | None => Throw OutOfRangeError st
  end.

Definition enemyModelDict_getItem (key : string) : M GLTFShape := λ st,
  match enemyModelDict st !! key with
  | Some s => Ok s st
  | None => Throw NotFoundError st
  end.

(** Reading and writing the object behind a reference. A reference that
    points nowhere does not exist in the program; the store lookup of the
    embedding reports it as a [TypeError]. *)
Definition deref (r : Ref) : M EnemyUnitObject := λ st,
  match objects st !! r with
  | Some o => Ok o st
  | None => Throw TypeError st
  end.

Definition update (r : Ref) (f : EnemyUnitObject → EnemyUnitObject) : M unit := λ st,
  match objects st !! r with
  | Some o => Ok tt (set_objects (<[r := f o]> (objects st)) st)
  | None => Throw TypeError st
  end.

(** Modelled from the spec: [EnemyUnitObject], [./enemy-entity], is not among
    the sources. The spec gives its interface: the constructor takes the
    index, [SetEngineState(bool)] enables or disables the unit's presence in
    the simulated world, [Initialize(type, wave)] (re)initialises the unit
    with that type and wave and makes [isAlive] true, and
    [TakeDamage(amount)] receives a damage amount, whose resolution is the
    unit's own business. The spec does not give the flags a unit is
    constructed with; the model constructs it free, off the engine and
    without a shape. The manager's [Initialize] clears every unit it has
    created ([ClearUnits]) before it returns, so that a unit handed out by
    the pool has been through [ClearUnit], whatever it was constructed
    with. *)
Definition new_EnemyUnitObject (i : Z) : EnemyUnitObject :=
  {| index := i; isAlive := false; type := 0; wave := 0; shape := None;
     engineState := false; damageTaken := [] |}.

Definition obj_SetEngineState (r : Ref) (b : bool) : M unit :=
  update r (set_engineState b).

Definition obj_Initialize (r : Ref) (type_ wave_ : Z) : M unit :=
  update r (λ o,
    {| index := index o; isAlive := true; type := type_; wave := wave_;
       shape := shape o; engineState := engineState o;
       damageTaken := damageTaken o |}).

Definition obj_TakeDamage (r : Ref) (damage : Z) : M unit :=
  update r (λ o,
    {| index := index o; isAlive := isAlive o; type := type o; wave := wave o;
       shape := shape o; engineState := engineState o;
       damageTaken := damage :: damageTaken o |}).

(** The engine's component calls on an entity, for the [GLTFShape] component:
    [hasComponent(GLTFShape)], [removeComponent(GLTFShape)] and
    [addComponent(shape)]. The last two are logged in [shapeOps]. *)
Definition obj_hasComponent (r : Ref) : M bool :=
  o ← deref r; mret (bool_decide (is_Some (shape o))).

Definition obj_removeComponent (r : Ref) : M unit :=
  update r (set_shape None);; modify (log_shapeOp (RemoveShape r)).

Definition obj_addComponent (r : Ref) (s : GLTFShape) : M unit :=
  update r (set_shape (Some s));; modify (log_shapeOp (AddShape r s)).

(** ** The manager's methods *)

(** [new EnemyManager()], over the archetype table [EnemyData]. *)
Fixpoint constructor_models (data : list EnemyDataObject) (i : Z)
    (m : gmap string GLTFShape) : gmap string GLTFShape :=
  match data with
  | [] => m
  | d :: data' =>
      constructor_models data' (i + 1)
        (<[toString i := {| src := "models/enemy/" +:+ Path d +:+ ".glb" |}]> m)
  end.

Definition constructor (EnemyData : list EnemyDataObject) : EnemyManager :=
  {| iterationIndex := 0; iterationHalt := 0;
     enemySizeMax := 30; enemySizeCur := 0; enemySizeRemaining := 0;
     enemyList := []; enemyDict := ∅;
     enemyModelDict := constructor_models EnemyData 0 ∅;
     objects := []; shapeOps := [] |}.

(** [AddEnemyUnit()]: a new object, referenced from both collections. *)
Definition AddEnemyUnit : M unit := λ st,
  let index_ := List_size (enemyList st) in
  let obj := new_EnemyUnitObject index_ in
  let r : Ref := length (objects st) in
  Ok tt
    {| iterationIndex := iterationIndex st; iterationHalt := iterationHalt st;
       enemySizeMax := enemySizeMax st; enemySizeCur := enemySizeCur st;
       enemySizeRemaining := enemySizeRemaining st;
       enemyList := enemyList st ++ [r];
       enemyDict := <[toString (index obj) := r]> (enemyDict st);
       enemyModelDict := enemyModelDict st;
       objects := objects st ++ [obj]; shapeOps := shapeOps st |}.

(** "push next index": [this.iterationIndex++] and the wrap to 0. *)
Definition push_next_index : M unit := λ st,
  let st1 := set_iterationIndex (iterationIndex st + 1) st in
  if bool_decide (List_size (enemyList st1) ≤ iterationIndex st1)
  then Ok tt (set_iterationIndex 0 st1)
  else Ok tt st1.

(** The [while(true)] of [GetEnemyUnit]; [fuel] bounds the iterations. *)
Fixpoint GetEnemyUnit_while (fuel : nat) : M (option Ref) :=
  match fuel with
  | O => λ _, Diverge
  | S fuel' =>
      i ← gets iterationIndex;
      r ← enemyList_getItem i;
      o ← deref r;
      if negb (isAlive o) then
        r' ← enemyList_getItem i; mret (Some r')
      else
        halt ← gets iterationHalt;
        if bool_decide (i = halt) then mret None
        else push_next_index;; GetEnemyUnit_while fuel'
  end.

Definition GetEnemyUnit_fuel (fuel : nat) : M (option Ref) :=
  modify (λ st, set_iterationHalt (iterationIndex st) st);;
  push_next_index;;
  GetEnemyUnit_while fuel.

(** [GetEnemyUnit()]. In a well-formed pool the loop ends within one
    iteration per slot, and more fuel never changes a result (lemmas
    [GetEnemyUnit_while_more_fuel] and [GetEnemyUnit_fuel_enough]). *)
Definition GetEnemyUnit : M (option Ref) := λ st,
  GetEnemyUnit_fuel (S (length (enemyList st))) st.

(** [AssignEnemyUnit(type, wave)]. *)
Definition AssignEnemyUnit (type_ wave_ : Z) : M (option Ref) :=
  obj ← GetEnemyUnit;
  match obj with
  | None => mret None
  | Some r =>
      obj_SetEngineState r false;;
      has ← obj_hasComponent r;
      (if (has : bool) then
         o ← deref r;
         if negb (bool_decide (type o = type_)) then obj_removeComponent r
         else mret tt
       else mret tt);;
      has' ← obj_hasComponent r;
      (if negb (has' : bool) then
         s ← enemyModelDict_getItem (toString type_);
         obj_addComponent r s
       else mret tt);;
      obj_Initialize r type_ wave_;;
      modify (λ st, set_enemySizeCur (enemySizeCur st + 1) st);;
      mret (Some r)
  end.

(** [DamageUnit(index, damage)]. *)
Definition DamageUnit (index_ damage : Z) : M unit :=
  r ← enemyDict_getItem (toString index_);
  obj_TakeDamage r damage.

(** [ClearUnit(index)]. *)
Definition ClearUnit (index_ : Z) : M unit :=
  r ← enemyDict_getItem (toString index_);
  update r (set_isAlive false);;
  r' ← enemyDict_getItem (toString index_);
  obj_SetEngineState r' false.

(** [ClearUnits()]: the [for] loop runs [ClearUnit(i)] for [i] from 0 up to
    the size of the list, which no iteration changes. *)
Fixpoint ClearUnits_for (n : nat) (i : Z) : M unit :=
  match n with
  | O => mret tt
  | S n' => ClearUnit i;; ClearUnits_for n' (i + 1)
  end.

Definition ClearUnits : M unit :=
  n ← gets (λ st, length (enemyList st));
  ClearUnits_for n 0;;
  modify (set_enemySizeCur 0);;
  modify (set_enemySizeRemaining 0).

(** [Initialize()]. The [while] runs while the list is shorter than
    [enemySizeMax]; [fuel] bounds the iterations, and any fuel above the
    number of missing units gives the same result (lemma
    [Initialize_while_eq]). *)
Fixpoint Initialize_while (fuel : nat) : M unit :=
  match fuel with
  | O => λ _, Diverge
  | S fuel' =>
      n ← gets (λ st, List_size (enemyList st));
      size_max ← gets enemySizeMax;
      if bool_decide (n < size_max) then AddEnemyUnit;; Initialize_while fuel'
      else mret tt
  end.

Definition Initialize : M unit := λ st,
  (Initialize_while (S (Z.to_nat (enemySizeMax st - List_size (enemyList st))));;
   ClearUnits) st.

(** ** The scan order, and the spec's own algorithm *)

(** The cursor after "push next index", as a function. *)
Definition next_index (n i : Z) : Z := if bool_decide (n ≤ i + 1) then 0 else i + 1.

(** The cursors the loop visits from [i] on, [len] of them. *)
Fixpoint scan (n : Z) (i : Z) (len : nat) : list Z :=
  match len with
  | O => []
  | S len' => i :: scan n (next_index n i) len'
  end.

(** The order in which one call of [GetEnemyUnit] looks at the slots. *)
Definition scan_order (st : EnemyManager) : list Z :=
  let n := List_size (enemyList st) in
  scan n (next_index n (iterationIndex st)) (length (enemyList st)).

(** [isAlive] of the slot at list position [i] ([true] when there is none). *)
Definition alive_at (st : EnemyManager) (i : Z) : bool :=
  match List_getItem (enemyList st) i with
  | Some r => match objects st !! r with Some o => isAlive o | None => true end
  | None => true
  end.

Definition free_at (st : EnemyManager) (i : Z) : bool := negb (alive_at st i).

(** Number of units whose [isAlive] is true. *)
Definition alive_count (st : EnemyManager) : Z :=
  Z.of_nat (length (filter (λ o, isAlive o = true) (objects st))).

(** [FindFree], written after section 4.3 of the specification: steps 1 to 5,
    over the cursor and the [isAlive] flags in slot order. The result is the
    index returned (or [None] for NONE) with the final cursor and [halt]. *)
Fixpoint FindFree_repeat (fuel : nat) (capacity halt cursor : Z)
    (alive : list bool) : option (option Z * Z) :=
  match fuel with
  | O => None
  | S fuel' =>
      if negb (default true (alive !! Z.to_nat cursor)) then
        Some (Some cursor, cursor)
      else if bool_decide (cursor = halt) then Some (None, cursor)
      else FindFree_repeat fuel' capacity halt ((cursor + 1) `mod` capacity) alive
  end.

Definition FindFree (cursor : Z) (alive : list bool) : option (option Z * Z * Z) :=
  let capacity := Z.of_nat (length alive) in
  if bool_decide (capacity = 0) then Some (None, cursor, cursor)
  else
    let cursor1 := (cursor + 1) `mod` capacity in
    let halt := cursor1 in
    match FindFree_repeat (S (length alive)) capacity halt cursor1 alive with
    | Some (res, cursor2) => Some (res, cursor2, halt)
    | None => None
    end.

(** What [GetEnemyUnit] did, in the same terms: the index of the unit
    returned, the final cursor and [iterationHalt]. *)
Definition GetEnemyUnit_view (st : EnemyManager) : option (option Z * Z * Z) :=
  match GetEnemyUnit st with
  | Ok res st' =>
      let res_index :=
        match res with
        | Some r => index <$> (objects st' !! r)
        | None => None
        end in
      Some (res_index, iterationIndex st', iterationHalt st')
  | _ => None
  end.

Definition alive_flags (st : EnemyManager) : list bool :=
  (λ r, match objects st !! r with Some o => isAlive o | None => true end)
    <$> enemyList st.

(** Several [AssignEnemyUnit] calls in a row, with their results. *)
Fixpoint AssignEnemyUnits (args : list (Z * Z)) : M (list (option Ref)) :=
  match args with
  | [] => mret []
  | (type_, wave_) :: args' =>
      r ← AssignEnemyUnit type_ wave_;
      rs ← AssignEnemyUnits args';
      mret (r :: rs)
  end.

(** ** Sequences of calls *)

(** The public methods, as calls a client can make in any order. *)
Inductive Call :=
| CallAssignEnemyUnit (type_ wave_ : Z)
| CallDamageUnit (index_ damage : Z)
| CallClearUnit (index_ : Z)
| CallClearUnits
| CallInitialize.

(** One call; the result is the unit returned, for [AssignEnemyUnit]. *)
Definition call (c : Call) : M (option Ref) :=
  match c with
  | CallAssignEnemyUnit type_ wave_ => AssignEnemyUnit type_ wave_
  | CallDamageUnit index_ damage => DamageUnit index_ damage;; mret None
  | CallClearUnit index_ => ClearUnit index_;; mret None
  | CallClearUnits => ClearUnits;; mret None
  | CallInitialize => Initialize;; mret None
  end.

(** Calls in a row, up to the first that throws. *)
Fixpoint calls (cs : list Call) : M (list (option Ref)) :=
  match cs with
  | [] => mret []
  | c :: cs' => r ← call c; rs ← calls cs'; mret (r :: rs)
  end.

(** What a unit shows: its type and its shape component. *)
Definition look (r : Ref) (st : EnemyManager) : option (Z * option GLTFShape) :=
  (λ o, (type o, shape o)) <$> objects st !! r.

(** The state a sequence of calls ends in (at the throw, if one throws). *)
Definition state_after (cs : list Call) (st : EnemyManager) : EnemyManager :=
  match calls cs st with
  | Ok _ st' => st'
  | Throw _ st' => st'
  | Diverge => st
  end.

(** Whether an outcome is a normal return. *)
Definition returns {A} (o : Outcome A) : bool :=
  match o with Ok _ _ => true | _ => false end.

(** ** Example pools *)

Definition example_data : list EnemyDataObject :=
  [ {| Path := "goblin" |}; {| Path := "orc" |} ].

(** A new manager with [enemySizeMax] set to [size_max], initialised. *)
Definition new_pool (size_max : Z) : EnemyManager :=
  state_after [CallInitialize] (set_enemySizeMax size_max (constructor example_data)).

(** Two slots, both assigned, then slot 0 cleared: slot 0 free, slot 1 alive,
    cursor on 0. *)
Definition pool_free_alive : EnemyManager :=
  state_after
    [CallAssignEnemyUnit 0 1; CallAssignEnemyUnit 0 1; CallClearUnit 0]
    (new_pool 2).

(** Three slots, all assigned (in scan order 1, 2, 0), then slot 0 cleared:
    slot 0 free, slots 1 and 2 alive, cursor on 0. *)
Definition pool_one_free : EnemyManager :=
  state_after
    [CallAssignEnemyUnit 0 1; CallAssignEnemyUnit 1 1; CallAssignEnemyUnit 0 1;
     CallClearUnit 0]
    (new_pool 3).

(** Two slots, one assignment of type 1 in wave 5: slot 1 alive with the
    model of type 1, slot 0 free, cursor on 1. *)
Definition pool_one_alive : EnemyManager :=
  state_after [CallAssignEnemyUnit 1 5] (new_pool 2).

(** ** Well-formed pools *)

(** What the constructor sets up and every method keeps: the list holds the
    units in creation order, the dictionary maps [i.toString()] to the unit at
    position [i], a unit's [index] is its position, and the cursor is a
    position of the list (0 when the list is empty). *)
Record wf (st : EnemyManager) : Prop := {
  wf_list : enemyList st = seq 0 (length (objects st));
  wf_dict : ∀ i : Z, enemyDict st !! toString i = List_getItem (enemyList st) i;
  wf_index : ∀ r o, objects st !! r = Some o → index o = Z.of_nat r;
  wf_cursor : 0 ≤ iterationIndex st < Z.max 1 (List_size (enemyList st))
}.

(** ** States and objects the statements are written with *)

(** The state with the object behind [r] replaced. *)
Definition put_obj (r : Ref) (o : EnemyUnitObject) (st : EnemyManager) : EnemyManager :=
  set_objects (<[r := o]> (objects st)) st.

(** A unit after a successful assignment: off the engine, with the shape [s]
    and initialised with the type and the wave. *)
Definition assigned (type_ wave_ : Z) (s : option GLTFShape)
    (o : EnemyUnitObject) : EnemyUnitObject :=
  {| index := index o; isAlive := true; type := type_; wave := wave_;
     shape := s; engineState := false; damageTaken := damageTaken o |}.

(** The manager after a successful assignment to [r]: the unit replaced, the
    component calls [ops] logged and [enemySizeCur] incremented. *)
Definition assign_result (r : Ref) (o' : EnemyUnitObject) (ops : list ShapeOp)
    (st : EnemyManager) : EnemyManager :=
  {| iterationIndex := iterationIndex st; iterationHalt := iterationHalt st;
     enemySizeMax := enemySizeMax st; enemySizeCur := enemySizeCur st + 1;
     enemySizeRemaining := enemySizeRemaining st;
     enemyList := enemyList st; enemyDict := enemyDict st;
     enemyModelDict := enemyModelDict st;
     objects := <[r := o']> (objects st); shapeOps := shapeOps st ++ ops |}.

(** The shape change of an assignment of type [type_] to the unit [o], when
    [s] is the model registered for [type_]: the component calls made and the
    shape the unit ends with. *)
Definition swap_ops (r : Ref) (o : EnemyUnitObject) (type_ : Z) (s : GLTFShape) : list ShapeOp :=
  match shape o with
  | Some _ => if bool_decide (type o = type_) then [] else [RemoveShape r; AddShape r s]
  | None => [AddShape r s]
  end.

Definition swap_shape (o : EnemyUnitObject) (type_ : Z) (s : GLTFShape) : GLTFShape :=
  match shape o with
  | Some s0 => if bool_decide (type o = type_) then s0 else s
  | None => s
  end.

(** A unit after [ClearUnit]: not alive and off the engine. *)
Definition cleared (o : EnemyUnitObject) : EnemyUnitObject :=
  set_engineState false (set_isAlive false o).

(** A unit after [TakeDamage(damage)]. *)
Definition damaged (damage : Z) (o : EnemyUnitObject) : EnemyUnitObject :=
  {| index := index o; isAlive := isAlive o; type := type o; wave := wave o;
     shape := shape o; engineState := engineState o;
     damageTaken := damage :: damageTaken o |}.

(** The manager with one more unit, as [AddEnemyUnit] leaves it, and with
    [k] more. *)
Definition with_new_unit (st : EnemyManager) : EnemyManager :=
  match AddEnemyUnit st with Ok _ st' => st' | _ => st end.

Fixpoint with_new_units (k : nat) (st : EnemyManager) : EnemyManager :=
  match k with
  | O => st
  | S k' => with_new_unit (with_new_units k' st)
  end.

(** The manager with every unit cleared and both counters reset, as
    [ClearUnits] leaves it. *)
Definition all_cleared (st : EnemyManager) : EnemyManager :=
  set_enemySizeRemaining 0
    (set_enemySizeCur 0 (set_objects (cleared <$> objects st) st)).

(** How many units [Initialize] has to create. *)
Definition missing_units (st : EnemyManager) : nat :=
  Z.to_nat (enemySizeMax st - List_size (enemyList st)).

(** The next [k] slots in scan order are the free ones, all others alive:
    the shape of a pool that is being filled. *)
Definition free_run (st : EnemyManager) (k : nat) : Prop :=
  (∀ j, j ∈ scan (List_size (enemyList st))
              (next_index (List_size (enemyList st)) (iterationIndex st)) k →
        alive_at st j = false)
  ∧ (∀ j, 0 ≤ j < List_size (enemyList st) →
          j ∉ scan (List_size (enemyList st))
                (next_index (List_size (enemyList st)) (iterationIndex st)) k →
          alive_at st j = true).

(** ** States a client can reach *)

(** The state an outcome ends in, if the call ends. *)
Definition outcome_state {A} (o : Outcome A) : option EnemyManager :=
  match o with
  | Ok _ st' => Some st'
  | Throw _ st' => Some st'
  | Diverge => None
  end.

(** The states reached from a new manager by calls of its methods, whether a
    call returns or throws (the caller may catch and go on): the five calls
    of [Call], [GetEnemyUnit] and [AddEnemyUnit] called directly, and the
    pool size configured by a write to the field [enemySizeMax]. *)
Inductive reachable (EnemyData : list EnemyDataObject) : EnemyManager → Prop :=
| reachable_new : reachable EnemyData (constructor EnemyData)
| reachable_call c st st' :
    reachable EnemyData st → outcome_state (call c st) = Some st' →
    reachable EnemyData st'
| reachable_GetEnemyUnit st st' :
    reachable EnemyData st → outcome_state (GetEnemyUnit st) = Some st' →
    reachable EnemyData st'
| reachable_AddEnemyUnit st st' :
    reachable EnemyData st → outcome_state (AddEnemyUnit st) = Some st' →
    reachable EnemyData st'
| reachable_set_enemySizeMax n st :
    reachable EnemyData st → reachable EnemyData (set_enemySizeMax n st).

(** Every unit that has a shape has the model registered for its type. *)
Definition shape_matches_type (st : EnemyManager) : Prop :=
  ∀ r o s, objects st !! r = Some o → shape o = Some s →
           enemyModelDict st !! toString (type o) = Some s.

(** The state with the two cursor fields blanked: what is left is all that
    [GetEnemyUnit] must not touch. *)
Definition forget_cursor (st : EnemyManager) : EnemyManager :=
  set_iterationIndex 0 (set_iterationHalt 0 st).

(** The manager after an assignment that found the unit [r] and then failed
    to find a model: the unit is off the engine and without a shape, and the
    removal of its old shape, if it had one, is logged. *)
Definition failed_assign_result (r : Ref) (o : EnemyUnitObject)
    (st : EnemyManager) : EnemyManager :=
  {| iterationIndex := iterationIndex st; iterationHalt := iterationHalt st;
     enemySizeMax := enemySizeMax st; enemySizeCur := enemySizeCur st;
     enemySizeRemaining := enemySizeRemaining st;
     enemyList := enemyList st; enemyDict := enemyDict st;
     enemyModelDict := enemyModelDict st;
     objects := <[r := set_shape None (set_engineState false o)]> (objects st);
     shapeOps := shapeOps st
                 ++ match shape o with Some _ => [RemoveShape r] | None => [] end |}.

(** How many calls of a run returned a unit. *)
Definition assigned_count (rs : list (option Ref)) : Z :=
  Z.of_nat (length (omap id rs)).

(** The calls that write [enemySizeCur] only by incrementing it. *)
Definition counts_up (c : Call) : bool :=
  match c with
  | CallClearUnits | CallInitialize => false
  | _ => true
  end.

(** The model the constructor loads for a row of the archetype table. *)
Definition model_of (d : EnemyDataObject) : GLTFShape :=
  {| src := "models/enemy/" +:+ Path d +:+ ".glb" |}.

(** What every reachable state satisfies: the pool is well-formed, shapes
    match types, and [enemySizeCur] is at least the number of units alive. *)
Definition pool_invariant (st : EnemyManager) : Prop :=
  wf st ∧ shape_matches_type st ∧ alive_count st ≤ enemySizeCur st.

(** The states reached from a new manager through the calls a client of the
    pool makes: the five calls of [Call] and [GetEnemyUnit], returning or
    throwing, and the pool size configured by a write to the field
    [enemySizeMax]. Units are created by [Initialize] only, which clears
    them. *)
Inductive reachable_by_calls (EnemyData : list EnemyDataObject)
  : EnemyManager → Prop :=
| by_calls_new : reachable_by_calls EnemyData (constructor EnemyData)
| by_calls_call c st st' :
    reachable_by_calls EnemyData st → outcome_state (call c st) = Some st' →
    reachable_by_calls EnemyData st'
| by_calls_GetEnemyUnit st st' :
    reachable_by_calls EnemyData st → outcome_state (GetEnemyUnit st) = Some st' →
    reachable_by_calls EnemyData st'
| by_calls_set_enemySizeMax n st :
    reachable_by_calls EnemyData st →
    reachable_by_calls EnemyData (set_enemySizeMax n st).

(** The pool is well-formed and [enemySizeCur] is at least the number of
    units alive. *)
Definition counter_invariant (st : EnemyManager) : Prop :=
  wf st ∧ alive_count st ≤ enemySizeCur st.

(** A pool that has been played with: initialised, two units assigned with
    the types 0 and 1, the first of them cleared. *)
Definition played_pool : EnemyManager :=
  state_after
    [CallAssignEnemyUnit 0 1; CallAssignEnemyUnit 1 1; CallClearUnit 1]
    (new_pool 30).

(** ** Basic facts *)

#[global] Instance toString_inj : Inj (=) (=) toString.
Proof. unfold toString. apply _. Qed.

Lemma bind_Ok {A B} (m : M A) (f : A → M B) st a st' :
  m st = Ok a st' → (m ≫= f) st = f a st'.
Proof. intros H. unfold mbind, M_bind. by rewrite H. Qed.

Lemma bind_Throw {A B} (m : M A) (f : A → M B) st e st' :
  m st = Throw e st' → (m ≫= f) st = Throw e st'.
Proof. intros H. unfold mbind, M_bind. by rewrite H. Qed.

Lemma bind_assoc {A B C} (m : M A) (f : A → M B) (g : B → M C) st :
  ((m ≫= f) ≫= g) st = (m ≫= λ a, f a ≫= g) st.
Proof. unfold mbind, M_bind. by destruct (m st). Qed.

Lemma bind_ret {A B} (a : A) (f : A → M B) st : (mret a ≫= f) st = f a st.
Proof. done. Qed.

Lemma bind_modify {B} (g : EnemyManager → EnemyManager) (f : unit → M B) st :
  (modify g ≫= f) st = f tt (g st).
Proof. done. Qed.

Lemma bind_gets {A B} (g : EnemyManager → A) (f : A → M B) st :
  (gets g ≫= f) st = f (g st) st.
Proof. done. Qed.

Lemma bind_more_fuel {A B} (m : M A) (f g : A → M B) st :
  (∀ a st', m st = Ok a st' → f a st' ≠ Diverge → g a st' = f a st') →
  (m ≫= f) st ≠ Diverge → (m ≫= g) st = (m ≫= f) st.
Proof. unfold mbind, M_bind. destruct (m st); auto. Qed.

Lemma bind_inv_Ok {A B} (m : M A) (f : A → M B) st b st2 :
  (m ≫= f) st = Ok b st2 → ∃ a st1, m st = Ok a st1 ∧ f a st1 = Ok b st2.
Proof.
  unfold mbind, M_bind. destruct (m st) as [a st1| |]; [eauto|done..].
Qed.

Lemma wf_length st : wf st → length (enemyList st) = length (objects st).
Proof. intros [Hl _ _ _]. by rewrite Hl, length_seq. Qed.

Lemma List_getItem_seq n i :
  List_getItem (seq 0 n) i =
  if bool_decide (0 ≤ i < Z.of_nat n) then Some (Z.to_nat i) else None.
Proof.
  unfold List_getItem. repeat case_bool_decide; try lia.
  - rewrite lookup_seq_lt by lia. done.
  - apply lookup_seq_ge. lia.
  - done.
Qed.

Lemma wf_getItem st i :
  wf st →
  List_getItem (enemyList st) i =
  if bool_decide (0 ≤ i < List_size (enemyList st)) then Some (Z.to_nat i) else None.
Proof.
  intros Hwf. unfold List_size. rewrite (wf_length _ Hwf).
  rewrite (wf_list _ Hwf). apply List_getItem_seq.
Qed.

Lemma wf_getItem_in st i :
  wf st → 0 ≤ i < List_size (enemyList st) →
  List_getItem (enemyList st) i = Some (Z.to_nat i).
Proof. intros Hwf Hi. rewrite wf_getItem by done. by rewrite bool_decide_true. Qed.

Lemma wf_getItem_out st i :
  wf st → ¬ (0 ≤ i < List_size (enemyList st)) →
  List_getItem (enemyList st) i = None.
Proof. intros Hwf Hi. rewrite wf_getItem by done. by rewrite bool_decide_false. Qed.

Lemma wf_objects_in st i :
  wf st → 0 ≤ i < List_size (enemyList st) →
  ∃ o, objects st !! Z.to_nat i = Some o ∧ index o = i.
Proof.
  intros Hwf Hi. unfold List_size in Hi. rewrite (wf_length _ Hwf) in Hi.
  destruct (lookup_lt_is_Some_2 (objects st) (Z.to_nat i)) as [o Ho]; [lia|].
  exists o. split; [done|]. rewrite (wf_index _ Hwf _ _ Ho). lia.
Qed.

(** ** Arithmetic of the scan order *)

Section scan_facts.
Variable n : Z.
Hypothesis n_pos : 0 < n.

Lemma next_index_mod i : 0 ≤ i < n → next_index n i = (i + 1) `mod` n.
Proof.
  intros Hi. unfold next_index. case_bool_decide.
  - replace (i + 1) with n by lia. by rewrite Z.mod_same by lia.
  - by rewrite Z.mod_small by lia.
Qed.

Lemma next_index_in i : 0 ≤ i < n → 0 ≤ next_index n i < n.
Proof. unfold next_index. case_bool_decide; lia. Qed.

Lemma scan_length i len : length (scan n i len) = len.
Proof. revert i. induction len as [|len IH]; intros i; simpl; [done|]. by rewrite IH. Qed.

Lemma scan_lookup i len k :
  0 ≤ i < n → (k < len)%nat →
  scan n i len !! k = Some ((i + Z.of_nat k) `mod` n).
Proof.
  revert i k. induction len as [|len IH]; intros i k Hi Hk; [lia|].
  destruct k as [|k]; simpl.
  - f_equal. rewrite Z.add_0_r. by rewrite Z.mod_small.
  - rewrite IH by (auto using next_index_in; lia).
    rewrite next_index_mod by done. f_equal.
    rewrite Zplus_mod_idemp_l. f_equal. lia.
Qed.

Lemma scan_range i len j : 0 ≤ i < n → j ∈ scan n i len → 0 ≤ j < n.
Proof.
  intros Hi [k Hk]%list_elem_of_lookup.
  assert (k < len)%nat as Hlt.
  { apply lookup_lt_Some in Hk. by rewrite scan_length in Hk. }
  rewrite scan_lookup in Hk by done. injection Hk as <-.
  apply Z.mod_pos_bound. lia.
Qed.

Lemma mod_shift_inj i a b :
  0 ≤ a < n → 0 ≤ b < n → (i + a) `mod` n = (i + b) `mod` n → a = b.
Proof.
  intros Ha Hb Heq.
  assert (((i + a) - (i + b)) `mod` n = 0) as H0.
  { rewrite Zminus_mod, Heq, Z.sub_diag. by apply Z.mod_0_l, Z.neq_sym, Z.lt_neq. }
  replace (i + a - (i + b)) with (a - b) in H0 by lia.
  apply Z.mod_divide in H0; [|lia]. destruct H0 as [q Hq].
  assert (q = 0) by nia. lia.
Qed.

Lemma scan_NoDup i len : 0 ≤ i < n → Z.of_nat len ≤ n → NoDup (scan n i len).
Proof.
  intros Hi Hlen. apply NoDup_alt. intros a b x Ha Hb.
  assert (a < len)%nat as Hal.
  { apply lookup_lt_Some in Ha. by rewrite scan_length in Ha. }
  assert (b < len)%nat as Hbl.
  { apply lookup_lt_Some in Hb. by rewrite scan_length in Hb. }
  rewrite scan_lookup in Ha, Hb by done.
  injection Ha as Ha. injection Hb as Hb. subst x.
  apply mod_shift_inj in Hb; lia.
Qed.

Lemma scan_complete i j :
  0 ≤ i < n → 0 ≤ j < n → j ∈ scan n i (Z.to_nat n).
Proof.
  intros Hi Hj. apply list_elem_of_lookup.
  exists (Z.to_nat ((j - i) `mod` n)).
  assert (0 ≤ (j - i) `mod` n < n) by (apply Z.mod_pos_bound; lia).
  rewrite scan_lookup by (done || lia). f_equal.
  rewrite Z2Nat.id by lia. rewrite Zplus_mod_idemp_r.
  replace (i + (j - i)) with j by lia. by apply Z.mod_small.
Qed.

(** The scan that starts one past [i] ends on [i], and meets it only there. *)
Lemma scan_last_entry i len :
  0 ≤ i < n → Z.of_nat (S len) = n →
  last (scan n (next_index n i) (S len)) = Some i.
Proof.
  intros Hi Hlen. rewrite last_lookup, scan_length.
  change (pred (S len)) with len.
  rewrite scan_lookup by (auto using next_index_in; lia).
  rewrite next_index_mod by done. rewrite Zplus_mod_idemp_l. f_equal.
  replace (i + 1 + Z.of_nat len) with (i + 1 * n) by lia.
  rewrite Z.mod_add by lia. by apply Z.mod_small.
Qed.

Lemma scan_entry_not_before i len :
  0 ≤ i < n → Z.of_nat (S len) = n →
  i ∉ scan n (next_index n i) len.
Proof.
  intros Hi Hlen [k Hk]%list_elem_of_lookup.
  assert (k < len)%nat as Hlt.
  { apply lookup_lt_Some in Hk. by rewrite scan_length in Hk. }
  rewrite scan_lookup in Hk by (auto using next_index_in; lia).
  rewrite next_index_mod in Hk by done. rewrite Zplus_mod_idemp_l in Hk.
  injection Hk as Hk.
  replace (i + 1 + Z.of_nat k) with (i + (1 + Z.of_nat k)) in Hk by lia.
  rewrite <- (Z.mod_small i n) in Hk at 2 by done.
  replace i with (i + 0) in Hk at 2 by lia.
  apply mod_shift_inj in Hk; lia.
Qed.
End scan_facts.

(** ** Lookups in a well-formed pool *)

Lemma set_iterationIndex_id st : set_iterationIndex (iterationIndex st) st = st.
Proof. by destruct st. Qed.

Lemma wf_set_iterationIndex st i :
  wf st → 0 ≤ i < Z.max 1 (List_size (enemyList st)) → wf (set_iterationIndex i st).
Proof. intros [? ? ? ?] Hi. by constructor. Qed.

Lemma wf_set_iterationHalt st h : wf st → wf (set_iterationHalt h st).
Proof. intros [? ? ? ?]. by constructor. Qed.

Lemma wf_set_enemySizeMax st c : wf st → wf (set_enemySizeMax c st).
Proof. intros [? ? ? ?]. by constructor. Qed.

Lemma enemyList_getItem_in st i :
  wf st → 0 ≤ i < List_size (enemyList st) →
  enemyList_getItem i st = Ok (Z.to_nat i) st.
Proof. intros Hwf Hi. unfold enemyList_getItem. by rewrite wf_getItem_in. Qed.

Lemma enemyDict_getItem_in st i :
  wf st → 0 ≤ i < List_size (enemyList st) →
  enemyDict_getItem (toString i) st = Ok (Z.to_nat i) st.
Proof.
  intros Hwf Hi. unfold enemyDict_getItem.
  by rewrite (wf_dict _ Hwf), wf_getItem_in.
Qed.

Lemma enemyDict_getItem_out st i :
  wf st → ¬ (0 ≤ i < List_size (enemyList st)) →
  enemyDict_getItem (toString i) st = Throw OutOfRangeError st.
Proof.
  intros Hwf Hi. unfold enemyDict_getItem.
  by rewrite (wf_dict _ Hwf), wf_getItem_out.
Qed.

Lemma deref_Some st r o : objects st !! r = Some o → deref r st = Ok o st.
Proof. intros H. unfold deref. by rewrite H. Qed.

Lemma update_Some st r o f :
  objects st !! r = Some o →
  update r f st = Ok tt (put_obj r (f o) st).
Proof. intros H. unfold update. by rewrite H. Qed.

Lemma alive_at_in st i o :
  wf st → 0 ≤ i < List_size (enemyList st) →
  objects st !! Z.to_nat i = Some o → alive_at st i = isAlive o.
Proof.
  intros Hwf Hi Ho. unfold alive_at. rewrite wf_getItem_in by done.
  by rewrite Ho.
Qed.

Lemma push_next_index_eq st :
  push_next_index st =
  Ok tt (set_iterationIndex
           (next_index (List_size (enemyList st)) (iterationIndex st)) st).
Proof.
  unfold push_next_index, next_index. simpl. by case_bool_decide.
Qed.

(** ** The loop of [GetEnemyUnit] *)

Lemma GetEnemyUnit_while_scan len : ∀ fuel st,
  wf st → 0 < List_size (enemyList st) →
  last (scan (List_size (enemyList st)) (iterationIndex st) (S len))
    = Some (iterationHalt st) →
  iterationHalt st ∉ scan (List_size (enemyList st)) (iterationIndex st) len →
  (len < fuel)%nat →
  GetEnemyUnit_while fuel st =
    match find (free_at st)
            (scan (List_size (enemyList st)) (iterationIndex st) (S len)) with
    | Some j => Ok (Some (Z.to_nat j)) (set_iterationIndex j st)
    | None => Ok None (set_iterationIndex (iterationHalt st) st)
    end.
Proof.
  induction len as [|len IH]; intros fuel st Hwf Hn Hlast Hnotin Hfuel;
    (destruct fuel as [|fuel]; [lia|]).
  all: assert (0 ≤ iterationIndex st < List_size (enemyList st)) as Hi
    by (pose proof (wf_cursor _ Hwf); lia).
  all: destruct (wf_objects_in _ _ Hwf Hi) as (o & Ho & _).
  all: cbn [GetEnemyUnit_while].
  all: rewrite (bind_Ok _ _ st (iterationIndex st) st) by done.
  all: rewrite (bind_Ok _ _ _ _ _ (enemyList_getItem_in _ _ Hwf Hi)).
  all: rewrite (bind_Ok _ _ _ _ _ (deref_Some _ _ _ Ho)).
  all: cbn [scan find]; unfold free_at at 1.
  all: rewrite (alive_at_in _ _ _ Hwf Hi Ho).
  all: destruct (isAlive o) eqn:Halive; cbn [negb].
  all: try (rewrite (bind_Ok _ _ _ _ _ (enemyList_getItem_in _ _ Hwf Hi));
            by rewrite set_iterationIndex_id).
  - (* one slot left to look at: it is the halt *)
    cbn in Hlast. injection Hlast as Hlast.
    rewrite (bind_Ok _ _ st (iterationHalt st) st) by done.
    rewrite bool_decide_true by done. by rewrite <- Hlast, set_iterationIndex_id.
  - rewrite (bind_Ok _ _ st (iterationHalt st) st) by done.
    rewrite bool_decide_false.
    2:{ intros Heq. apply Hnotin. cbn [scan]. rewrite Heq. apply list_elem_of_here. }
    rewrite (bind_Ok _ _ _ _ _ (push_next_index_eq st)).
    set (st1 := set_iterationIndex _ st).
    rewrite (IH fuel st1).
    + done.
    + apply wf_set_iterationIndex; [done|].
      pose proof (next_index_in _ Hn _ Hi). change (enemyList st1) with (enemyList st) in *. lia.
    + done.
    + change (scan ?n ?i (S (S len)))
        with (i :: scan n (next_index n i) (S len)) in Hlast.
      rewrite last_cons in Hlast.
      destruct (last (scan _ _ (S len))) eqn:E; [done|].
      by apply last_None in E.
    + intros Hin. apply Hnotin. cbn [scan]. by apply list_elem_of_further.
    + lia.
Qed.

(** [GetEnemyUnit] on a pool with at least one slot: [iterationHalt] becomes
    the cursor of entry, the slots are looked at in [scan_order], the first
    free one is returned and the cursor stays on it; with no free slot the
    result is [null] and the cursor is back on the entry cursor. *)
Lemma GetEnemyUnit_scan st :
  wf st → 0 < List_size (enemyList st) →
  GetEnemyUnit st =
    match find (free_at st) (scan_order st) with
    | Some j =>
        Ok (Some (Z.to_nat j))
           (set_iterationIndex j (set_iterationHalt (iterationIndex st) st))
    | None => Ok None (set_iterationHalt (iterationIndex st) st)
    end.
Proof.
  intros Hwf Hn.
  assert (0 ≤ iterationIndex st < List_size (enemyList st)) as Hi
    by (pose proof (wf_cursor _ Hwf); lia).
  unfold GetEnemyUnit, GetEnemyUnit_fuel, scan_order.
  destruct (length (enemyList st)) as [|len] eqn:Hlen.
  { unfold List_size in Hn. lia. }
  assert (Z.of_nat (S len) = List_size (enemyList st)) as Hlen'
    by (unfold List_size; lia).
  set (st1 := set_iterationHalt (iterationIndex st) st).
  rewrite (bind_Ok _ _ st tt st1) by done.
  rewrite (bind_Ok _ _ _ _ _ (push_next_index_eq st1)).
  set (st2 := set_iterationIndex _ st1).
  rewrite (GetEnemyUnit_while_scan len (S (S len)) st2).
  - change (find (free_at st2)) with (find (free_at st)).
    change (iterationIndex st2)
      with (next_index (List_size (enemyList st)) (iterationIndex st)).
    change (List_size (enemyList st2)) with (List_size (enemyList st)).
    destruct (find _ _); [done|].
    change (iterationHalt st2) with (iterationIndex st1).
    change (set_iterationIndex (iterationIndex st1) st2)
      with (set_iterationIndex (iterationIndex st1) st1).
    by rewrite set_iterationIndex_id.
  - apply wf_set_iterationIndex; [by apply wf_set_iterationHalt|].
    pose proof (next_index_in _ Hn _ Hi).
    change (enemyList st1) with (enemyList st). change (iterationIndex st1) with (iterationIndex st). lia.
  - done.
  - by apply scan_last_entry.
  - by apply scan_entry_not_before.
  - lia.
Qed.

(** ** The unit's methods and the component calls, on a known object *)

Lemma put_obj_lookup st r o o' :
  objects st !! r = Some o → objects (put_obj r o' st) !! r = Some o'.
Proof.
  intros H. unfold put_obj. cbn. apply list_lookup_insert_eq.
  by eapply lookup_lt_Some.
Qed.

Lemma put_obj_lookup_ne st r r' o' :
  r ≠ r' → objects (put_obj r o' st) !! r' = objects st !! r'.
Proof. intros H. unfold put_obj. cbn. by apply list_lookup_insert_ne. Qed.

Lemma obj_SetEngineState_eq st r o b :
  objects st !! r = Some o →
  obj_SetEngineState r b st = Ok tt (put_obj r (set_engineState b o) st).
Proof. apply update_Some. Qed.

Lemma obj_hasComponent_eq st r o :
  objects st !! r = Some o →
  obj_hasComponent r st = Ok (bool_decide (is_Some (shape o))) st.
Proof.
  intros H. unfold obj_hasComponent.
  by rewrite (bind_Ok _ _ _ _ _ (deref_Some _ _ _ H)).
Qed.

Lemma obj_removeComponent_eq st r o :
  objects st !! r = Some o →
  obj_removeComponent r st =
  Ok tt (log_shapeOp (RemoveShape r) (put_obj r (set_shape None o) st)).
Proof.
  intros H. unfold obj_removeComponent.
  by rewrite (bind_Ok _ _ _ _ _ (update_Some _ _ _ _ H)).
Qed.

Lemma obj_addComponent_eq st r o s :
  objects st !! r = Some o →
  obj_addComponent r s st =
  Ok tt (log_shapeOp (AddShape r s) (put_obj r (set_shape (Some s) o) st)).
Proof.
  intros H. unfold obj_addComponent.
  by rewrite (bind_Ok _ _ _ _ _ (update_Some _ _ _ _ H)).
Qed.

Lemma obj_Initialize_eq st r o t w :
  objects st !! r = Some o → engineState o = false →
  obj_Initialize r t w st = Ok tt (put_obj r (assigned t w (shape o) o) st).
Proof.
  intros H He. unfold obj_Initialize. rewrite (update_Some _ _ o) by done.
  unfold assigned. by rewrite He.
Qed.

Lemma enemyModelDict_getItem_Some st k s :
  enemyModelDict st !! k = Some s → enemyModelDict_getItem k st = Ok s st.
Proof. intros H. unfold enemyModelDict_getItem. by rewrite H. Qed.

Lemma enemyModelDict_getItem_None st k :
  enemyModelDict st !! k = None → enemyModelDict_getItem k st = Throw NotFoundError st.
Proof. intros H. unfold enemyModelDict_getItem. by rewrite H. Qed.

(** ** [AssignEnemyUnit] once the unit is found *)

Ltac mstep H := rewrite (bind_Ok _ _ _ _ _ H).

Section steps.
Context {B : Type} (k : unit → M B) (st : EnemyManager) (r : Ref)
  (o : EnemyUnitObject).
Hypothesis Ho : objects st !! r = Some o.

Lemma step_SetEngineState b :
  (obj_SetEngineState r b ≫= k) st = k tt (put_obj r (set_engineState b o) st).
Proof. by mstep (obj_SetEngineState_eq _ _ _ b Ho). Qed.

Lemma step_removeComponent :
  (obj_removeComponent r ≫= k) st
  = k tt (log_shapeOp (RemoveShape r) (put_obj r (set_shape None o) st)).
Proof. by mstep (obj_removeComponent_eq _ _ _ Ho). Qed.

Lemma step_addComponent s :
  (obj_addComponent r s ≫= k) st
  = k tt (log_shapeOp (AddShape r s) (put_obj r (set_shape (Some s) o) st)).
Proof. by mstep (obj_addComponent_eq _ _ _ s Ho). Qed.

Lemma step_Initialize t w :
  engineState o = false →
  (obj_Initialize r t w ≫= k) st = k tt (put_obj r (assigned t w (shape o) o) st).
Proof. intros He. by mstep (obj_Initialize_eq _ _ _ t w Ho He). Qed.

Lemma step_hasComponent (kb : bool → M B) :
  (obj_hasComponent r ≫= kb) st = kb (bool_decide (is_Some (shape o))) st.
Proof. by mstep (obj_hasComponent_eq _ _ _ Ho). Qed.

Lemma step_deref (ko : EnemyUnitObject → M B) : (deref r ≫= ko) st = ko o st.
Proof. by mstep (deref_Some _ _ _ Ho). Qed.
End steps.

(** Nested field writes are kept flat: the state is a record of variables,
    and every write is reduced as soon as it is made. *)
Ltac flat :=
  unfold put_obj, set_objects, log_shapeOp, set_enemySizeCur, assign_result;
  cbn [iterationIndex iterationHalt enemySizeMax enemySizeCur
       enemySizeRemaining enemyList enemyDict enemyModelDict objects shapeOps];
  rewrite ?list_insert_insert_eq.

Ltac unit_fields :=
  unfold assigned, set_engineState, set_shape;
  cbn [index isAlive type wave shape engineState damageTaken].

Ltac same_state :=
  flat; unit_fields; rewrite ?app_nil_r, <- ?app_assoc; reflexivity.

Ltac mstep_model Hm :=
  match goal with
  | |- context [(enemyModelDict_getItem ?k ≫= _) ?st'] =>
      rewrite (bind_Ok _ _ st' _ _ (enemyModelDict_getItem_Some st' k _ Hm))
  end.

Ltac mstep_no_model Hm :=
  match goal with
  | |- context [(enemyModelDict_getItem ?k ≫= _) ?st'] =>
      rewrite (bind_Throw _ _ st' _ _ (enemyModelDict_getItem_None st' k Hm))
  end.

Lemma AssignEnemyUnit_null st st1 t w :
  GetEnemyUnit st = Ok None st1 → AssignEnemyUnit t w st = Ok None st1.
Proof. intros H. unfold AssignEnemyUnit. by mstep H. Qed.

Lemma AssignEnemyUnit_same_type st st1 r o t w s0 :
  GetEnemyUnit st = Ok (Some r) st1 → objects st1 !! r = Some o →
  shape o = Some s0 → type o = t →
  AssignEnemyUnit t w st =
  Ok (Some r) (assign_result r (assigned t w (Some s0) o) [] st1).
Proof.
  intros Hget Ho Hs Ht. unfold AssignEnemyUnit. mstep Hget.
  destruct st1 as [idx halt mx cur rem lst dct mdl objs ops]. cbn in Ho.
  assert (∀ x, <[r:=x]> objs !! r = Some x) as Hins
    by (intros; apply list_lookup_insert_eq; by eapply lookup_lt_Some).
  rewrite (step_SetEngineState _ _ _ o) by exact Ho. flat.
  erewrite step_hasComponent by apply Hins. unit_fields.
  rewrite ?Hs. rewrite bool_decide_true by eauto.
  rewrite bind_assoc. erewrite step_deref by apply Hins. unit_fields.
  rewrite bool_decide_true by done. cbn [negb]. rewrite bind_ret.
  erewrite step_hasComponent by apply Hins. unit_fields.
  rewrite ?Hs. rewrite bool_decide_true by eauto. cbn [negb]. rewrite bind_ret.
  erewrite step_Initialize; [|apply Hins|reflexivity]. flat.
  rewrite bind_modify. unfold mret, M_ret. f_equal; unit_fields; rewrite ?Hs; same_state.
Qed.

Lemma AssignEnemyUnit_registered st st1 r o t w s :
  GetEnemyUnit st = Ok (Some r) st1 → objects st1 !! r = Some o →
  enemyModelDict st1 !! toString t = Some s →
  AssignEnemyUnit t w st =
  Ok (Some r)
     (assign_result r (assigned t w (Some (swap_shape o t s)) o)
        (swap_ops r o t s) st1).
Proof.
  intros Hget Ho Hm. unfold swap_shape, swap_ops.
  destruct (shape o) as [s0|] eqn:Hs.
  { case_bool_decide as Ht;
      [exact (AssignEnemyUnit_same_type _ _ _ _ _ w _ Hget Ho Hs Ht)|].
    unfold AssignEnemyUnit. mstep Hget.
    destruct st1 as [idx halt mx cur rem lst dct mdl objs ops]. cbn in Ho, Hm.
    assert (∀ x, <[r:=x]> objs !! r = Some x) as Hins
      by (intros; apply list_lookup_insert_eq; by eapply lookup_lt_Some).
    rewrite (step_SetEngineState _ _ _ o) by exact Ho. flat.
    erewrite step_hasComponent by apply Hins. unit_fields.
    rewrite ?Hs. rewrite bool_decide_true by eauto.
    rewrite bind_assoc. erewrite step_deref by apply Hins. unit_fields.
    rewrite bool_decide_false by done. cbn [negb].
    erewrite step_removeComponent by apply Hins. flat.
    erewrite step_hasComponent by apply Hins. unit_fields.
    rewrite bool_decide_false by (by intros [? ?]). cbn [negb].
    rewrite bind_assoc. mstep_model Hm.
    erewrite step_addComponent by apply Hins. flat.
    erewrite step_Initialize; [|apply Hins|reflexivity]. flat.
    rewrite bind_modify. unfold mret, M_ret. f_equal; same_state. }
  unfold AssignEnemyUnit. mstep Hget.
  destruct st1 as [idx halt mx cur rem lst dct mdl objs ops]. cbn in Ho, Hm.
  assert (∀ x, <[r:=x]> objs !! r = Some x) as Hins
    by (intros; apply list_lookup_insert_eq; by eapply lookup_lt_Some).
  rewrite (step_SetEngineState _ _ _ o) by exact Ho. flat.
  erewrite step_hasComponent by apply Hins. unit_fields.
  rewrite ?Hs. rewrite bool_decide_false by (by intros [? ?]). rewrite bind_ret.
  erewrite step_hasComponent by apply Hins. unit_fields.
  rewrite ?Hs. rewrite bool_decide_false by (by intros [? ?]). cbn [negb].
  rewrite bind_assoc. mstep_model Hm.
  erewrite step_addComponent by apply Hins. flat.
  erewrite step_Initialize; [|apply Hins|reflexivity]. flat.
  rewrite bind_modify. unfold mret, M_ret. f_equal; same_state.
Qed.

Lemma AssignEnemyUnit_unregistered st st1 r o t w :
  GetEnemyUnit st = Ok (Some r) st1 → objects st1 !! r = Some o →
  enemyModelDict st1 !! toString t = None →
  shape o = None ∨ type o ≠ t →
  ∃ st', AssignEnemyUnit t w st = Throw NotFoundError st'.
Proof.
  intros Hget Ho Hm Hcase. unfold AssignEnemyUnit. mstep Hget.
  destruct st1 as [idx halt mx cur rem lst dct mdl objs ops]. cbn in Ho, Hm.
  assert (∀ x, <[r:=x]> objs !! r = Some x) as Hins
    by (intros; apply list_lookup_insert_eq; by eapply lookup_lt_Some).
  rewrite (step_SetEngineState _ _ _ o) by exact Ho. flat.
  erewrite step_hasComponent by apply Hins. unit_fields.
  destruct (shape o) as [s0|] eqn:Hs.
  - destruct Hcase as [?|Ht]; [done|].
    rewrite bool_decide_true by eauto.
    rewrite bind_assoc. erewrite step_deref by apply Hins. unit_fields.
    rewrite bool_decide_false by done. cbn [negb].
    erewrite step_removeComponent by apply Hins. flat.
    erewrite step_hasComponent by apply Hins. unit_fields.
    rewrite bool_decide_false by (by intros [? ?]). cbn [negb].
    rewrite bind_assoc. mstep_no_model Hm. by eexists.
  - rewrite bool_decide_false by (by intros [? ?]). rewrite bind_ret.
    erewrite step_hasComponent by apply Hins. unit_fields.
    rewrite ?Hs. rewrite bool_decide_false by (by intros [? ?]). cbn [negb].
    rewrite bind_assoc. mstep_no_model Hm. by eexists.
Qed.

(** ** [ClearUnit] and [DamageUnit] *)

Lemma wf_put_obj st r o o' :
  wf st → objects st !! r = Some o → index o' = index o → wf (put_obj r o' st).
Proof.
  intros [Hl Hd Hi Hc] Ho Hidx. constructor; cbn.
  - by rewrite length_insert.
  - done.
  - intros r' o'' Hr'. destruct (decide (r = r')) as [<-|Hne].
    + rewrite list_lookup_insert_eq in Hr' by (by eapply lookup_lt_Some).
      injection Hr' as <-. rewrite Hidx. by apply Hi.
    + rewrite list_lookup_insert_ne in Hr' by done. by apply Hi.
  - done.
Qed.

Lemma ClearUnit_in st i o :
  wf st → 0 ≤ i < List_size (enemyList st) →
  objects st !! Z.to_nat i = Some o →
  ClearUnit i st = Ok tt (put_obj (Z.to_nat i) (cleared o) st).
Proof.
  intros Hwf Hi Ho. unfold ClearUnit.
  mstep (enemyDict_getItem_in _ _ Hwf Hi).
  mstep (update_Some _ _ _ (set_isAlive false) Ho).
  pose proof (put_obj_lookup _ _ _ (set_isAlive false o) Ho) as Ho1.
  assert (wf (put_obj (Z.to_nat i) (set_isAlive false o) st)) as Hwf1
    by (by eapply wf_put_obj).
  mstep (enemyDict_getItem_in _ i Hwf1 Hi).
  rewrite (obj_SetEngineState_eq _ _ _ false Ho1). f_equal.
  unfold put_obj, set_objects. cbn. by rewrite list_insert_insert_eq.
Qed.

Lemma ClearUnit_out st i :
  wf st → ¬ (0 ≤ i < List_size (enemyList st)) →
  ClearUnit i st = Throw OutOfRangeError st.
Proof.
  intros Hwf Hi. unfold ClearUnit.
  by rewrite (bind_Throw _ _ _ _ _ (enemyDict_getItem_out _ _ Hwf Hi)).
Qed.

Lemma DamageUnit_in st i d o :
  wf st → 0 ≤ i < List_size (enemyList st) →
  objects st !! Z.to_nat i = Some o →
  DamageUnit i d st = Ok tt (put_obj (Z.to_nat i) (damaged d o) st).
Proof.
  intros Hwf Hi Ho. unfold DamageUnit.
  mstep (enemyDict_getItem_in _ _ Hwf Hi).
  unfold obj_TakeDamage. by rewrite (update_Some _ _ o).
Qed.

Lemma DamageUnit_out st i d :
  wf st → ¬ (0 ≤ i < List_size (enemyList st)) →
  DamageUnit i d st = Throw OutOfRangeError st.
Proof.
  intros Hwf Hi. unfold DamageUnit.
  by rewrite (bind_Throw _ _ _ _ _ (enemyDict_getItem_out _ _ Hwf Hi)).
Qed.

(** ** [ClearUnits] *)

Lemma ClearUnits_for_spec n : ∀ i st,
  wf st → Z.of_nat i + Z.of_nat n ≤ List_size (enemyList st) →
  ∃ os, ClearUnits_for n (Z.of_nat i) st = Ok tt (set_objects os st)
      ∧ wf (set_objects os st)
      ∧ ∀ r, os !! r =
             (λ o, if bool_decide (i ≤ r < i + n)%nat then cleared o else o)
               <$> objects st !! r.
Proof.
  induction n as [|n IH]; intros i st Hwf Hn.
  { exists (objects st). cbn. split_and!.
    - by destruct st.
    - by destruct st.
    - intros r. rewrite bool_decide_false by lia. by destruct (objects st !! r). }
  assert (0 ≤ Z.of_nat i < List_size (enemyList st)) as Hi by lia.
  destruct (wf_objects_in _ _ Hwf Hi) as (o & Ho & _).
  rewrite Nat2Z.id in Ho.
  pose proof (ClearUnit_in _ _ o Hwf Hi) as Hclear.
  rewrite Nat2Z.id in Hclear. specialize (Hclear Ho).
  assert (wf (put_obj i (cleared o) st)) as Hwf1 by (by eapply wf_put_obj).
  destruct (IH (S i) (put_obj i (cleared o) st) Hwf1) as (os & Hrun & Hwf2 & Hos).
  { change (enemyList (put_obj _ _ _)) with (enemyList st). lia. }
  exists os. split_and!.
  - cbn [ClearUnits_for]. mstep Hclear.
    replace (Z.of_nat i + 1) with (Z.of_nat (S i)) by lia. by rewrite Hrun.
  - done.
  - intros r. rewrite Hos. unfold put_obj. cbn.
    destruct (decide (r = i)) as [->|Hne].
    + rewrite list_lookup_insert_eq by (by eapply lookup_lt_Some).
      rewrite Ho. cbn. rewrite bool_decide_false by lia.
      by rewrite bool_decide_true by lia.
    + rewrite list_lookup_insert_ne by done.
      destruct (objects st !! r); [cbn|done].
      f_equal. repeat case_bool_decide; (done || lia).
Qed.

Lemma wf_all_cleared st : wf st → wf (all_cleared st).
Proof.
  intros [Hl Hd Hi Hc]. constructor; cbn.
  - by rewrite length_fmap.
  - done.
  - intros r o. rewrite list_lookup_fmap.
    destruct (objects st !! r) as [o'|] eqn:Ho; [|done].
    cbn. intros [= <-]. change (index o' = Z.of_nat r). by apply Hi.
  - done.
Qed.

Lemma ClearUnits_eq st : wf st → ClearUnits st = Ok tt (all_cleared st).
Proof.
  intros Hwf. unfold ClearUnits. rewrite bind_gets.
  destruct (ClearUnits_for_spec (length (enemyList st)) 0%nat st Hwf)
    as (os & Hrun & _ & Hos).
  { unfold List_size. lia. }
  change (Z.of_nat 0) with 0 in Hrun. mstep Hrun.
  rewrite bind_modify. unfold modify, all_cleared.
  assert (os = cleared <$> objects st) as ->; [|done].
  apply list_eq. intros r. rewrite Hos, list_lookup_fmap.
  destruct (objects st !! r) as [o|] eqn:Ho; [cbn|done].
  rewrite bool_decide_true; [done|].
  apply lookup_lt_Some in Ho. rewrite (wf_length _ Hwf). lia.
Qed.

(** ** [AddEnemyUnit] and [Initialize] *)

Lemma AddEnemyUnit_eq st : AddEnemyUnit st = Ok tt (with_new_unit st).
Proof. done. Qed.

Lemma with_new_unit_size st :
  List_size (enemyList (with_new_unit st)) = List_size (enemyList st) + 1.
Proof. unfold List_size. cbn. rewrite length_app. cbn. lia. Qed.

Lemma wf_with_new_unit st : wf st → wf (with_new_unit st).
Proof.
  intros Hwf. pose proof (wf_length _ Hwf) as Hlen.
  destruct Hwf as [Hl Hd Hi Hc]. constructor; cbn.
  - rewrite length_app. cbn. rewrite Nat.add_1_r, seq_S. by rewrite <- Hl.
  - intros i. unfold List_size. rewrite Hlen.
    destruct (decide (i = Z.of_nat (length (objects st)))) as [->|Hne].
    + rewrite lookup_insert_eq. unfold List_getItem.
      rewrite bool_decide_true by lia. rewrite Nat2Z.id.
      rewrite lookup_app_r by lia. by rewrite Hlen, Nat.sub_diag.
    + rewrite lookup_insert_ne by (intros ?%(inj toString); done).
      rewrite Hd. unfold List_getItem. case_bool_decide; [|done].
      destruct (decide (Z.to_nat i < length (enemyList st))%nat).
      * by rewrite lookup_app_l.
      * rewrite lookup_ge_None_2 by lia. symmetry. apply lookup_ge_None_2.
        rewrite length_app. cbn. lia.
  - intros r o. rewrite lookup_app_Some. intros [Ho|[Hr Ho]]; [by apply Hi|].
    apply list_lookup_singleton_Some in Ho as [Hr0 <-]. cbn.
    unfold List_size. lia.
  - unfold List_size in *. rewrite length_app. cbn. lia.
Qed.

Lemma with_new_units_size k st :
  List_size (enemyList (with_new_units k st)) = List_size (enemyList st) + Z.of_nat k.
Proof.
  induction k as [|k IH]; [cbn; lia|].
  cbn [with_new_units]. rewrite with_new_unit_size, IH. lia.
Qed.

Lemma wf_with_new_units k st : wf st → wf (with_new_units k st).
Proof.
  intros Hwf. induction k as [|k IH]; [done|].
  cbn [with_new_units]. by apply wf_with_new_unit.
Qed.

Lemma with_new_units_S k st :
  with_new_units (S k) st = with_new_units k (with_new_unit st).
Proof.
  induction k as [|k IH]; [done|].
  cbn [with_new_units] in *. by rewrite IH.
Qed.

Lemma with_new_units_enemySizeMax k st :
  enemySizeMax (with_new_units k st) = enemySizeMax st.
Proof.
  induction k as [|k IH]; [done|]. cbn [with_new_units]. by rewrite <- IH.
Qed.

(** The loop of [Initialize] ends, having created the missing units. *)
Lemma Initialize_while_eq fuel : ∀ st,
  (missing_units st < fuel)%nat →
  Initialize_while fuel st = Ok tt (with_new_units (missing_units st) st).
Proof.
  induction fuel as [|fuel IH]; intros st Hfuel; [lia|].
  cbn [Initialize_while]. rewrite !bind_gets. case_bool_decide as Hlt.
  - mstep (AddEnemyUnit_eq st).
    assert (missing_units st = S (missing_units (with_new_unit st))) as Hm.
    { unfold missing_units. rewrite with_new_unit_size.
      change (enemySizeMax (with_new_unit st)) with (enemySizeMax st). lia. }
    rewrite IH by lia. by rewrite Hm, with_new_units_S.
  - unfold missing_units. replace (Z.to_nat _) with 0%nat by lia. done.
Qed.

Lemma Initialize_eq st :
  wf st →
  Initialize st = Ok tt (all_cleared (with_new_units (missing_units st) st)).
Proof.
  intros Hwf. unfold Initialize.
  rewrite (bind_Ok _ _ _ _ _ (Initialize_while_eq _ st (Nat.lt_succ_diag_r _))).
  apply ClearUnits_eq. by apply wf_with_new_units.
Qed.

(** ** The constructor *)

Lemma wf_constructor EnemyData : wf (constructor EnemyData).
Proof.
  constructor; cbn.
  - done.
  - intros i. rewrite lookup_empty. unfold List_getItem. by case_bool_decide.
  - intros r o Hr. by rewrite lookup_nil in Hr.
  - unfold List_size. cbn. lia.
Qed.

(** ** [GetEnemyUnit]: results *)

Lemma GetEnemyUnit_no_slot st :
  enemyList st = [] →
  GetEnemyUnit st =
  Throw OutOfRangeError
    (set_iterationIndex (next_index 0 (iterationIndex st))
       (set_iterationHalt (iterationIndex st) st)).
Proof.
  intros Hnil. unfold GetEnemyUnit, GetEnemyUnit_fuel. rewrite Hnil.
  rewrite bind_modify.
  set (st1 := set_iterationHalt (iterationIndex st) st).
  mstep (push_next_index_eq st1).
  change (List_size (enemyList st1)) with (List_size (enemyList st)).
  rewrite Hnil. change (List_size []) with 0.
  change (iterationIndex st1) with (iterationIndex st).
  set (st2 := set_iterationIndex _ st1).
  cbn [GetEnemyUnit_while]. rewrite bind_gets.
  apply bind_Throw. unfold enemyList_getItem.
  change (enemyList st2) with (enemyList st). rewrite Hnil.
  unfold List_getItem. by case_bool_decide.
Qed.

Lemma find_free_in_range st j :
  wf st → 0 < List_size (enemyList st) →
  find (free_at st) (scan_order st) = Some j →
  0 ≤ j < List_size (enemyList st) ∧ free_at st j = true.
Proof.
  intros Hwf Hn Hfind. apply find_some in Hfind as [Hin Hfree].
  split; [|done]. apply list_elem_of_In in Hin.
  eapply scan_range; [done| |done].
  apply next_index_in; [done|]. pose proof (wf_cursor _ Hwf). lia.
Qed.

(** What a call that returns a unit has done. *)
Lemma GetEnemyUnit_Some_inv st r st1 :
  wf st → GetEnemyUnit st = Ok (Some r) st1 →
  ∃ j, 0 ≤ j < List_size (enemyList st) ∧ r = Z.to_nat j
     ∧ find (free_at st) (scan_order st) = Some j
     ∧ free_at st j = true
     ∧ st1 = set_iterationIndex j (set_iterationHalt (iterationIndex st) st).
Proof.
  intros Hwf Hget.
  destruct (decide (0 < List_size (enemyList st))) as [Hn|Hn].
  - rewrite GetEnemyUnit_scan in Hget by done.
    destruct (find _ _) as [j|] eqn:Hfind; [|done].
    injection Hget as <- <-.
    destruct (find_free_in_range _ _ Hwf Hn Hfind). by exists j.
  - rewrite GetEnemyUnit_no_slot in Hget; [done|].
    unfold List_size in Hn. destruct (enemyList st); [done|cbn in Hn; lia].
Qed.

(** What a call that returns [null] has done. *)
Lemma GetEnemyUnit_None_inv st st1 :
  wf st → GetEnemyUnit st = Ok None st1 →
  0 < List_size (enemyList st)
  ∧ find (free_at st) (scan_order st) = None
  ∧ st1 = set_iterationHalt (iterationIndex st) st.
Proof.
  intros Hwf Hget.
  destruct (decide (0 < List_size (enemyList st))) as [Hn|Hn].
  - rewrite GetEnemyUnit_scan in Hget by done.
    destruct (find _ _) as [j|] eqn:Hfind; [done|].
    by injection Hget as <-.
  - rewrite GetEnemyUnit_no_slot in Hget; [done|].
    unfold List_size in Hn. destruct (enemyList st); [done|cbn in Hn; lia].
Qed.

(** With no free slot found, every slot is alive, and conversely. *)
Lemma find_free_None st :
  wf st → 0 < List_size (enemyList st) →
  find (free_at st) (scan_order st) = None ↔
  ∀ j, 0 ≤ j < List_size (enemyList st) → alive_at st j = true.
Proof.
  intros Hwf Hn.
  assert (0 ≤ next_index (List_size (enemyList st)) (iterationIndex st)
          < List_size (enemyList st)) as Hnext.
  { apply next_index_in; [done|]. pose proof (wf_cursor _ Hwf). lia. }
  split.
  - intros Hfind j Hj.
    assert (In j (scan_order st)) as Hin.
    { apply list_elem_of_In. unfold scan_order.
      replace (length (enemyList st)) with (Z.to_nat (List_size (enemyList st)))
        by (unfold List_size; lia).
      by apply scan_complete. }
    pose proof (find_none _ _ Hfind _ Hin) as Hfree.
    unfold free_at in Hfree. by destruct (alive_at st j).
  - intros Hall. destruct (find _ _) as [j|] eqn:Hfind; [|done].
    destruct (find_free_in_range _ _ Hwf Hn Hfind) as [Hj Hfree].
    unfold free_at in Hfree. by rewrite Hall in Hfree.
Qed.

Lemma wf_GetEnemyUnit_Some st r st1 :
  wf st → GetEnemyUnit st = Ok (Some r) st1 → wf st1.
Proof.
  intros Hwf Hget.
  destruct (GetEnemyUnit_Some_inv _ _ _ Hwf Hget) as (j & Hj & _ & _ & _ & ->).
  apply wf_set_iterationIndex; [by apply wf_set_iterationHalt|].
  change (enemyList (set_iterationHalt _ st)) with (enemyList st). lia.
Qed.

Lemma wf_GetEnemyUnit_None st st1 :
  wf st → GetEnemyUnit st = Ok None st1 → wf st1.
Proof.
  intros Hwf Hget.
  destruct (GetEnemyUnit_None_inv _ _ Hwf Hget) as (_ & _ & ->).
  by apply wf_set_iterationHalt.
Qed.

Lemma wf_assign_result st r o o' ops :
  wf st → objects st !! r = Some o → index o' = index o →
  wf (assign_result r o' ops st).
Proof.
  intros Hwf Ho Hidx.
  destruct (wf_put_obj _ _ _ o' Hwf Ho Hidx) as [? ? ? ?]. by constructor.
Qed.

(** More fuel does not change a result, and in a well-formed pool the fuel
    [GetEnemyUnit] gives its loop is enough: the call returns or throws. *)
Lemma GetEnemyUnit_while_more_fuel fuel : ∀ fuel' st,
  (fuel ≤ fuel')%nat → GetEnemyUnit_while fuel st ≠ Diverge →
  GetEnemyUnit_while fuel' st = GetEnemyUnit_while fuel st.
Proof.
  induction fuel as [|fuel IH]; intros fuel' st Hle Hret; [done|].
  destruct fuel' as [|fuel']; [lia|].
  cbn [GetEnemyUnit_while] in *. revert Hret.
  apply bind_more_fuel. intros i st1 _.
  apply bind_more_fuel. intros r st2 _.
  apply bind_more_fuel. intros o st3 _.
  destruct (negb (isAlive o)); [done|].
  apply bind_more_fuel. intros halt st4 _.
  case_bool_decide; [done|].
  apply bind_more_fuel. intros [] st5 _ Hret.
  apply IH; [lia|done].
Qed.

Lemma GetEnemyUnit_fuel_enough st fuel :
  wf st → (S (length (enemyList st)) ≤ fuel)%nat →
  GetEnemyUnit st ≠ Diverge ∧ GetEnemyUnit_fuel fuel st = GetEnemyUnit st.
Proof.
  intros Hwf Hfuel.
  assert (GetEnemyUnit st ≠ Diverge) as Hret.
  { destruct (decide (0 < List_size (enemyList st))) as [Hn|Hn].
    - rewrite GetEnemyUnit_scan by done. by destruct (find _ _).
    - rewrite GetEnemyUnit_no_slot; [done|].
      unfold List_size in Hn. destruct (enemyList st); [done|cbn in Hn; lia]. }
  split; [done|].
  unfold GetEnemyUnit, GetEnemyUnit_fuel in *.
  rewrite !bind_modify in *.
  rewrite !(bind_Ok _ _ _ _ _ (push_next_index_eq _)) in *.
  by apply GetEnemyUnit_while_more_fuel.
Qed.

(** ** [AssignEnemyUnit]: results *)

Lemma AssignEnemyUnit_None_inv st t w st' :
  AssignEnemyUnit t w st = Ok None st' → GetEnemyUnit st = Ok None st'.
Proof.
  unfold AssignEnemyUnit. intros (a & st1 & Hget & Hrest)%bind_inv_Ok.
  destruct a as [r|]; [|by injection Hrest as <-].
  exfalso. repeat (apply bind_inv_Ok in Hrest as (? & ? & _ & Hrest)).
  discriminate Hrest.
Qed.

Lemma AssignEnemyUnit_Some_inv st t w r st' :
  wf st → AssignEnemyUnit t w st = Ok (Some r) st' →
  ∃ st1 o s,
    GetEnemyUnit st = Ok (Some r) st1 ∧ objects st1 !! r = Some o
    ∧ isAlive o = false
    ∧ (enemyModelDict st !! toString t = Some s ∨ shape o = Some s ∧ type o = t)
    ∧ st' = assign_result r (assigned t w (Some (swap_shape o t s)) o)
              (swap_ops r o t s) st1.
Proof.
  intros Hwf Hassign.
  destruct (GetEnemyUnit st) as [[r0|] st1| |] eqn:Hget.
  2:{ by rewrite (AssignEnemyUnit_null _ _ _ _ Hget) in Hassign. }
  2,3: unfold AssignEnemyUnit, mbind, M_bind in Hassign; by rewrite Hget in Hassign.
  destruct (GetEnemyUnit_Some_inv _ _ _ Hwf Hget) as (j & Hj & -> & _ & Hfree & Hst1).
  destruct (wf_objects_in _ _ Hwf Hj) as (o & Ho & _).
  assert (isAlive o = false) as Halive.
  { unfold free_at in Hfree. rewrite (alive_at_in _ _ _ Hwf Hj Ho) in Hfree.
    by destruct (isAlive o). }
  assert (objects st1 !! Z.to_nat j = Some o) as Ho1 by (by rewrite Hst1).
  assert (enemyModelDict st1 = enemyModelDict st) as Hmd by (by rewrite Hst1).
  destruct (enemyModelDict st !! toString t) as [s|] eqn:Hm.
  - rewrite <- Hmd in Hm.
    rewrite (AssignEnemyUnit_registered _ _ _ _ _ w _ Hget Ho1 Hm) in Hassign.
    injection Hassign as <- <-. exists st1, o, s. split_and!; auto.
  - destruct (shape o) as [s0|] eqn:Hs.
    + destruct (decide (type o = t)) as [Ht|Ht].
      * rewrite (AssignEnemyUnit_same_type _ _ _ _ _ w _ Hget Ho1 Hs Ht) in Hassign.
        injection Hassign as <- <-. exists st1, o, s0. split_and!; auto.
        unfold swap_shape, swap_ops. rewrite Hs. by rewrite bool_decide_true.
      * rewrite <- Hmd in Hm.
        destruct (AssignEnemyUnit_unregistered _ _ _ _ t w Hget Ho1 Hm) as [? Hthrow];
          [by right|]. by rewrite Hthrow in Hassign.
    + rewrite <- Hmd in Hm.
      destruct (AssignEnemyUnit_unregistered _ _ _ _ t w Hget Ho1 Hm) as [? Hthrow];
        [by left|]. by rewrite Hthrow in Hassign.
Qed.

Lemma wf_AssignEnemyUnit st t w a st' :
  wf st → AssignEnemyUnit t w st = Ok a st' → wf st'.
Proof.
  intros Hwf Hassign. destruct a as [r|].
  - destruct (AssignEnemyUnit_Some_inv _ _ _ _ _ Hwf Hassign)
      as (st1 & o & s & Hget & Ho & _ & _ & ->).
    eapply wf_assign_result; [by eapply wf_GetEnemyUnit_Some|done|done].
  - apply AssignEnemyUnit_None_inv in Hassign. by eapply wf_GetEnemyUnit_None.
Qed.

(** ** What a call leaves alone *)

Lemma look_put_obj st r r' o o' :
  objects st !! r = Some o → type o' = type o → shape o' = shape o →
  look r' (put_obj r o' st) = look r' st.
Proof.
  intros Ho Ht Hs. unfold look, put_obj. cbn.
  destruct (decide (r = r')) as [<-|Hne].
  - rewrite list_lookup_insert_eq by (by eapply lookup_lt_Some).
    rewrite Ho. cbn. by rewrite Ht, Hs.
  - by rewrite list_lookup_insert_ne.
Qed.

Lemma look_all_cleared st r : look r (all_cleared st) = look r st.
Proof.
  unfold look, all_cleared. cbn. rewrite list_lookup_fmap.
  by destruct (objects st !! r).
Qed.

Lemma with_new_units_objects k : ∀ st r,
  is_Some (objects st !! r) →
  objects (with_new_units k st) !! r = objects st !! r.
Proof.
  induction k as [|k IH]; intros st r Hr; [done|].
  rewrite with_new_units_S, IH.
  - cbn. apply lookup_app_l. by apply lookup_lt_is_Some.
  - cbn. rewrite lookup_app_l by (by apply lookup_lt_is_Some). done.
Qed.

Lemma with_new_units_length k st :
  length (objects (with_new_units k st)) = (length (objects st) + k)%nat.
Proof.
  revert st. induction k as [|k IH]; intros st; [cbn; lia|].
  rewrite with_new_units_S, IH. cbn. rewrite length_app. cbn. lia.
Qed.

Lemma with_new_units_enemyModelDict k st :
  enemyModelDict (with_new_units k st) = enemyModelDict st.
Proof.
  induction k as [|k IH]; [done|]. cbn [with_new_units]. by rewrite <- IH.
Qed.

Lemma ClearUnit_inv st i st' :
  wf st → ClearUnit i st = Ok tt st' →
  0 ≤ i < List_size (enemyList st)
  ∧ ∃ o, objects st !! Z.to_nat i = Some o ∧ st' = put_obj (Z.to_nat i) (cleared o) st.
Proof.
  intros Hwf Hclear.
  destruct (decide (0 ≤ i < List_size (enemyList st))) as [Hi|Hi].
  - split; [done|]. destruct (wf_objects_in _ _ Hwf Hi) as (o & Ho & _).
    rewrite (ClearUnit_in _ _ _ Hwf Hi Ho) in Hclear. injection Hclear as <-. eauto.
  - by rewrite ClearUnit_out in Hclear.
Qed.

Lemma DamageUnit_inv st i d st' :
  wf st → DamageUnit i d st = Ok tt st' →
  0 ≤ i < List_size (enemyList st)
  ∧ ∃ o, objects st !! Z.to_nat i = Some o ∧ st' = put_obj (Z.to_nat i) (damaged d o) st.
Proof.
  intros Hwf Hdmg.
  destruct (decide (0 ≤ i < List_size (enemyList st))) as [Hi|Hi].
  - split; [done|]. destruct (wf_objects_in _ _ Hwf Hi) as (o & Ho & _).
    rewrite (DamageUnit_in _ _ d _ Hwf Hi Ho) in Hdmg. injection Hdmg as <-. eauto.
  - by rewrite DamageUnit_out in Hdmg.
Qed.

(** A call that returns keeps the pool well-formed, the model cache as it
    was, every existing unit in place, and the look of every unit but the
    one it assigns. *)
Lemma call_frame c st a st' :
  wf st → call c st = Ok a st' →
  wf st'
  ∧ enemyModelDict st' = enemyModelDict st
  ∧ (∀ r, is_Some (objects st !! r) → is_Some (objects st' !! r))
  ∧ (∀ r, a ≠ Some r → is_Some (objects st !! r) → look r st' = look r st).
Proof.
  intros Hwf Hcall. destruct c as [t w|i d|i| |]; cbn [call] in Hcall.
  - (* AssignEnemyUnit *)
    split; [by eapply wf_AssignEnemyUnit|].
    destruct a as [r0|].
    + destruct (AssignEnemyUnit_Some_inv _ _ _ _ _ Hwf Hcall)
        as (st1 & o & s & Hget & Ho & _ & _ & ->).
      destruct (GetEnemyUnit_Some_inv _ _ _ Hwf Hget) as (j & _ & _ & _ & _ & ->).
      split_and!; [done| |].
      * intros r. cbn. rewrite !lookup_lt_is_Some. by rewrite length_insert.
      * intros r Hne _. unfold look. cbn.
        rewrite list_lookup_insert_ne; [done|congruence].
    + apply AssignEnemyUnit_None_inv in Hcall.
      by destruct (GetEnemyUnit_None_inv _ _ Hwf Hcall) as (_ & _ & ->).
  - (* DamageUnit *)
    apply bind_inv_Ok in Hcall as ([] & st1 & Hdmg & [= <- <-]).
    destruct (DamageUnit_inv _ _ _ _ Hwf Hdmg) as (Hi & o & Ho & ->).
    split_and!; [by eapply wf_put_obj|done| |].
    + intros r. cbn. rewrite !lookup_lt_is_Some. by rewrite length_insert.
    + intros r _ _. by eapply look_put_obj.
  - (* ClearUnit *)
    apply bind_inv_Ok in Hcall as ([] & st1 & Hclear & [= <- <-]).
    destruct (ClearUnit_inv _ _ _ Hwf Hclear) as (Hi & o & Ho & ->).
    split_and!; [by eapply wf_put_obj|done| |].
    + intros r. cbn. rewrite !lookup_lt_is_Some. by rewrite length_insert.
    + intros r _ _. by eapply look_put_obj.
  - (* ClearUnits *)
    apply bind_inv_Ok in Hcall as ([] & st1 & Hclear & [= <- <-]).
    rewrite ClearUnits_eq in Hclear by done. injection Hclear as <-.
    split_and!; [by apply wf_all_cleared|done| |].
    + intros r. cbn. rewrite !lookup_lt_is_Some. by rewrite length_fmap.
    + intros r _ _. apply look_all_cleared.
  - (* Initialize *)
    apply bind_inv_Ok in Hcall as ([] & st1 & Hinit & [= <- <-]).
    rewrite Initialize_eq in Hinit by done. injection Hinit as <-.
    split_and!.
    + by apply wf_all_cleared, wf_with_new_units.
    + cbn. apply with_new_units_enemyModelDict.
    + intros r. cbn. rewrite !lookup_lt_is_Some, length_fmap, with_new_units_length. lia.
    + intros r _ Hr. rewrite look_all_cleared. unfold look.
      by rewrite with_new_units_objects.
Qed.

Lemma calls_frame cs : ∀ st rs st',
  wf st → calls cs st = Ok rs st' →
  wf st'
  ∧ enemyModelDict st' = enemyModelDict st
  ∧ (∀ r, is_Some (objects st !! r) → is_Some (objects st' !! r))
  ∧ (∀ r, Some r ∉ rs → is_Some (objects st !! r) → look r st' = look r st).
Proof.
  induction cs as [|c cs IH]; intros st rs st' Hwf Hcalls.
  { injection Hcalls as <- <-. done. }
  cbn [calls] in Hcalls.
  apply bind_inv_Ok in Hcalls as (a & st1 & Hcall & Hcalls).
  apply bind_inv_Ok in Hcalls as (rs' & st2 & Hrest & [= <- <-]).
  destruct (call_frame _ _ _ _ Hwf Hcall) as (Hwf1 & Hmd1 & Hkeep1 & Hlook1).
  destruct (IH _ _ _ Hwf1 Hrest) as (Hwf2 & Hmd2 & Hkeep2 & Hlook2).
  split_and!; [done|congruence|auto|].
  intros r Hnotin Hr. apply not_elem_of_cons in Hnotin as [Hne Hnotin].
  rewrite Hlook2 by auto. apply Hlook1; [congruence|done].
Qed.

Lemma wf_state_after cs st :
  wf st → returns (calls cs st) = true → wf (state_after cs st).
Proof.
  intros Hwf Hret. unfold state_after.
  destruct (calls cs st) as [rs st'| |] eqn:Hcalls; [|done..].
  by destruct (calls_frame _ _ _ _ Hwf Hcalls).
Qed.

Lemma wf_new_pool size_max : wf (new_pool size_max).
Proof.
  unfold new_pool, state_after. cbn [calls call].
  rewrite bind_assoc.
  rewrite (bind_Ok _ _ _ _ _
    (Initialize_eq _ (wf_set_enemySizeMax _ size_max (wf_constructor example_data)))).
  rewrite !bind_ret. cbn beta iota.
  apply wf_all_cleared, wf_with_new_units, wf_set_enemySizeMax, wf_constructor.
Qed.

(** * Properties of the pool *)

(** ** [Initialize] *)

Lemma all_cleared_idemp st : all_cleared (all_cleared st) = all_cleared st.
Proof.
  unfold all_cleared, set_enemySizeRemaining, set_enemySizeCur, set_objects. cbn.
  f_equal. rewrite <- list_fmap_compose. apply list_fmap_ext. by intros ? [].
Qed.

Lemma missing_units_Initialize st :
  missing_units (all_cleared (with_new_units (missing_units st) st)) = 0%nat.
Proof.
  unfold missing_units at 1. cbn.
  rewrite with_new_units_enemySizeMax, with_new_units_size.
  unfold missing_units. lia.
Qed.

(** Claim C6, as the code has it: a second [Initialize] creates no unit. The
    loop runs only while the list is shorter than [enemySizeMax], so after a
    first [Initialize] the list has [enemySizeMax] units (or as many as it
    already had, if more), and a second [Initialize] returns the very state
    the first one left: same units, same collections, same counters. *)
Theorem Initialize_twice_allocates_once st st1 :
  wf st → Initialize st = Ok tt st1 →
  Initialize st1 = Ok tt st1
  ∧ List_size (enemyList st1) = Z.max (List_size (enemyList st)) (enemySizeMax st)
  ∧ enemySizeMax st1 = enemySizeMax st.
Proof.
  intros Hwf Hinit. rewrite Initialize_eq in Hinit by done.
  injection Hinit as <-. split_and!.
  - rewrite Initialize_eq by (by apply wf_all_cleared, wf_with_new_units).
    rewrite missing_units_Initialize. change (with_new_units 0 ?x) with x.
    by rewrite all_cleared_idemp.
  - cbn. rewrite with_new_units_size. unfold missing_units. lia.
  - cbn. apply with_new_units_enemySizeMax.
Qed.

Lemma Initialize_twice_allocates_once_witness :
  wf (constructor [])
  ∧ Initialize (constructor []) = Ok tt (state_after [CallInitialize] (constructor []))
  ∧ Initialize (state_after [CallInitialize] (constructor []))
    = Ok tt (state_after [CallInitialize] (constructor []))
  ∧ List_size (enemyList (state_after [CallInitialize] (constructor []))) = 30.
Proof.
  assert (Initialize (constructor [])
          = Ok tt (state_after [CallInitialize] (constructor []))) as Hinit
    by (vm_compute; reflexivity).
  destruct (Initialize_twice_allocates_once _ _ (wf_constructor []) Hinit)
    as (Hagain & Hsize & _).
  split_and!; [apply wf_constructor|exact Hinit|exact Hagain|exact Hsize].
Defined.

(** Claim C6 as stated fails: after two [Initialize] calls on a new manager
    the pool has 30 units, which is [enemySizeMax], not twice that. *)
Lemma Initialize_twice_not_double :
  ∃ st1 st2,
    Initialize (constructor []) = Ok tt st1 ∧ Initialize st1 = Ok tt st2
    ∧ enemySizeMax st2 = 30
    ∧ List_size (enemyList st2) = 30
    ∧ List_size (enemyList st2) ≠ 2 * enemySizeMax st2.
Proof.
  eexists _, _. split_and!; [vm_compute; reflexivity..|]. vm_compute. discriminate.
Qed.

(** ** [GetEnemyUnit] on a pool without slots *)

(** Claim C7, as the code has it: with no slot in the list, [GetEnemyUnit]
    does not return [null]. It has no test for an empty list: it wraps the
    cursor and runs [enemyList.getItem(iterationIndex)] on the empty list,
    and that lookup fails. *)
Theorem GetEnemyUnit_empty_pool_fails st :
  enemyList st = [] →
  (∃ st', GetEnemyUnit st = Throw OutOfRangeError st')
  ∧ (∀ st', GetEnemyUnit st ≠ Ok None st').
Proof.
  intros Hnil. rewrite (GetEnemyUnit_no_slot _ Hnil). split; [by eexists|done].
Qed.

Lemma GetEnemyUnit_empty_pool_fails_witness :
  enemyList (constructor []) = []
  ∧ (∃ st', GetEnemyUnit (constructor []) = Throw OutOfRangeError st')
  ∧ (∀ st', GetEnemyUnit (constructor []) ≠ Ok None st').
Proof.
  split; [reflexivity|].
  exact (GetEnemyUnit_empty_pool_fails (constructor []) eq_refl).
Defined.

(** ** [ClearUnit] *)

(** Claim C8: for a valid index, [ClearUnit(index)] returns, the unit of that
    index ends with [isAlive] false and off the engine, its other fields
    ([index], [type], [wave], shape, damage received) are as before, every
    other unit is as before, and so are the cursor ([iterationIndex],
    [iterationHalt]), the counters, the collections and the log of component
    calls. *)
Theorem ClearUnit_frame st i :
  wf st → 0 ≤ i < List_size (enemyList st) →
  ∃ st' o o',
    ClearUnit i st = Ok tt st'
    ∧ objects st !! Z.to_nat i = Some o ∧ index o = i
    ∧ objects st' !! Z.to_nat i = Some o'
    ∧ isAlive o' = false ∧ engineState o' = false
    ∧ index o' = index o ∧ type o' = type o ∧ wave o' = wave o
    ∧ shape o' = shape o ∧ damageTaken o' = damageTaken o
    ∧ (∀ r, r ≠ Z.to_nat i → objects st' !! r = objects st !! r)
    ∧ length (objects st') = length (objects st)
    ∧ iterationIndex st' = iterationIndex st
    ∧ iterationHalt st' = iterationHalt st
    ∧ enemySizeMax st' = enemySizeMax st
    ∧ enemySizeCur st' = enemySizeCur st
    ∧ enemySizeRemaining st' = enemySizeRemaining st
    ∧ enemyList st' = enemyList st
    ∧ enemyDict st' = enemyDict st
    ∧ enemyModelDict st' = enemyModelDict st
    ∧ shapeOps st' = shapeOps st.
Proof.
  intros Hwf Hi. destruct (wf_objects_in _ _ Hwf Hi) as (o & Ho & Hidx).
  exists (put_obj (Z.to_nat i) (cleared o) st), o, (cleared o).
  split_and!; try done.
  - by apply ClearUnit_in.
  - by eapply put_obj_lookup.
  - intros r Hne. by apply put_obj_lookup_ne.
  - cbn. apply length_insert.
Qed.

Lemma ClearUnit_frame_witness :
  wf pool_one_alive
  ∧ 0 ≤ 1 < List_size (enemyList pool_one_alive)
  ∧ ∃ st' o o',
      ClearUnit 1 pool_one_alive = Ok tt st'
      ∧ objects pool_one_alive !! 1%nat = Some o
      ∧ isAlive o = true ∧ type o = 1 ∧ wave o = 5
      ∧ shape o = Some {| src := "models/enemy/orc.glb" |}
      ∧ objects st' !! 1%nat = Some o'
      ∧ isAlive o' = false ∧ engineState o' = false
      ∧ type o' = 1 ∧ wave o' = 5
      ∧ shape o' = Some {| src := "models/enemy/orc.glb" |}
      ∧ objects st' !! 0%nat = objects pool_one_alive !! 0%nat
      ∧ iterationIndex st' = 1
      ∧ enemySizeCur st' = 1.
Proof.
  assert (wf pool_one_alive) as Hwf
    by (apply wf_state_after; [apply wf_new_pool|vm_compute; reflexivity]).
  assert (0 ≤ 1 < List_size (enemyList pool_one_alive)) as Hi
    by (vm_compute; split; [discriminate|reflexivity]).
  assert (iterationIndex pool_one_alive = 1) as Hidx1 by (vm_compute; reflexivity).
  assert (enemySizeCur pool_one_alive = 1) as Hcur1 by (vm_compute; reflexivity).
  split; [exact Hwf|]. split; [exact Hi|].
  destruct (ClearUnit_frame pool_one_alive 1 Hwf Hi)
    as (st' & o & o' & Hclear & Ho & _ & Ho' & Halive & Hengine & _ & Ht & Hw
        & Hs & _ & Hothers & _ & Hcursor & _ & _ & Hcur & _).
  change (Z.to_nat 1) with 1%nat in Ho, Ho', Hothers.
  assert (isAlive o = true ∧ type o = 1 ∧ wave o = 5
          ∧ shape o = Some {| src := "models/enemy/orc.glb" |}) as (Ha & Ht0 & Hw0 & Hs0).
  { pose proof Ho as Ho0. vm_compute in Ho0. injection Ho0 as <-.
    repeat split; reflexivity. }
  exists st', o, o'.
  split; [exact Hclear|]. split; [exact Ho|].
  split; [exact Ha|]. split; [exact Ht0|]. split; [exact Hw0|]. split; [exact Hs0|].
  split; [exact Ho'|]. split; [exact Halive|]. split; [exact Hengine|].
  split; [rewrite Ht; exact Ht0|]. split; [rewrite Hw; exact Hw0|].
  split; [rewrite Hs; exact Hs0|].
  split; [apply Hothers; discriminate|].
  split; [rewrite Hcursor; exact Hidx1|]. rewrite Hcur. exact Hcur1.
Defined.

(** ** [DamageUnit] *)

(** Claim C9: [DamageUnit(index, damage)] on the index of a created unit
    returns after passing [damage] to that unit's [TakeDamage], and to no
    other unit; on any other index it throws the out-of-range error and the
    state is as before. *)
Theorem DamageUnit_forwards_or_fails st i d :
  wf st →
  (0 ≤ i < List_size (enemyList st) →
     ∃ st' o,
       DamageUnit i d st = Ok tt st'
       ∧ objects st !! Z.to_nat i = Some o ∧ index o = i
       ∧ objects st' !! Z.to_nat i = Some (damaged d o)
       ∧ (∀ r, r ≠ Z.to_nat i → objects st' !! r = objects st !! r))
  ∧ (¬ (0 ≤ i < List_size (enemyList st)) →
       DamageUnit i d st = Throw OutOfRangeError st).
Proof.
  intros Hwf. split; intros Hi.
  - destruct (wf_objects_in _ _ Hwf Hi) as (o & Ho & Hidx).
    exists (put_obj (Z.to_nat i) (damaged d o) st), o. split_and!; try done.
    + by apply DamageUnit_in.
    + by eapply put_obj_lookup.
    + intros r Hne. by apply put_obj_lookup_ne.
  - by apply DamageUnit_out.
Qed.

Lemma DamageUnit_forwards_or_fails_witness :
  wf (state_after [CallInitialize] (constructor []))
  ∧ (∃ st' o, DamageUnit 3 7 (state_after [CallInitialize] (constructor [])) = Ok tt st'
            ∧ objects st' !! 3%nat = Some o ∧ damageTaken o = [7])
  ∧ DamageUnit 30 7 (state_after [CallInitialize] (constructor []))
    = Throw OutOfRangeError (state_after [CallInitialize] (constructor [])).
Proof.
  assert (wf (state_after [CallInitialize] (constructor []))) as Hwf
    by (apply wf_state_after; [apply wf_constructor|vm_compute; reflexivity]).
  split; [exact Hwf|]. split.
  - destruct (proj1 (DamageUnit_forwards_or_fails _ 3 7 Hwf))
      as (st' & o & Hdmg & Ho & _ & Ho' & _).
    { vm_compute. split; [discriminate|reflexivity]. }
    exists st', (damaged 7 o). split; [exact Hdmg|]. split; [exact Ho'|].
    vm_compute in Ho. injection Ho as <-. reflexivity.
  - apply (proj2 (DamageUnit_forwards_or_fails _ 30 7 Hwf)).
    vm_compute. intros [_ H]. discriminate H.
Defined.

(** ** [AssignEnemyUnit] on an exhausted pool *)

Lemma all_alive_find st :
  wf st → 0 < List_size (enemyList st) →
  Forall (λ o, isAlive o = true) (objects st) →
  find (free_at st) (scan_order st) = None.
Proof.
  intros Hwf Hn Hall. apply find_free_None; [done..|].
  intros j Hj. destruct (wf_objects_in _ _ Hwf Hj) as (o & Ho & _).
  rewrite (alive_at_in _ _ _ Hwf Hj Ho).
  by eapply (proj1 (Forall_lookup _ _) Hall).
Qed.

(** Claim C10, as the code has it: on a pool with at least one slot and
    every unit alive, [AssignEnemyUnit] returns [null]; the units,
    [enemySizeCur] and all the rest of the state are as before, except
    [iterationHalt], which now holds the cursor; the cursor itself went
    round the pool and is back where it was. *)
Theorem AssignEnemyUnit_exhausted st t w :
  wf st → enemyList st ≠ [] →
  Forall (λ o, isAlive o = true) (objects st) →
  ∃ st',
    AssignEnemyUnit t w st = Ok None st'
    ∧ objects st' = objects st
    ∧ enemySizeCur st' = enemySizeCur st
    ∧ enemySizeRemaining st' = enemySizeRemaining st
    ∧ enemySizeMax st' = enemySizeMax st
    ∧ enemyList st' = enemyList st
    ∧ enemyDict st' = enemyDict st
    ∧ enemyModelDict st' = enemyModelDict st
    ∧ shapeOps st' = shapeOps st
    ∧ iterationIndex st' = iterationIndex st
    ∧ iterationHalt st' = iterationIndex st.
Proof.
  intros Hwf Hne Hall.
  assert (0 < List_size (enemyList st)) as Hn.
  { unfold List_size. destruct (enemyList st); [done|cbn; lia]. }
  exists (set_iterationHalt (iterationIndex st) st). split_and!; try done.
  apply AssignEnemyUnit_null. rewrite GetEnemyUnit_scan by done.
  by rewrite all_alive_find.
Qed.

(** Claim C10 as stated, for every pool whose units are all alive, fails on
    the pool without units: there every unit is alive, none existing, and
    [AssignEnemyUnit] throws on the lookup of position 0 instead of
    returning [null]. *)
Lemma AssignEnemyUnit_empty_pool_not_null :
  wf (new_pool 0)
  ∧ Forall (λ o, isAlive o = true) (objects (new_pool 0))
  ∧ AssignEnemyUnit 0 1 (new_pool 0) = Throw OutOfRangeError (new_pool 0)
  ∧ AssignEnemyUnit 0 1 (new_pool 0) ≠ Ok None (new_pool 0).
Proof.
  assert (AssignEnemyUnit 0 1 (new_pool 0) = Throw OutOfRangeError (new_pool 0))
    as Hthrow by (vm_compute; reflexivity).
  split; [apply wf_new_pool|]. split; [vm_compute; constructor|].
  split; [exact Hthrow|]. rewrite Hthrow. discriminate.
Qed.

(** ** The counter [enemySizeCur] *)

Lemma alive_length_insert (l : list EnemyUnitObject) r o o' :
  l !! r = Some o →
  Z.of_nat (length (filter (λ o, isAlive o = true) (<[r:=o']> l)))
  = Z.of_nat (length (filter (λ o, isAlive o = true) l))
    - Z.b2z (isAlive o) + Z.b2z (isAlive o').
Proof.
  intros Ho. rewrite insert_take_drop by (by eapply lookup_lt_Some).
  rewrite <- (take_drop_middle l r o Ho) at 3.
  rewrite !filter_app, !filter_cons, !length_app.
  destruct (isAlive o), (isAlive o'); repeat case_decide; try done; cbn; lia.
Qed.

Lemma alive_count_put_obj st r o o' :
  objects st !! r = Some o →
  alive_count (put_obj r o' st)
  = alive_count st - Z.b2z (isAlive o) + Z.b2z (isAlive o').
Proof. intros Ho. unfold alive_count. cbn. by apply alive_length_insert. Qed.

(** Claim C1, as the code has it: [AssignEnemyUnit] keeps [enemySizeCur]
    equal to the number of units alive, and [ClearUnit] on the unit just
    assigned breaks the equality: the unit is no longer alive and
    [enemySizeCur] is not decremented, so it is one more than the number of
    units alive. *)
Theorem ClearUnit_keeps_enemySizeCur st t w r st1 :
  wf st → enemySizeCur st = alive_count st →
  AssignEnemyUnit t w st = Ok (Some r) st1 →
  enemySizeCur st1 = alive_count st1
  ∧ ∃ st2, ClearUnit (Z.of_nat r) st1 = Ok tt st2
         ∧ enemySizeCur st2 = enemySizeCur st1
         ∧ alive_count st2 = alive_count st1 - 1
         ∧ enemySizeCur st2 ≠ alive_count st2.
Proof.
  intros Hwf Hinv Hassign.
  pose proof (wf_AssignEnemyUnit _ _ _ _ _ Hwf Hassign) as Hwf1.
  destruct (AssignEnemyUnit_Some_inv _ _ _ _ _ Hwf Hassign)
    as (st0 & o & s & Hget & Ho & Halive & _ & ->).
  destruct (GetEnemyUnit_Some_inv _ _ _ Hwf Hget) as (j & Hj & -> & _ & _ & ->).
  set (o1 := assigned t w (Some (swap_shape o t s)) o) in *.
  assert (alive_count (assign_result (Z.to_nat j) o1 (swap_ops (Z.to_nat j) o t s)
            (set_iterationIndex j (set_iterationHalt (iterationIndex st) st)))
          = alive_count st + 1) as Hcount1.
  { unfold alive_count. cbn. rewrite (alive_length_insert _ _ o) by done.
    rewrite Halive. cbn. lia. }
  split; [rewrite Hcount1; cbn; lia|].
  rewrite Z2Nat.id by lia.
  eexists. split; [|split_and!].
  - apply ClearUnit_in; [done|done|]. cbn.
    apply list_lookup_insert_eq. by eapply lookup_lt_Some.
  - done.
  - match goal with |- alive_count (put_obj _ _ ?x) = _ =>
      rewrite (alive_count_put_obj x _ o1) end.
    + cbn. lia.
    + cbn. apply list_lookup_insert_eq. by eapply lookup_lt_Some.
  - match goal with |- _ ≠ alive_count (put_obj _ _ ?x) =>
      rewrite (alive_count_put_obj x _ o1) end.
    + rewrite Hcount1. cbn. lia.
    + cbn. apply list_lookup_insert_eq. by eapply lookup_lt_Some.
Qed.

Lemma ClearUnit_keeps_enemySizeCur_witness :
  wf (new_pool 30)
  ∧ enemySizeCur (new_pool 30) = alive_count (new_pool 30)
  ∧ AssignEnemyUnit 0 1 (new_pool 30)
    = Ok (Some 1%nat) (state_after [CallAssignEnemyUnit 0 1] (new_pool 30))
  ∧ ∃ st2,
      ClearUnit 1 (state_after [CallAssignEnemyUnit 0 1] (new_pool 30)) = Ok tt st2
      ∧ enemySizeCur st2 = 1 ∧ alive_count st2 = 0.
Proof.
  assert (enemySizeCur (new_pool 30) = alive_count (new_pool 30)) as Hinv
    by (vm_compute; reflexivity).
  assert (AssignEnemyUnit 0 1 (new_pool 30)
          = Ok (Some 1%nat) (state_after [CallAssignEnemyUnit 0 1] (new_pool 30)))
    as Hassign by (vm_compute; reflexivity).
  split; [apply wf_new_pool|]. split; [exact Hinv|]. split; [exact Hassign|].
  destruct (ClearUnit_keeps_enemySizeCur _ _ _ _ _ (wf_new_pool 30) Hinv Hassign)
    as (Hinv1 & st2 & Hclear & Hcur & Hcount & _).
  exists st2. split; [exact Hclear|]. rewrite Hcur, Hcount, <- Hinv1.
  vm_compute. split; reflexivity.
Defined.

Lemma AssignEnemyUnit_exhausted_witness :
  wf (state_after [CallAssignEnemyUnit 0 1; CallAssignEnemyUnit 1 1] (new_pool 2))
  ∧ enemyList (state_after [CallAssignEnemyUnit 0 1; CallAssignEnemyUnit 1 1] (new_pool 2)) ≠ []
  ∧ Forall (λ o, isAlive o = true)
      (objects (state_after [CallAssignEnemyUnit 0 1; CallAssignEnemyUnit 1 1] (new_pool 2)))
  ∧ ∃ st',
      AssignEnemyUnit 0 2
        (state_after [CallAssignEnemyUnit 0 1; CallAssignEnemyUnit 1 1] (new_pool 2))
      = Ok None st'
      ∧ enemySizeCur st' = 2.
Proof.
  assert (wf (state_after [CallAssignEnemyUnit 0 1; CallAssignEnemyUnit 1 1] (new_pool 2)))
    as Hwf by (apply wf_state_after; [apply wf_new_pool|vm_compute; reflexivity]).
  assert (enemyList (state_after [CallAssignEnemyUnit 0 1; CallAssignEnemyUnit 1 1] (new_pool 2)) ≠ [])
    as Hne by (vm_compute; discriminate).
  assert (Forall (λ o, isAlive o = true)
      (objects (state_after [CallAssignEnemyUnit 0 1; CallAssignEnemyUnit 1 1] (new_pool 2))))
    as Hall by (vm_compute; repeat constructor).
  split; [exact Hwf|]. split; [exact Hne|]. split; [exact Hall|].
  destruct (AssignEnemyUnit_exhausted _ 0 2 Hwf Hne Hall)
    as (st' & Hassign & _ & Hcur & _).
  exists st'. split; [exact Hassign|]. rewrite Hcur. vm_compute. reflexivity.
Defined.

(** ** The scan of [GetEnemyUnit] *)

Lemma scan_order_lookup st k :
  wf st → (k < length (enemyList st))%nat →
  scan_order st !! k
  = Some ((iterationIndex st + 1 + Z.of_nat k) `mod` List_size (enemyList st)).
Proof.
  intros Hwf Hk.
  assert (0 < List_size (enemyList st)) as Hn by (unfold List_size; lia).
  assert (0 ≤ iterationIndex st < List_size (enemyList st)) as Hi
    by (pose proof (wf_cursor _ Hwf); lia).
  unfold scan_order.
  rewrite scan_lookup by (auto using next_index_in).
  rewrite next_index_mod by done. by rewrite Zplus_mod_idemp_l.
Qed.

Lemma scan_order_closed_form st :
  wf st →
  scan_order st
  = (λ k, (iterationIndex st + 1 + Z.of_nat k) `mod` List_size (enemyList st))
      <$> seq 0 (length (enemyList st)).
Proof.
  intros Hwf. apply list_eq. intros k. rewrite list_lookup_fmap.
  destruct (decide (k < length (enemyList st))%nat) as [Hk|Hk].
  - rewrite scan_order_lookup by done. by rewrite lookup_seq_lt.
  - rewrite lookup_seq_ge by lia. apply lookup_ge_None_2.
    unfold scan_order. rewrite scan_length. lia.
Qed.

Lemma scan_order_Permutation st :
  wf st → 0 < List_size (enemyList st) →
  scan_order st ≡ₚ seqZ 0 (List_size (enemyList st)).
Proof.
  intros Hwf Hn.
  assert (0 ≤ next_index (List_size (enemyList st)) (iterationIndex st)
          < List_size (enemyList st)) as Hnext.
  { apply next_index_in; [done|]. pose proof (wf_cursor _ Hwf). lia. }
  apply NoDup_Permutation.
  - apply scan_NoDup; [done..|]. unfold List_size. lia.
  - apply NoDup_seqZ.
  - intros j. rewrite elem_of_seqZ. split.
    + intros Hin. pose proof (scan_range _ Hn _ _ _ Hnext Hin). lia.
    + intros Hj. unfold scan_order.
      replace (length (enemyList st)) with (Z.to_nat (List_size (enemyList st)))
        by (unfold List_size; lia).
      apply scan_complete; [done..|lia].
Qed.

Lemma scan_order_last st :
  wf st → 0 < List_size (enemyList st) →
  last (scan_order st) = Some (iterationIndex st).
Proof.
  intros Hwf Hn.
  assert (0 ≤ iterationIndex st < List_size (enemyList st)) as Hi
    by (pose proof (wf_cursor _ Hwf); lia).
  unfold scan_order. destruct (length (enemyList st)) as [|len] eqn:Hlen.
  { unfold List_size in Hn. lia. }
  apply scan_last_entry; [done..|]. unfold List_size. lia.
Qed.

(** Claim C2, as the code has it: on a pool with at least one slot,
    [GetEnemyUnit] records in [iterationHalt] the cursor it was entered
    with (not the advanced one), and looks at the slots one step past that
    cursor onwards, modulo the capacity: every slot exactly once, the entry
    cursor last. It returns the first slot of that order whose [isAlive] is
    false and leaves the cursor on it; when there is none it returns [null]
    with the cursor back on the entry cursor, that is on [iterationHalt].
    With one slot the call returns all the same: slot 0 if it is free,
    [null] if not. *)
Theorem GetEnemyUnit_scans_from_entry st :
  wf st → 0 < List_size (enemyList st) →
  scan_order st
  = (λ k, (iterationIndex st + 1 + Z.of_nat k) `mod` List_size (enemyList st))
      <$> seq 0 (length (enemyList st))
  ∧ scan_order st ≡ₚ seqZ 0 (List_size (enemyList st))
  ∧ last (scan_order st) = Some (iterationIndex st)
  ∧ GetEnemyUnit st
    = match find (free_at st) (scan_order st) with
      | Some j =>
          Ok (Some (Z.to_nat j))
             (set_iterationIndex j (set_iterationHalt (iterationIndex st) st))
      | None => Ok None (set_iterationHalt (iterationIndex st) st)
      end
  ∧ (∀ j, find (free_at st) (scan_order st) = Some j →
          ∃ o, objects st !! Z.to_nat j = Some o ∧ index o = j ∧ isAlive o = false)
  ∧ (List_size (enemyList st) = 1 →
       GetEnemyUnit st
       = if free_at st 0 then Ok (Some 0%nat) (set_iterationHalt 0 st)
         else Ok None (set_iterationHalt 0 st)).
Proof.
  intros Hwf Hn. split_and!.
  - by apply scan_order_closed_form.
  - by apply scan_order_Permutation.
  - by apply scan_order_last.
  - by apply GetEnemyUnit_scan.
  - intros j Hfind.
    destruct (find_free_in_range _ _ Hwf Hn Hfind) as [Hj Hfree].
    destruct (wf_objects_in _ _ Hwf Hj) as (o & Ho & Hidx).
    exists o. split_and!; [done..|].
    unfold free_at in Hfree. rewrite (alive_at_in _ _ _ Hwf Hj Ho) in Hfree.
    by destruct (isAlive o).
  - intros H1. rewrite GetEnemyUnit_scan by done.
    assert (iterationIndex st = 0) as Hidx
      by (pose proof (wf_cursor _ Hwf); lia).
    assert (length (enemyList st) = 1%nat) as Hlen by (unfold List_size in H1; lia).
    unfold scan_order. rewrite Hlen, H1, Hidx. cbn [scan find].
    change (next_index 1 0) with 0.
    destruct (free_at st 0); [|done].
    do 2 f_equal. rewrite <- Hidx at 1.
    change (iterationIndex st) with (iterationIndex (set_iterationHalt 0 st)) at 1.
    apply set_iterationIndex_id.
Qed.

Lemma GetEnemyUnit_scans_from_entry_witness :
  wf pool_free_alive
  ∧ 0 < List_size (enemyList pool_free_alive)
  ∧ scan_order pool_free_alive = [1; 0]
  ∧ GetEnemyUnit pool_free_alive
    = Ok (Some 0%nat) (set_iterationIndex 0 (set_iterationHalt 0 pool_free_alive)).
Proof.
  assert (wf pool_free_alive) as Hwf
    by (apply wf_state_after; [apply wf_new_pool|vm_compute; reflexivity]).
  assert (0 < List_size (enemyList pool_free_alive)) as Hn
    by (vm_compute; reflexivity).
  split; [exact Hwf|]. split; [exact Hn|].
  destruct (GetEnemyUnit_scans_from_entry _ Hwf Hn) as (Horder & _ & _ & Hget & _).
  split; [rewrite Horder; vm_compute; reflexivity|].
  rewrite Hget. vm_compute. reflexivity.
Defined.

(** Claim C2 as stated fails on [pool_free_alive] (slot 0 free, slot 1 alive,
    cursor 0). The code leaves [iterationHalt] at 0, the cursor of entry,
    goes on past the alive slot 1 and returns slot 0. The spec's [FindFree]
    sets [halt] to the advanced cursor 1, finds slot 1 alive with the cursor
    on [halt] already, and returns NONE. *)
Lemma GetEnemyUnit_is_not_FindFree :
  iterationIndex pool_free_alive = 0
  ∧ alive_flags pool_free_alive = [false; true]
  ∧ GetEnemyUnit_view pool_free_alive = Some (Some 0, 0, 0)
  ∧ FindFree (iterationIndex pool_free_alive) (alive_flags pool_free_alive)
    = Some (None, 1, 1)
  ∧ GetEnemyUnit_view pool_free_alive
    ≠ FindFree (iterationIndex pool_free_alive) (alive_flags pool_free_alive).
Proof. vm_compute. split_and!; (reflexivity || discriminate). Qed.

(** ** Two calls of [GetEnemyUnit] in a row *)

Lemma scan_snoc n i len : ∃ x, scan n i (S len) = scan n i len ++ [x].
Proof.
  revert i. induction len as [|len IH]; intros i; [by exists i|].
  destruct (IH (next_index n i)) as [x Hx]. exists x.
  change (scan n i (S (S len))) with (i :: scan n (next_index n i) (S len)).
  by rewrite Hx.
Qed.

Lemma find_snoc_last {A} (f : A → bool) (l : list A) c :
  find f (l ++ [c]) = Some c → c ∉ l → ∀ y, y ∈ l → f y = false.
Proof.
  induction l as [|a l IH]; intros Hfind Hnotin y Hy.
  { by apply elem_of_nil in Hy. }
  apply not_elem_of_cons in Hnotin as [Hne Hnotin].
  cbn in Hfind. destruct (f a) eqn:Hfa; [congruence|].
  apply elem_of_cons in Hy as [->|Hy]; [done|]. by apply IH.
Qed.

(** A call that returns the slot under the cursor of entry found every other
    slot alive. *)
Lemma GetEnemyUnit_same_slot st j :
  wf st → 0 < List_size (enemyList st) →
  find (free_at st) (scan_order st) = Some j → j = iterationIndex st →
  ∀ i, 0 ≤ i < List_size (enemyList st) → i ≠ j → alive_at st i = true.
Proof.
  intros Hwf Hn Hfind -> i Hi Hne.
  assert (0 ≤ iterationIndex st < List_size (enemyList st)) as Hc
    by (pose proof (wf_cursor _ Hwf); lia).
  pose proof (next_index_in _ Hn _ Hc) as Hnext.
  assert (i ∈ scan_order st) as Hin.
  { unfold scan_order.
    replace (length (enemyList st)) with (Z.to_nat (List_size (enemyList st)))
      by (unfold List_size; lia).
    by apply scan_complete. }
  unfold scan_order in *.
  destruct (length (enemyList st)) as [|len] eqn:Hlen.
  { unfold List_size in Hn. lia. }
  assert (Z.of_nat (S len) = List_size (enemyList st)) as Hlen'
    by (unfold List_size; lia).
  pose proof (scan_last_entry _ Hn _ len Hc Hlen') as Hlast.
  pose proof (scan_entry_not_before _ Hn _ len Hc Hlen') as Hnotin.
  destruct (scan_snoc (List_size (enemyList st))
              (next_index (List_size (enemyList st)) (iterationIndex st)) len)
    as [x Hx].
  rewrite Hx in Hlast, Hfind, Hin. rewrite last_snoc in Hlast.
  injection Hlast as ->.
  apply elem_of_app in Hin as [Hin|Hin%list_elem_of_singleton]; [|done].
  pose proof (find_snoc_last _ _ _ Hfind Hnotin _ Hin) as Hfree.
  unfold free_at in Hfree. by destruct (alive_at st i).
Qed.

(** Claim C4: the unit [GetEnemyUnit] returns has [isAlive] false, and the
    cursor stays on it. When the next call, made with the cursor untouched
    in between, returns the same unit again, every other unit was alive at
    that call. *)
Theorem GetEnemyUnit_free_and_not_twice st r st1 :
  wf st → GetEnemyUnit st = Ok (Some r) st1 →
  (∃ o, objects st1 !! r = Some o ∧ isAlive o = false ∧ index o = Z.of_nat r)
  ∧ iterationIndex st1 = Z.of_nat r
  ∧ ∀ st2 st3,
      wf st2 → iterationIndex st2 = iterationIndex st1 →
      GetEnemyUnit st2 = Ok (Some r) st3 →
      ∀ r' o', r' ≠ r → objects st2 !! r' = Some o' → isAlive o' = true.
Proof.
  intros Hwf Hget.
  destruct (GetEnemyUnit_Some_inv _ _ _ Hwf Hget) as (j & Hj & -> & _ & Hfree & ->).
  destruct (wf_objects_in _ _ Hwf Hj) as (o & Ho & Hidx).
  split_and!.
  - exists o. split_and!; [done| |lia].
    unfold free_at in Hfree. rewrite (alive_at_in _ _ _ Hwf Hj Ho) in Hfree.
    by destruct (isAlive o).
  - cbn. lia.
  - cbn [iterationIndex set_iterationIndex]. intros st2 st3 Hwf2 Hcur Hget2 r' o' Hne Ho'.
    destruct (GetEnemyUnit_Some_inv _ _ _ Hwf2 Hget2)
      as (j2 & Hj2 & Hr & Hfind & _ & _).
    assert (j2 = j) as -> by lia.
    assert (0 < List_size (enemyList st2)) as Hn2 by lia.
    assert (0 ≤ Z.of_nat r' < List_size (enemyList st2)) as Hr'.
    { apply lookup_lt_Some in Ho'. unfold List_size.
      rewrite (wf_length _ Hwf2). lia. }
    pose proof (GetEnemyUnit_same_slot _ _ Hwf2 Hn2 Hfind (eq_sym Hcur) _ Hr') as Halive.
    rewrite (alive_at_in _ _ o' Hwf2 Hr') in Halive by (by rewrite Nat2Z.id).
    apply Halive. lia.
Qed.

Lemma GetEnemyUnit_free_and_not_twice_witness :
  wf pool_one_free
  ∧ GetEnemyUnit pool_one_free
    = Ok (Some 0%nat) (set_iterationHalt 0 pool_one_free)
  ∧ (∃ o, objects (set_iterationHalt 0 pool_one_free) !! 0%nat = Some o
          ∧ isAlive o = false ∧ index o = 0)
  ∧ iterationIndex (set_iterationHalt 0 pool_one_free) = 0
  ∧ GetEnemyUnit (set_iterationHalt 0 pool_one_free)
    = Ok (Some 0%nat) (set_iterationHalt 0 pool_one_free)
  ∧ ∃ o1 o2,
      objects (set_iterationHalt 0 pool_one_free) !! 1%nat = Some o1
      ∧ objects (set_iterationHalt 0 pool_one_free) !! 2%nat = Some o2
      ∧ isAlive o1 = true ∧ isAlive o2 = true.
Proof.
  assert (wf pool_one_free) as Hwf
    by (apply wf_state_after; [apply wf_new_pool|vm_compute; reflexivity]).
  assert (GetEnemyUnit pool_one_free
          = Ok (Some 0%nat) (set_iterationHalt 0 pool_one_free)) as Hget
    by (vm_compute; reflexivity).
  assert (GetEnemyUnit (set_iterationHalt 0 pool_one_free)
          = Ok (Some 0%nat) (set_iterationHalt 0 pool_one_free)) as Hget2
    by (vm_compute; reflexivity).
  destruct (GetEnemyUnit_free_and_not_twice
              pool_one_free 0%nat (set_iterationHalt 0 pool_one_free) Hwf Hget)
    as (Hfree & Hcur & Htwice).
  pose proof (Htwice (set_iterationHalt 0 pool_one_free)
                (set_iterationHalt 0 pool_one_free)
                (wf_set_iterationHalt pool_one_free 0 Hwf) eq_refl Hget2) as Hothers.
  split; [exact Hwf|]. split; [exact Hget|]. split; [exact Hfree|].
  split; [exact Hcur|]. split; [exact Hget2|].
  destruct (objects (set_iterationHalt 0 pool_one_free) !! 1%nat) as [o1|] eqn:Ho1;
    [|vm_compute in Ho1; discriminate Ho1].
  destruct (objects (set_iterationHalt 0 pool_one_free) !! 2%nat) as [o2|] eqn:Ho2;
    [|vm_compute in Ho2; discriminate Ho2].
  exists o1, o2. split; [reflexivity|]. split; [reflexivity|].
  split; [exact (Hothers 1%nat o1 ltac:(discriminate) Ho1)
         |exact (Hothers 2%nat o2 ltac:(discriminate) Ho2)].
Defined.

(** ** The shape of a reused unit *)

(** A successful assignment, seen from the state it started in. *)
Lemma AssignEnemyUnit_look st t w r st' :
  wf st → AssignEnemyUnit t w st = Ok (Some r) st' →
  ∃ o s,
    objects st !! r = Some o
    ∧ (enemyModelDict st !! toString t = Some s ∨ shape o = Some s ∧ type o = t)
    ∧ shapeOps st' = shapeOps st ++ swap_ops r o t s
    ∧ look r st' = Some (t, Some (swap_shape o t s))
    ∧ enemyModelDict st' = enemyModelDict st.
Proof.
  intros Hwf Hassign.
  destruct (AssignEnemyUnit_Some_inv _ _ _ _ _ Hwf Hassign)
    as (st1 & o & s & Hget & Ho & _ & Hcase & ->).
  destruct (GetEnemyUnit_Some_inv _ _ _ Hwf Hget) as (j & _ & _ & _ & _ & ->).
  exists o, s. cbn in Ho. split_and!; [done|done|done| |done].
  unfold look. cbn.
  rewrite list_lookup_insert_eq by (by eapply lookup_lt_Some). done.
Qed.

(** Claim C5: a unit [r] assigned with type [A] and next assigned with type
    [A] again (whatever calls were made in between, [ClearUnit] on it among
    them, as long as none of them assigned [r]) gets no [removeComponent]
    and no [addComponent]: the log of component calls is unchanged. When it
    is later assigned with another type [B] (again with any calls in between
    that do not assign [r]), the log grows by exactly one [removeComponent]
    on [r] followed by one [addComponent] on [r], of the model registered
    for [B]. *)
Theorem reassign_same_type_no_swap st0 A w1 r st1 cs1 rs1 st2 w2 st3 :
  wf st0 →
  AssignEnemyUnit A w1 st0 = Ok (Some r) st1 →
  calls cs1 st1 = Ok rs1 st2 → Some r ∉ rs1 →
  AssignEnemyUnit A w2 st2 = Ok (Some r) st3 →
  shapeOps st3 = shapeOps st2
  ∧ ∀ cs2 rs2 st4 B w3 st5,
      calls cs2 st3 = Ok rs2 st4 → Some r ∉ rs2 → B ≠ A →
      AssignEnemyUnit B w3 st4 = Ok (Some r) st5 →
      ∃ sB, enemyModelDict st0 !! toString B = Some sB
          ∧ shapeOps st5 = shapeOps st4 ++ [RemoveShape r; AddShape r sB].
Proof.
  intros Hwf0 Hassign1 Hcalls1 Hnot1 Hassign2.
  (* first assignment: the unit shows type A with a shape *)
  pose proof (wf_AssignEnemyUnit _ _ _ _ _ Hwf0 Hassign1) as Hwf1.
  destruct (AssignEnemyUnit_look _ _ _ _ _ Hwf0 Hassign1)
    as (o0 & s0 & _ & _ & _ & Hlook1 & Hmd1).
  assert (is_Some (objects st1 !! r)) as Hr1.
  { unfold look in Hlook1. destruct (objects st1 !! r); [eauto|done]. }
  destruct (calls_frame _ _ _ _ Hwf1 Hcalls1) as (Hwf2 & Hmd2 & _ & Hlook2).
  specialize (Hlook2 r Hnot1 Hr1). rewrite Hlook1 in Hlook2.
  (* second assignment, same type *)
  pose proof (wf_AssignEnemyUnit _ _ _ _ _ Hwf2 Hassign2) as Hwf3.
  destruct (AssignEnemyUnit_look _ _ _ _ _ Hwf2 Hassign2)
    as (o2 & s2 & Ho2 & _ & Hops3 & Hlook3 & Hmd3).
  unfold look in Hlook2. rewrite Ho2 in Hlook2. injection Hlook2 as Ht2 Hs2.
  unfold swap_ops in Hops3. unfold swap_shape in Hlook3.
  rewrite Hs2, bool_decide_true in Hops3, Hlook3 by done.
  rewrite app_nil_r in Hops3. split; [done|].
  intros cs2 rs2 st4 B w3 st5 Hcalls2 Hnot2 HBA Hassign3.
  assert (is_Some (objects st3 !! r)) as Hr3.
  { unfold look in Hlook3. destruct (objects st3 !! r); [eauto|done]. }
  destruct (calls_frame _ _ _ _ Hwf3 Hcalls2) as (Hwf4 & Hmd4 & _ & Hlook4).
  specialize (Hlook4 r Hnot2 Hr3). rewrite Hlook3 in Hlook4.
  (* third assignment, another type *)
  destruct (AssignEnemyUnit_look _ _ _ _ _ Hwf4 Hassign3)
    as (o4 & sB & Ho4 & Hcase & Hops5 & _ & _).
  unfold look in Hlook4. rewrite Ho4 in Hlook4. injection Hlook4 as Ht4 Hs4.
  unfold swap_ops in Hops5.
  rewrite Hs4, bool_decide_false in Hops5 by congruence.
  exists sB. split; [|done].
  destruct Hcase as [Hreg|[_ Ht]]; [|congruence].
  by rewrite <- Hmd1, <- Hmd2, <- Hmd3, <- Hmd4.
Qed.

Lemma reassign_same_type_no_swap_witness :
  wf (new_pool 1)
  ∧ AssignEnemyUnit 0 1 (new_pool 1)
    = Ok (Some 0%nat) (state_after [CallAssignEnemyUnit 0 1] (new_pool 1))
  ∧ shapeOps (state_after
      [CallAssignEnemyUnit 0 1; CallClearUnit 0; CallAssignEnemyUnit 0 2] (new_pool 1))
    = shapeOps (state_after [CallAssignEnemyUnit 0 1; CallClearUnit 0] (new_pool 1))
  ∧ shapeOps (state_after
      [CallAssignEnemyUnit 0 1; CallClearUnit 0; CallAssignEnemyUnit 0 2;
       CallClearUnit 0; CallAssignEnemyUnit 1 3] (new_pool 1))
    = shapeOps (state_after
        [CallAssignEnemyUnit 0 1; CallClearUnit 0; CallAssignEnemyUnit 0 2;
         CallClearUnit 0] (new_pool 1))
      ++ [RemoveShape 0%nat; AddShape 0%nat {| src := "models/enemy/orc.glb" |}].
Proof.
  assert (AssignEnemyUnit 0 1 (new_pool 1)
          = Ok (Some 0%nat) (state_after [CallAssignEnemyUnit 0 1] (new_pool 1)))
    as H1 by (vm_compute; reflexivity).
  assert (calls [CallClearUnit 0] (state_after [CallAssignEnemyUnit 0 1] (new_pool 1))
          = Ok [None] (state_after [CallAssignEnemyUnit 0 1; CallClearUnit 0] (new_pool 1)))
    as H2 by (vm_compute; reflexivity).
  assert (AssignEnemyUnit 0 2
            (state_after [CallAssignEnemyUnit 0 1; CallClearUnit 0] (new_pool 1))
          = Ok (Some 0%nat)
              (state_after
                 [CallAssignEnemyUnit 0 1; CallClearUnit 0; CallAssignEnemyUnit 0 2]
                 (new_pool 1)))
    as H3 by (vm_compute; reflexivity).
  assert (calls [CallClearUnit 0]
            (state_after
               [CallAssignEnemyUnit 0 1; CallClearUnit 0; CallAssignEnemyUnit 0 2]
               (new_pool 1))
          = Ok [None]
              (state_after
                 [CallAssignEnemyUnit 0 1; CallClearUnit 0; CallAssignEnemyUnit 0 2;
                  CallClearUnit 0] (new_pool 1)))
    as H4 by (vm_compute; reflexivity).
  assert (AssignEnemyUnit 1 3
            (state_after
               [CallAssignEnemyUnit 0 1; CallClearUnit 0; CallAssignEnemyUnit 0 2;
                CallClearUnit 0] (new_pool 1))
          = Ok (Some 0%nat)
              (state_after
                 [CallAssignEnemyUnit 0 1; CallClearUnit 0; CallAssignEnemyUnit 0 2;
                  CallClearUnit 0; CallAssignEnemyUnit 1 3] (new_pool 1)))
    as H5 by (vm_compute; reflexivity).
  assert (Some 0%nat ∉ [@None nat]) as Hnot
    by (intros [H|H]%elem_of_cons; [discriminate H|by apply elem_of_nil in H]).
  destruct (reassign_same_type_no_swap _ _ _ _ _ _ _ _ _ _
              (wf_new_pool 1) H1 H2 Hnot H3) as [Hsame Hswap].
  split; [apply wf_new_pool|]. split; [exact H1|]. split; [exact Hsame|].
  destruct (Hswap _ _ _ 1 3 _ H4 Hnot ltac:(discriminate) H5) as (sB & HsB & Hops).
  rewrite Hops. f_equal. f_equal. f_equal.
  vm_compute in HsB. injection HsB as <-. reflexivity.
Defined.

(** ** Filling the pool *)

Lemma alive_at_assign_result st r o o' ops x :
  wf st → 0 ≤ x < List_size (enemyList st) → objects st !! r = Some o →
  alive_at (assign_result r o' ops st) x
  = if decide (x = Z.of_nat r) then isAlive o' else alive_at st x.
Proof.
  intros Hwf Hx Ho. unfold alive_at. cbn.
  rewrite wf_getItem_in by done.
  case_decide as Hxr.
  - subst x. rewrite Nat2Z.id.
    by rewrite list_lookup_insert_eq by (by eapply lookup_lt_Some).
  - rewrite list_lookup_insert_ne by lia. done.
Qed.

Lemma free_run_all_free st :
  wf st → 0 < List_size (enemyList st) →
  Forall (λ o, isAlive o = false) (objects st) →
  free_run st (length (enemyList st)).
Proof.
  intros Hwf Hn Hall.
  assert (0 ≤ next_index (List_size (enemyList st)) (iterationIndex st)
          < List_size (enemyList st)) as Hnext.
  { apply next_index_in; [done|]. pose proof (wf_cursor _ Hwf). lia. }
  split.
  - intros j Hj. pose proof (scan_range _ Hn _ _ _ Hnext Hj) as Hrange.
    destruct (wf_objects_in _ _ Hwf Hrange) as (o & Ho & _).
    rewrite (alive_at_in _ _ _ Hwf Hrange Ho).
    by eapply (proj1 (Forall_lookup _ _) Hall).
  - intros j Hj Hnotin. exfalso. apply Hnotin.
    replace (length (enemyList st)) with (Z.to_nat (List_size (enemyList st)))
      by (unfold List_size; lia).
    by apply scan_complete.
Qed.

Lemma free_run_0_find st :
  wf st → 0 < List_size (enemyList st) → free_run st 0 →
  find (free_at st) (scan_order st) = None.
Proof.
  intros Hwf Hn [_ Halive]. apply find_free_None; [done..|].
  intros j Hj. apply Halive; [done|]. cbn. apply not_elem_of_nil.
Qed.

(** One more assignment into a pool that is being filled. *)
Lemma AssignEnemyUnit_fill_step st k t w :
  wf st → free_run st (S k) → Z.of_nat (S k) ≤ List_size (enemyList st) →
  is_Some (enemyModelDict st !! toString t) →
  ∃ r st',
    AssignEnemyUnit t w st = Ok (Some r) st'
    ∧ wf st' ∧ free_run st' k
    ∧ enemyList st' = enemyList st
    ∧ enemyModelDict st' = enemyModelDict st.
Proof.
  intros Hwf [Hfree Halive] Hk [s Hs].
  assert (0 < List_size (enemyList st)) as Hn by lia.
  assert (0 ≤ iterationIndex st < List_size (enemyList st)) as Hc
    by (pose proof (wf_cursor _ Hwf); lia).
  pose proof (next_index_in _ Hn _ Hc) as Hnext.
  set (n := List_size (enemyList st)) in *.
  set (j := next_index n (iterationIndex st)) in *.
  (* the first slot looked at is free *)
  assert (find (free_at st) (scan_order st) = Some j) as Hfind.
  { unfold scan_order. fold n. fold j.
    destruct (length (enemyList st)) as [|len] eqn:Hlen.
    { unfold n, List_size in Hn. lia. }
    cbn [scan find]. unfold free_at. rewrite Hfree; [done|].
    cbn [scan]. apply list_elem_of_here. }
  pose proof (GetEnemyUnit_scan _ Hwf Hn) as Hget. rewrite Hfind in Hget.
  set (st1 := set_iterationIndex j (set_iterationHalt (iterationIndex st) st)) in *.
  assert (wf st1) as Hwf1 by (by eapply wf_GetEnemyUnit_Some).
  destruct (wf_objects_in _ _ Hwf Hnext) as (o & Ho & Hidx).
  pose proof (AssignEnemyUnit_registered _ _ _ _ t w s Hget Ho Hs) as Hassign.
  eexists _, _. split; [exact Hassign|].
  split; [by eapply wf_assign_result|].
  split; [|done].
  (* the remaining free slots are the rest of the run *)
  assert (NoDup (scan n j (S k))) as Hnodup by (by apply scan_NoDup).
  cbn [scan] in Hnodup. apply NoDup_cons in Hnodup as [Hjnot _].
  split.
  - intros x Hx.
    change (x ∈ scan n (next_index n j) k) in Hx.
    assert (0 ≤ x < n) as Hxr
      by (eapply scan_range; [exact Hn| |exact Hx]; by apply next_index_in).
    rewrite (alive_at_assign_result st1 _ o) by done.
    rewrite decide_False.
    + apply Hfree. cbn [scan]. by apply list_elem_of_further.
    + intros ->. apply Hjnot. by rewrite Z2Nat.id in Hx by lia.
  - intros x Hxr Hxnot.
    change (0 ≤ x < n) in Hxr.
    change (x ∉ scan n (next_index n j) k) in Hxnot.
    rewrite (alive_at_assign_result st1 _ o) by done.
    case_decide as Hxj; [done|].
    apply Halive; [done|]. cbn [scan].
    apply not_elem_of_cons. split; [lia|done].
Qed.

Lemma AssignEnemyUnits_fill args : ∀ st,
  wf st → free_run st (length args) →
  Z.of_nat (length args) ≤ List_size (enemyList st) →
  Forall (λ a, is_Some (enemyModelDict st !! toString a.1)) args →
  ∃ rs st',
    AssignEnemyUnits args st = Ok (Some <$> rs) st'
    ∧ length rs = length args
    ∧ wf st' ∧ free_run st' 0 ∧ enemyList st' = enemyList st.
Proof.
  induction args as [|[t w] args IH]; intros st Hwf Hrun Hlen Hreg.
  { exists [], st. by split_and!. }
  apply Forall_cons in Hreg as [Ht Hreg].
  destruct (AssignEnemyUnit_fill_step _ _ t w Hwf Hrun Hlen Ht)
    as (r & st1 & Hassign & Hwf1 & Hrun1 & Hlist1 & Hmd1).
  destruct (IH st1 Hwf1 Hrun1) as (rs & st' & Hrest & Hlen' & Hwf' & Hrun' & Hlist').
  { rewrite Hlist1. cbn [length] in Hlen. lia. }
  { by rewrite Hmd1. }
  exists (r :: rs), st'. split_and!; [|cbn; lia|done|done|congruence].
  cbn [AssignEnemyUnits]. mstep Hassign. by mstep Hrest.
Qed.

(** Claim C3, as the code has it: in a pool of [N] slots, [N] at least 1,
    with every unit free, [N] calls of [AssignEnemyUnit] in a row, each with
    a registered type, all return a unit, and the call after them returns
    [null]. *)
Theorem AssignEnemyUnits_fill_then_null st args t w :
  wf st → enemyList st ≠ [] →
  Forall (λ o, isAlive o = false) (objects st) →
  length args = length (enemyList st) →
  Forall (λ a, is_Some (enemyModelDict st !! toString a.1)) args →
  ∃ rs st',
    AssignEnemyUnits args st = Ok (Some <$> rs) st'
    ∧ length rs = length (enemyList st)
    ∧ ∃ st'', AssignEnemyUnit t w st' = Ok None st''.
Proof.
  intros Hwf Hne Hall Hlen Hreg.
  assert (0 < List_size (enemyList st)) as Hn.
  { unfold List_size. destruct (enemyList st); [done|cbn; lia]. }
  destruct (AssignEnemyUnits_fill args st Hwf) as (rs & st' & Hrun & Hlen' & Hwf' & Hrun' & Hlist').
  { rewrite Hlen. by apply free_run_all_free. }
  { unfold List_size. lia. }
  { done. }
  exists rs, st'. split_and!; [done|congruence|].
  eexists. apply AssignEnemyUnit_null.
  rewrite GetEnemyUnit_scan; [|done|by rewrite Hlist'].
  rewrite free_run_0_find; [done|done| |done]. by rewrite Hlist'.
Qed.

(** The pool right after [Initialize] is such a pool. *)
Lemma Initialize_all_free st st1 :
  wf st → Initialize st = Ok tt st1 →
  wf st1 ∧ Forall (λ o, isAlive o = false) (objects st1)
  ∧ enemySizeCur st1 = 0.
Proof.
  intros Hwf Hinit. rewrite Initialize_eq in Hinit by done. injection Hinit as <-.
  split_and!.
  - by apply wf_all_cleared, wf_with_new_units.
  - cbn. apply Forall_fmap, Forall_true. done.
  - done.
Qed.

Lemma AssignEnemyUnits_fill_then_null_witness :
  wf (new_pool 3)
  ∧ length (enemyList (new_pool 3)) = 3%nat
  ∧ ∃ rs st',
      AssignEnemyUnits [(0, 1); (1, 1); (0, 2)] (new_pool 3) = Ok (Some <$> rs) st'
      ∧ length rs = 3%nat
      ∧ ∃ st'', AssignEnemyUnit 1 2 st' = Ok None st''.
Proof.
  split; [apply wf_new_pool|]. split; [vm_compute; reflexivity|].
  destruct (AssignEnemyUnits_fill_then_null (new_pool 3) [(0, 1); (1, 1); (0, 2)] 1 2)
    as (rs & st' & Hrun & Hlen & Hnull).
  - apply wf_new_pool.
  - vm_compute. discriminate.
  - vm_compute. repeat constructor.
  - vm_compute. reflexivity.
  - repeat constructor; vm_compute; eexists; reflexivity.
  - exists rs, st'. split; [exact Hrun|]. split; [|exact Hnull].
    rewrite Hlen. vm_compute. reflexivity.
Defined.

(** Claim C3 as stated, for every capacity [N] and any types, fails in two
    ways. With [N] = 0 the pool is initialised, all its units are free, none
    existing, the 0 calls succeed, and the call after them throws instead of
    returning [null]. With [N] = 1 and a type that has no model, the first
    call throws on the lookup in the model cache instead of returning the
    free unit. *)
Lemma AssignEnemyUnits_not_for_every_pool :
  (wf (new_pool 0)
   ∧ length (enemyList (new_pool 0)) = 0%nat
   ∧ Forall (λ o, isAlive o = false) (objects (new_pool 0))
   ∧ AssignEnemyUnits [] (new_pool 0) = Ok [] (new_pool 0)
   ∧ AssignEnemyUnit 0 1 (new_pool 0) = Throw OutOfRangeError (new_pool 0))
  ∧ (wf (new_pool 1)
     ∧ length (enemyList (new_pool 1)) = 1%nat
     ∧ Forall (λ o, isAlive o = false) (objects (new_pool 1))
     ∧ enemyModelDict (new_pool 1) !! toString 7 = None
     ∧ AssignEnemyUnit 7 1 (new_pool 1)
       = Throw NotFoundError (state_after [CallAssignEnemyUnit 7 1] (new_pool 1))).
Proof.
  split.
  - split; [apply wf_new_pool|]. split; [vm_compute; reflexivity|].
    split; [vm_compute; constructor|]. split; vm_compute; reflexivity.
  - split; [apply wf_new_pool|]. split; [vm_compute; reflexivity|].
    split; [vm_compute; repeat constructor|]. split; vm_compute; reflexivity.
Qed.

(** * Further properties *)

(** ** The model cache the constructor builds *)

Lemma constructor_models_lookup data : ∀ i0 m k,
  constructor_models data i0 m !! toString k
  = if bool_decide (i0 ≤ k < i0 + Z.of_nat (length data))
    then model_of <$> data !! Z.to_nat (k - i0)
    else m !! toString k.
Proof.
  induction data as [|d data IH]; intros i0 m k.
  { cbn. by rewrite bool_decide_false by lia. }
  cbn [constructor_models length]. rewrite IH.
  destruct (decide (k = i0)) as [->|Hne].
  - rewrite bool_decide_false by lia. rewrite lookup_insert_eq.
    rewrite bool_decide_true by lia. by rewrite Z.sub_diag.
  - rewrite lookup_insert_ne by (intros ?%(inj toString); done).
    repeat case_bool_decide; try lia; [|done].
    replace (Z.to_nat (k - i0)) with (S (Z.to_nat (k - (i0 + 1)))) by lia.
    done.
Qed.

(** Property X1.
    The model cache of a new manager holds, under the key [i.toString()],
    the model of row [i] of the archetype table, loaded from
    ["models/enemy/" + Path + ".glb"], and nothing under the key of any
    other integer. *)
Theorem constructor_model_cache EnemyData k :
  enemyModelDict (constructor EnemyData) !! toString k
  = if bool_decide (0 ≤ k) then model_of <$> EnemyData !! Z.to_nat k else None.
Proof.
  cbn. rewrite constructor_models_lookup, lookup_empty, Z.sub_0_r.
  repeat case_bool_decide; try lia; try done.
  symmetry. rewrite fmap_None. apply lookup_ge_None_2. lia.
Qed.

(** ** [AddEnemyUnit] *)

(** Property X2.
    [AddEnemyUnit] on a well-formed pool of [n] units returns and leaves a
    well-formed pool of [n + 1] units. The list at position [n] and the
    dictionary at key [n.toString()] give the same new unit, whose index is
    [n]; every earlier position and key gives the unit it gave before,
    unchanged; the cursor and the counters are as before. *)
Theorem AddEnemyUnit_registers st :
  wf st →
  ∃ st' r,
    AddEnemyUnit st = Ok tt st' ∧ wf st'
    ∧ List_size (enemyList st') = List_size (enemyList st) + 1
    ∧ enemyList_getItem (List_size (enemyList st)) st' = Ok r st'
    ∧ enemyDict_getItem (toString (List_size (enemyList st))) st' = Ok r st'
    ∧ objects st' !! r = Some (new_EnemyUnitObject (List_size (enemyList st)))
    ∧ (∀ i, 0 ≤ i < List_size (enemyList st) →
         enemyList_getItem i st' = Ok (Z.to_nat i) st'
         ∧ enemyDict_getItem (toString i) st' = Ok (Z.to_nat i) st'
         ∧ objects st' !! Z.to_nat i = objects st !! Z.to_nat i)
    ∧ iterationIndex st' = iterationIndex st
    ∧ iterationHalt st' = iterationHalt st
    ∧ enemySizeCur st' = enemySizeCur st
    ∧ enemySizeRemaining st' = enemySizeRemaining st
    ∧ enemySizeMax st' = enemySizeMax st
    ∧ enemyModelDict st' = enemyModelDict st
    ∧ shapeOps st' = shapeOps st.
Proof.
  intros Hwf. pose proof (wf_with_new_unit _ Hwf) as Hwf'.
  pose proof (with_new_unit_size st) as Hsize.
  pose proof (wf_length _ Hwf) as Hlen.
  exists (with_new_unit st), (length (objects st)).
  split; [done|]. split; [done|]. split; [done|].
  assert (Z.to_nat (List_size (enemyList st)) = length (objects st)) as Hr
    by (unfold List_size; lia).
  split_and!; try done.
  - rewrite enemyList_getItem_in by (done || unfold List_size in *; lia).
    by rewrite Hr.
  - rewrite enemyDict_getItem_in by (done || unfold List_size in *; lia).
    by rewrite Hr.
  - cbn. rewrite lookup_app_r by lia. by rewrite Nat.sub_diag.
  - intros i Hi. split_and!.
    + apply enemyList_getItem_in; [done|lia].
    + apply enemyDict_getItem_in; [done|lia].
    + cbn. apply lookup_app_l. unfold List_size in Hi. lia.
Qed.

Lemma AddEnemyUnit_registers_witness :
  wf (new_pool 2)
  ∧ ∃ st' r,
      AddEnemyUnit (new_pool 2) = Ok tt st'
      ∧ enemyList_getItem 2 st' = Ok r st'
      ∧ enemyDict_getItem "2" st' = Ok r st'.
Proof.
  split; [apply wf_new_pool|].
  destruct (AddEnemyUnit_registers _ (wf_new_pool 2))
    as (st' & r & Hadd & _ & _ & Hlist & Hdict & _).
  exists st', r. split; [exact Hadd|]. split; [exact Hlist|exact Hdict].
Defined.

(** ** [ClearUnits] *)

Lemma alive_count_all_cleared st : alive_count (all_cleared st) = 0.
Proof.
  unfold alive_count. cbn.
  induction (objects st) as [|o os IH]; [done|].
  cbn [fmap list_fmap]. rewrite filter_cons_False; [done|]. by cbn.
Qed.

(** Property X3.
    [ClearUnits] on a well-formed pool returns; every unit is then not
    alive and off the engine, with its other fields as before, both counters
    are 0, so that [enemySizeCur] is again the number of units alive, and the
    cursor and the collections are as before. *)
Theorem ClearUnits_frees_all st :
  wf st →
  ∃ st',
    ClearUnits st = Ok tt st' ∧ wf st'
    ∧ (∀ r o, objects st !! r = Some o → objects st' !! r = Some (cleared o))
    ∧ length (objects st') = length (objects st)
    ∧ Forall (λ o, isAlive o = false ∧ engineState o = false) (objects st')
    ∧ enemySizeCur st' = 0 ∧ enemySizeRemaining st' = 0
    ∧ alive_count st' = enemySizeCur st'
    ∧ iterationIndex st' = iterationIndex st
    ∧ iterationHalt st' = iterationHalt st
    ∧ enemySizeMax st' = enemySizeMax st
    ∧ enemyList st' = enemyList st ∧ enemyDict st' = enemyDict st
    ∧ enemyModelDict st' = enemyModelDict st
    ∧ shapeOps st' = shapeOps st.
Proof.
  intros Hwf. exists (all_cleared st). split_and!; try done.
  - by apply ClearUnits_eq.
  - by apply wf_all_cleared.
  - intros r o Ho. cbn. by rewrite list_lookup_fmap, Ho.
  - cbn. apply length_fmap.
  - cbn. apply Forall_fmap, Forall_true. done.
  - apply alive_count_all_cleared.
Qed.

Lemma ClearUnits_frees_all_witness :
  wf pool_free_alive
  ∧ alive_count pool_free_alive = 1 ∧ enemySizeCur pool_free_alive = 2
  ∧ ∃ st', ClearUnits pool_free_alive = Ok tt st'
         ∧ enemySizeCur st' = 0 ∧ alive_count st' = 0.
Proof.
  assert (wf pool_free_alive) as Hwf
    by (apply wf_state_after; [apply wf_new_pool|vm_compute; reflexivity]).
  split; [exact Hwf|]. split; [vm_compute; reflexivity|].
  split; [vm_compute; reflexivity|].
  destruct (ClearUnits_frees_all _ Hwf)
    as (st' & Hclear & _ & _ & _ & _ & Hcur & _ & Hcount & _).
  exists st'. split; [exact Hclear|]. split; [exact Hcur|].
  rewrite Hcount. exact Hcur.
Defined.

(** ** [Initialize] *)

Lemma with_new_units_new_objects k : ∀ st r,
  wf st → (length (objects st) ≤ r < length (objects st) + k)%nat →
  objects (with_new_units k st) !! r = Some (new_EnemyUnitObject (Z.of_nat r)).
Proof.
  induction k as [|k IH]; intros st r Hwf Hr; [lia|].
  cbn [with_new_units].
  pose proof (wf_with_new_units k _ Hwf) as Hwfk.
  pose proof (wf_length _ Hwfk) as Hlen.
  pose proof (with_new_units_length k st) as Hlenk.
  cbn. destruct (decide (r < length (objects st) + k)%nat) as [Hlt|Hge].
  - rewrite lookup_app_l by lia. apply IH; [done|lia].
  - rewrite lookup_app_r by lia.
    replace (r - length (objects (with_new_units k st)))%nat with 0%nat by lia.
    cbn. do 2 f_equal. unfold List_size. lia.
Qed.

(** Property X4.
    [Initialize] on a well-formed pool returns (its loop ends, nothing
    throws). The pool then has [enemySizeMax] units, or as many as it had if
    that was more; every unit is not alive and off the engine; both counters
    are 0. The units that existed keep their index, type, wave and shape, the
    units created are new ones indexed by their position, and the cursor is
    as before. *)
Theorem Initialize_prewarms st :
  wf st →
  ∃ st',
    Initialize st = Ok tt st' ∧ wf st'
    ∧ List_size (enemyList st')
      = Z.max (List_size (enemyList st)) (enemySizeMax st)
    ∧ Forall (λ o, isAlive o = false ∧ engineState o = false) (objects st')
    ∧ enemySizeCur st' = 0 ∧ enemySizeRemaining st' = 0
    ∧ (∀ r o, objects st !! r = Some o → objects st' !! r = Some (cleared o))
    ∧ (∀ r, (length (objects st) ≤ r < length (objects st'))%nat →
            objects st' !! r = Some (new_EnemyUnitObject (Z.of_nat r)))
    ∧ iterationIndex st' = iterationIndex st
    ∧ iterationHalt st' = iterationHalt st
    ∧ enemySizeMax st' = enemySizeMax st
    ∧ enemyModelDict st' = enemyModelDict st
    ∧ shapeOps st' = shapeOps st.
Proof.
  intros Hwf.
  exists (all_cleared (with_new_units (missing_units st) st)).
  split_and!.
  - by apply Initialize_eq.
  - by apply wf_all_cleared, wf_with_new_units.
  - cbn. rewrite with_new_units_size. unfold missing_units. lia.
  - cbn. apply Forall_fmap, Forall_true. done.
  - done.
  - done.
  - intros r o Ho. cbn. rewrite list_lookup_fmap.
    rewrite with_new_units_objects by eauto. by rewrite Ho.
  - intros r. cbn. rewrite length_fmap, with_new_units_length. intros Hr.
    rewrite list_lookup_fmap, with_new_units_new_objects by done. done.
  - cbn. clear Hwf. induction (missing_units st) as [|k IH]; [done|].
    cbn [with_new_units]. by rewrite <- IH.
  - cbn. clear Hwf. induction (missing_units st) as [|k IH]; [done|].
    cbn [with_new_units]. by rewrite <- IH.
  - cbn. apply with_new_units_enemySizeMax.
  - cbn. apply with_new_units_enemyModelDict.
  - cbn. clear Hwf. induction (missing_units st) as [|k IH]; [done|].
    cbn [with_new_units]. by rewrite <- IH.
Qed.

Lemma Initialize_prewarms_witness :
  wf pool_free_alive
  ∧ ∃ st', Initialize pool_free_alive = Ok tt st'
         ∧ List_size (enemyList st') = 2
         ∧ enemySizeCur st' = 0.
Proof.
  assert (wf pool_free_alive) as Hwf
    by (apply wf_state_after; [apply wf_new_pool|vm_compute; reflexivity]).
  split; [exact Hwf|].
  destruct (Initialize_prewarms _ Hwf) as (st' & Hinit & _ & Hsize & _ & Hcur & _).
  exists st'. split; [exact Hinit|]. split; [|exact Hcur].
  rewrite Hsize. vm_compute. reflexivity.
Defined.

(** ** What [GetEnemyUnit] writes *)

Lemma forget_cursor_set_iterationIndex i st :
  forget_cursor (set_iterationIndex i st) = forget_cursor st.
Proof. done. Qed.

Lemma forget_cursor_set_iterationHalt i st :
  forget_cursor (set_iterationHalt i st) = forget_cursor st.
Proof. done. Qed.

Lemma GetEnemyUnit_while_frame fuel : ∀ st st',
  outcome_state (GetEnemyUnit_while fuel st) = Some st' →
  forget_cursor st' = forget_cursor st.
Proof.
  induction fuel as [|fuel IH]; intros st st'; [done|].
  cbn [GetEnemyUnit_while]. rewrite bind_gets.
  unfold mbind at 1, M_bind at 1, enemyList_getItem at 1.
  destruct (List_getItem (enemyList st) (iterationIndex st)) as [r|];
    [|by intros [= <-]].
  unfold mbind at 1, M_bind at 1, deref at 1.
  destruct (objects st !! r) as [o|]; [|by intros [= <-]].
  destruct (isAlive o); cbn [negb].
  - rewrite bind_gets. case_bool_decide as Hhalt; [by intros [= <-]|].
    rewrite (bind_Ok _ _ _ _ _ (push_next_index_eq st)).
    intros Hst%IH. by rewrite Hst.
  - unfold mbind, M_bind, enemyList_getItem.
    destruct (List_getItem (enemyList st) (iterationIndex st));
      by intros [= <-].
Qed.

Lemma GetEnemyUnit_frame st st' :
  outcome_state (GetEnemyUnit st) = Some st' →
  forget_cursor st' = forget_cursor st.
Proof.
  unfold GetEnemyUnit, GetEnemyUnit_fuel. rewrite bind_modify.
  rewrite (bind_Ok _ _ _ _ _ (push_next_index_eq _)).
  intros H%GetEnemyUnit_while_frame.
  by rewrite forget_cursor_set_iterationIndex, forget_cursor_set_iterationHalt in H.
Qed.

(** Property X5.
    Whatever the state and however the call ends, [GetEnemyUnit] writes
    nothing but the cursor fields [iterationIndex] and [iterationHalt]: the
    units, the counters, the collections and the log of component calls are
    those it was called with. *)
Theorem GetEnemyUnit_writes_cursor_only st st' :
  outcome_state (GetEnemyUnit st) = Some st' →
  objects st' = objects st
  ∧ enemySizeCur st' = enemySizeCur st
  ∧ enemySizeRemaining st' = enemySizeRemaining st
  ∧ enemySizeMax st' = enemySizeMax st
  ∧ enemyList st' = enemyList st
  ∧ enemyDict st' = enemyDict st
  ∧ enemyModelDict st' = enemyModelDict st
  ∧ shapeOps st' = shapeOps st.
Proof.
  intros H%GetEnemyUnit_frame. split_and!.
  - exact (f_equal objects H).
  - exact (f_equal enemySizeCur H).
  - exact (f_equal enemySizeRemaining H).
  - exact (f_equal enemySizeMax H).
  - exact (f_equal enemyList H).
  - exact (f_equal enemyDict H).
  - exact (f_equal enemyModelDict H).
  - exact (f_equal shapeOps H).
Qed.

Lemma GetEnemyUnit_writes_cursor_only_witness :
  outcome_state (GetEnemyUnit pool_free_alive)
  = Some (set_iterationIndex 0 (set_iterationHalt 0 pool_free_alive))
  ∧ objects (set_iterationIndex 0 (set_iterationHalt 0 pool_free_alive))
    = objects pool_free_alive.
Proof.
  assert (outcome_state (GetEnemyUnit pool_free_alive)
          = Some (set_iterationIndex 0 (set_iterationHalt 0 pool_free_alive)))
    as Hget by (vm_compute; reflexivity).
  split; [exact Hget|].
  exact (proj1 (GetEnemyUnit_writes_cursor_only _ _ Hget)).
Defined.

(** ** An assignment that finds no model *)

Lemma AssignEnemyUnit_unregistered_state st st1 r o t w :
  GetEnemyUnit st = Ok (Some r) st1 → objects st1 !! r = Some o →
  enemyModelDict st1 !! toString t = None →
  shape o = None ∨ type o ≠ t →
  AssignEnemyUnit t w st = Throw NotFoundError (failed_assign_result r o st1).
Proof.
  intros Hget Ho Hm Hcase. unfold AssignEnemyUnit. mstep Hget.
  destruct st1 as [idx halt mx cur rem lst dct mdl objs ops]. cbn in Ho, Hm.
  assert (∀ x, <[r:=x]> objs !! r = Some x) as Hins
    by (intros; apply list_lookup_insert_eq; by eapply lookup_lt_Some).
  rewrite (step_SetEngineState _ _ _ o) by exact Ho. flat.
  erewrite step_hasComponent by apply Hins. unit_fields.
  unfold failed_assign_result.
  cbn [iterationIndex iterationHalt enemySizeMax enemySizeCur
       enemySizeRemaining enemyList enemyDict enemyModelDict objects shapeOps].
  unit_fields.
  destruct (shape o) as [s0|] eqn:Hs.
  - destruct Hcase as [?|Ht]; [done|].
    rewrite bool_decide_true by eauto.
    rewrite bind_assoc. erewrite step_deref by apply Hins. unit_fields.
    rewrite bool_decide_false by done. cbn [negb].
    erewrite step_removeComponent by apply Hins. flat.
    erewrite step_hasComponent by apply Hins. unit_fields.
    rewrite bool_decide_false by (by intros [? ?]). cbn [negb].
    rewrite bind_assoc. mstep_no_model Hm. done.
  - rewrite bool_decide_false by (by intros [? ?]). rewrite bind_ret.
    erewrite step_hasComponent by apply Hins. unit_fields.
    rewrite bool_decide_false by (by intros [? ?]). cbn [negb].
    rewrite bind_assoc. mstep_no_model Hm. by rewrite app_nil_r.
Qed.

Lemma AssignEnemyUnit_Throw_inv st t w e st' :
  wf st → AssignEnemyUnit t w st = Throw e st' →
  (enemyList st = [] ∧ e = OutOfRangeError ∧ wf st'
   ∧ forget_cursor st' = forget_cursor st)
  ∨ (∃ st1 r o,
       GetEnemyUnit st = Ok (Some r) st1 ∧ objects st1 !! r = Some o
       ∧ isAlive o = false
       ∧ enemyModelDict st !! toString t = None
       ∧ (shape o = None ∨ type o ≠ t)
       ∧ e = NotFoundError ∧ st' = failed_assign_result r o st1).
Proof.
  intros Hwf Hassign.
  destruct (GetEnemyUnit st) as [[r|] st1|e1 st1|] eqn:Hget.
  - right.
    destruct (GetEnemyUnit_Some_inv _ _ _ Hwf Hget) as (j & Hj & -> & _ & Hfree & Hst1).
    destruct (wf_objects_in _ _ Hwf Hj) as (o & Ho & _).
    assert (isAlive o = false) as Halive.
    { unfold free_at in Hfree. rewrite (alive_at_in _ _ _ Hwf Hj Ho) in Hfree.
      by destruct (isAlive o). }
    assert (objects st1 !! Z.to_nat j = Some o) as Ho1 by (by rewrite Hst1).
    assert (enemyModelDict st1 = enemyModelDict st) as Hmd by (by rewrite Hst1).
    destruct (enemyModelDict st !! toString t) as [s|] eqn:Hm.
    { rewrite <- Hmd in Hm.
      by rewrite (AssignEnemyUnit_registered _ _ _ _ _ w _ Hget Ho1 Hm) in Hassign. }
    assert (shape o = None ∨ type o ≠ t) as Hcase.
    { destruct (shape o) as [s0|] eqn:Hs; [|by left].
      destruct (decide (type o = t)) as [Ht|Ht]; [|by right].
      by rewrite (AssignEnemyUnit_same_type _ _ _ _ _ w _ Hget Ho1 Hs Ht) in Hassign. }
    rewrite <- Hmd in Hm.
    rewrite (AssignEnemyUnit_unregistered_state _ _ _ _ t w Hget Ho1 Hm Hcase)
      in Hassign.
    injection Hassign as <- <-.
    exists st1, (Z.to_nat j), o. rewrite Hmd in Hm. by split_and!.
  - by rewrite (AssignEnemyUnit_null _ _ _ _ Hget) in Hassign.
  - left. unfold AssignEnemyUnit in Hassign.
    rewrite (bind_Throw _ _ _ _ _ Hget) in Hassign. injection Hassign as <- <-.
    destruct (decide (0 < List_size (enemyList st))) as [Hn|Hn].
    { rewrite GetEnemyUnit_scan in Hget by done. by destruct (find _ _). }
    assert (enemyList st = []) as Hnil.
    { unfold List_size in Hn. destruct (enemyList st); [done|cbn in Hn; lia]. }
    rewrite (GetEnemyUnit_no_slot _ Hnil) in Hget. injection Hget as <- <-.
    split_and!; [done|done| |done].
    apply wf_set_iterationIndex; [by apply wf_set_iterationHalt|].
    pose proof (wf_cursor _ Hwf) as Hc.
    change (enemyList (set_iterationHalt _ st)) with (enemyList st).
    rewrite Hnil in *. unfold List_size in *. cbn in *.
    unfold next_index. case_bool_decide; lia.
  - by destruct (GetEnemyUnit_fuel_enough st _ Hwf (le_n _)).
Qed.

Lemma AssignEnemyUnit_ends st t w : wf st → AssignEnemyUnit t w st ≠ Diverge.
Proof.
  intros Hwf Hdiv.
  destruct (GetEnemyUnit st) as [[r|] st1|e1 st1|] eqn:Hget.
  - destruct (GetEnemyUnit_Some_inv _ _ _ Hwf Hget) as (j & Hj & -> & _ & _ & Hst1).
    destruct (wf_objects_in _ _ Hwf Hj) as (o & Ho & _).
    assert (objects st1 !! Z.to_nat j = Some o) as Ho1 by (by rewrite Hst1).
    destruct (enemyModelDict st1 !! toString t) as [s|] eqn:Hm.
    { by rewrite (AssignEnemyUnit_registered _ _ _ _ _ w _ Hget Ho1 Hm) in Hdiv. }
    destruct (shape o) as [s0|] eqn:Hs.
    + destruct (decide (type o = t)) as [Ht|Ht].
      * by rewrite (AssignEnemyUnit_same_type _ _ _ _ _ w _ Hget Ho1 Hs Ht) in Hdiv.
      * by rewrite (AssignEnemyUnit_unregistered_state _ _ _ _ t w Hget Ho1 Hm)
          in Hdiv by (by right).
    + by rewrite (AssignEnemyUnit_unregistered_state _ _ _ _ t w Hget Ho1 Hm)
        in Hdiv by (by left).
  - by rewrite (AssignEnemyUnit_null _ _ _ _ Hget) in Hdiv.
  - unfold AssignEnemyUnit in Hdiv. by rewrite (bind_Throw _ _ _ _ _ Hget) in Hdiv.
  - by destruct (GetEnemyUnit_fuel_enough st _ Hwf (le_n _)).
Qed.

(** ** What every call keeps *)

Lemma shape_matches_type_insert st st' r o o' :
  shape_matches_type st → objects st !! r = Some o →
  objects st' = <[r := o']> (objects st) →
  enemyModelDict st' = enemyModelDict st →
  (∀ s, shape o' = Some s → enemyModelDict st !! toString (type o') = Some s) →
  shape_matches_type st'.
Proof.
  intros Hsm Ho Hobjs Hmd Hnew r' o'' s Hr' Hs. rewrite Hmd. rewrite Hobjs in Hr'.
  destruct (decide (r = r')) as [<-|Hne].
  - rewrite list_lookup_insert_eq in Hr' by (by eapply lookup_lt_Some).
    injection Hr' as <-. by apply Hnew.
  - rewrite list_lookup_insert_ne in Hr' by done. by eapply Hsm.
Qed.

Lemma alive_count_insert st st' r o o' :
  objects st !! r = Some o → objects st' = <[r := o']> (objects st) →
  alive_count st' = alive_count st - Z.b2z (isAlive o) + Z.b2z (isAlive o').
Proof.
  intros Ho Hobjs. unfold alive_count. rewrite Hobjs.
  by apply alive_length_insert.
Qed.

Lemma pool_invariant_same_units st st' :
  pool_invariant st → wf st' → objects st' = objects st →
  enemyModelDict st' = enemyModelDict st → enemySizeCur st' = enemySizeCur st →
  pool_invariant st'.
Proof.
  intros (_ & Hsm & Hcount) Hwf' Hobjs Hmd Hcur. split_and!; [done| |].
  - intros r o s. rewrite Hobjs, Hmd. apply Hsm.
  - unfold alive_count in *. rewrite Hobjs, Hcur. done.
Qed.

Lemma pool_invariant_put_obj st r o o' :
  pool_invariant st → objects st !! r = Some o →
  index o' = index o → type o' = type o → shape o' = shape o →
  (isAlive o' = true → isAlive o = true) →
  pool_invariant (put_obj r o' st).
Proof.
  intros (Hwf & Hsm & Hcount) Ho Hidx Ht Hs Halive. split_and!.
  - by eapply wf_put_obj.
  - eapply (shape_matches_type_insert st); [done|done|done|done|].
    intros s Hs'. rewrite Ht. eapply Hsm; [done|]. by rewrite <- Hs.
  - rewrite (alive_count_insert st _ r o o') by done.
    change (enemySizeCur (put_obj r o' st)) with (enemySizeCur st).
    destruct (isAlive o'), (isAlive o); cbn;
      first [lia | by specialize (Halive eq_refl)].
Qed.

Lemma wf_failed_assign_result st r o :
  wf st → objects st !! r = Some o → wf (failed_assign_result r o st).
Proof.
  intros Hwf Ho.
  destruct (wf_put_obj _ _ _ (set_shape None (set_engineState false o)) Hwf Ho eq_refl)
    as [? ? ? ?].
  by constructor.
Qed.

Lemma pool_invariant_failed_assign st r o :
  pool_invariant st → objects st !! r = Some o →
  pool_invariant (failed_assign_result r o st).
Proof.
  intros (Hwf & Hsm & Hcount) Ho. split_and!.
  - by apply wf_failed_assign_result.
  - by eapply (shape_matches_type_insert st).
  - rewrite (alive_count_insert st _ r o (set_shape None (set_engineState false o)))
      by done.
    change (enemySizeCur (failed_assign_result r o st)) with (enemySizeCur st).
    cbn. lia.
Qed.

Lemma pool_invariant_assign_result st r o t w s :
  pool_invariant st → objects st !! r = Some o → isAlive o = false →
  enemyModelDict st !! toString t = Some s ∨ shape o = Some s ∧ type o = t →
  pool_invariant
    (assign_result r (assigned t w (Some (swap_shape o t s)) o)
       (swap_ops r o t s) st).
Proof.
  intros (Hwf & Hsm & Hcount) Ho Halive Hcase. split_and!.
  - by eapply wf_assign_result.
  - eapply (shape_matches_type_insert st); [done|done|done|done|].
    cbn. intros s' [= <-]. unfold swap_shape.
    destruct (shape o) as [s0|] eqn:Hs.
    + case_bool_decide as Ht.
      * rewrite <- Ht. by eapply Hsm.
      * by destruct Hcase as [?|[_ ?]].
    + by destruct Hcase as [?|[? _]].
  - rewrite (alive_count_insert st _ r o (assigned t w (Some (swap_shape o t s)) o))
      by done.
    rewrite Halive. cbn. lia.
Qed.

Lemma pool_invariant_all_cleared st :
  wf st → shape_matches_type st → pool_invariant (all_cleared st).
Proof.
  intros Hwf Hsm. split_and!.
  - by apply wf_all_cleared.
  - intros r o s. cbn. rewrite list_lookup_fmap.
    destruct (objects st !! r) as [o0|] eqn:Ho; [|done].
    cbn. intros [= <-] Hs. by apply (Hsm r o0 s).
  - by rewrite alive_count_all_cleared.
Qed.

Lemma shape_matches_type_with_new_units k st :
  shape_matches_type st → shape_matches_type (with_new_units k st).
Proof.
  intros Hsm. induction k as [|k IH]; [done|].
  cbn [with_new_units]. intros r o s. cbn.
  rewrite lookup_app_Some. intros [Ho|[_ Ho]] Hs; [by apply (IH r o s)|].
  apply list_lookup_singleton_Some in Ho as [_ <-]. done.
Qed.

(** A call on a state that satisfies the invariant ends, and the state it
    ends in, by return or by throw, satisfies the invariant. *)
Lemma call_pool_invariant c st :
  pool_invariant st →
  ∃ st', outcome_state (call c st) = Some st' ∧ pool_invariant st'.
Proof.
  intros Hinv. pose proof Hinv as (Hwf & Hsm & Hcount).
  destruct c as [t w|i d|i| |]; cbn [call].
  - (* AssignEnemyUnit *)
    destruct (AssignEnemyUnit t w st) as [[r|] st'|e st'|] eqn:Hassign.
    + exists st'. split; [done|].
      destruct (AssignEnemyUnit_Some_inv _ _ _ _ _ Hwf Hassign)
        as (st1 & o & s & Hget & Ho & Halive & Hcase & ->).
      destruct (GetEnemyUnit_Some_inv _ _ _ Hwf Hget) as (j & _ & _ & _ & _ & Hst1).
      apply pool_invariant_assign_result; [|done|done|by rewrite Hst1].
      apply (pool_invariant_same_units st); [done| |by rewrite Hst1..].
      by eapply wf_GetEnemyUnit_Some.
    + exists st'. split; [done|].
      apply AssignEnemyUnit_None_inv in Hassign.
      destruct (GetEnemyUnit_None_inv _ _ Hwf Hassign) as (_ & _ & ->).
      apply (pool_invariant_same_units st); [done| |done..].
      by apply wf_set_iterationHalt.
    + exists st'. split; [done|].
      destruct (AssignEnemyUnit_Throw_inv _ _ _ _ _ Hwf Hassign)
        as [(_ & _ & Hwf' & Hsame)|(st1 & r & o & Hget & Ho & _ & _ & _ & _ & ->)].
      * apply (pool_invariant_same_units st); [done|done|..].
        -- exact (f_equal objects Hsame).
        -- exact (f_equal enemyModelDict Hsame).
        -- exact (f_equal enemySizeCur Hsame).
      * destruct (GetEnemyUnit_Some_inv _ _ _ Hwf Hget) as (j & _ & _ & _ & _ & Hst1).
        apply pool_invariant_failed_assign; [|done].
        apply (pool_invariant_same_units st); [done| |by rewrite Hst1..].
        by eapply wf_GetEnemyUnit_Some.
    + by destruct (AssignEnemyUnit_ends st t w Hwf).
  - (* DamageUnit *)
    destruct (decide (0 ≤ i < List_size (enemyList st))) as [Hi|Hi].
    + destruct (wf_objects_in _ _ Hwf Hi) as (o & Ho & _).
      rewrite (bind_Ok _ _ _ _ _ (DamageUnit_in _ _ d _ Hwf Hi Ho)).
      eexists. split; [done|]. by eapply pool_invariant_put_obj.
    + rewrite (bind_Throw _ _ _ _ _ (DamageUnit_out _ _ d Hwf Hi)).
      by exists st.
  - (* ClearUnit *)
    destruct (decide (0 ≤ i < List_size (enemyList st))) as [Hi|Hi].
    + destruct (wf_objects_in _ _ Hwf Hi) as (o & Ho & _).
      rewrite (bind_Ok _ _ _ _ _ (ClearUnit_in _ _ _ Hwf Hi Ho)).
      eexists. split; [done|]. by eapply pool_invariant_put_obj.
    + rewrite (bind_Throw _ _ _ _ _ (ClearUnit_out _ _ Hwf Hi)).
      by exists st.
  - (* ClearUnits *)
    rewrite (bind_Ok _ _ _ _ _ (ClearUnits_eq _ Hwf)).
    eexists. split; [done|]. by apply pool_invariant_all_cleared.
  - (* Initialize *)
    rewrite (bind_Ok _ _ _ _ _ (Initialize_eq _ Hwf)).
    eexists. split; [done|]. apply pool_invariant_all_cleared.
    + by apply wf_with_new_units.
    + by apply shape_matches_type_with_new_units.
Qed.

Lemma pool_invariant_constructor EnemyData : pool_invariant (constructor EnemyData).
Proof.
  split_and!; [apply wf_constructor| |done].
  intros r o s Hr. cbn in Hr. by rewrite lookup_nil in Hr.
Qed.

Lemma wf_GetEnemyUnit st st' :
  wf st → outcome_state (GetEnemyUnit st) = Some st' → wf st'.
Proof.
  intros Hwf Hout.
  destruct (GetEnemyUnit st) as [[r|] st1|e st1|] eqn:Hget; [| | |done];
    injection Hout as ->.
  - by eapply wf_GetEnemyUnit_Some.
  - by eapply wf_GetEnemyUnit_None.
  - destruct (decide (0 < List_size (enemyList st))) as [Hn|Hn].
    { rewrite GetEnemyUnit_scan in Hget by done. by destruct (find _ _). }
    assert (enemyList st = []) as Hnil.
    { unfold List_size in Hn. destruct (enemyList st); [done|cbn in Hn; lia]. }
    rewrite (GetEnemyUnit_no_slot _ Hnil) in Hget. injection Hget as <- <-.
    apply wf_set_iterationIndex; [by apply wf_set_iterationHalt|].
    pose proof (wf_cursor _ Hwf) as Hc.
    change (enemyList (set_iterationHalt _ st)) with (enemyList st).
    rewrite Hnil in *. unfold List_size in *. cbn in *.
    unfold next_index. case_bool_decide; lia.
Qed.

Lemma GetEnemyUnit_pool_invariant st :
  pool_invariant st →
  ∃ st', outcome_state (GetEnemyUnit st) = Some st' ∧ pool_invariant st'.
Proof.
  intros Hinv. pose proof Hinv as (Hwf & _).
  destruct (outcome_state (GetEnemyUnit st)) as [st'|] eqn:Hout.
  - exists st'. split; [done|].
    pose proof (GetEnemyUnit_frame _ _ Hout) as Hsame.
    apply (pool_invariant_same_units st); [done|by eapply wf_GetEnemyUnit|..].
    + exact (f_equal objects Hsame).
    + exact (f_equal enemyModelDict Hsame).
    + exact (f_equal enemySizeCur Hsame).
  - destruct (GetEnemyUnit_fuel_enough st _ Hwf (le_n _)) as [Hret _].
    by destruct (GetEnemyUnit st).
Qed.

Lemma pool_invariant_with_new_unit st :
  pool_invariant st → pool_invariant (with_new_unit st).
Proof.
  intros (Hwf & Hsm & Hcount). split_and!.
  - by apply wf_with_new_unit.
  - by apply (shape_matches_type_with_new_units 1).
  - unfold alive_count in *. cbn. rewrite filter_app, length_app.
    rewrite filter_cons_False by done. cbn. lia.
Qed.

Lemma reachable_pool_invariant EnemyData st :
  reachable EnemyData st → pool_invariant st.
Proof.
  induction 1 as [|c st st' _ IH Hout|st st' _ IH Hout|st st' _ IH Hout|n st _ IH].
  2-4: rename IH into IH'; pose proof IH' as IH.
  5: { apply (pool_invariant_same_units st); [done| |done..].
       apply wf_set_enemySizeMax. by destruct IH. }
  - apply pool_invariant_constructor.
  - destruct (call_pool_invariant c st IH) as (st'' & Hout' & Hinv).
    rewrite Hout in Hout'. by injection Hout' as <-.
  - destruct (GetEnemyUnit_pool_invariant st IH) as (st'' & Hout' & Hinv).
    rewrite Hout in Hout'. by injection Hout' as <-.
  - injection Hout as <-. by apply pool_invariant_with_new_unit.
Qed.

Lemma reachable_calls EnemyData cs : ∀ st rs st',
  reachable EnemyData st → calls cs st = Ok rs st' → reachable EnemyData st'.
Proof.
  induction cs as [|c cs IH]; intros st rs st' Hreach Hcalls.
  { by injection Hcalls as <- <-. }
  cbn [calls] in Hcalls.
  apply bind_inv_Ok in Hcalls as (a & st1 & Hcall & Hcalls).
  apply bind_inv_Ok in Hcalls as (rs' & st2 & Hrest & [= <- <-]).
  eapply IH; [|done]. eapply reachable_call; [done|]. by rewrite Hcall.
Qed.

Lemma reachable_state_after EnemyData cs st :
  reachable EnemyData st → returns (calls cs st) = true →
  reachable EnemyData (state_after cs st).
Proof.
  intros Hreach Hret. unfold state_after.
  destruct (calls cs st) as [rs st'| |] eqn:Hcalls; [|done..].
  by eapply reachable_calls.
Qed.

Lemma reachable_new_pool size_max : reachable example_data (new_pool size_max).
Proof.
  unfold new_pool. pose proof (wf_new_pool size_max) as _.
  assert (wf (set_enemySizeMax size_max (constructor example_data))) as Hwf
    by apply wf_set_enemySizeMax, wf_constructor.
  unfold state_after. cbn [calls call]. rewrite bind_assoc.
  rewrite (bind_Ok _ _ _ _ _ (Initialize_eq _ Hwf)). rewrite !bind_ret.
  cbn beta iota.
  eapply (reachable_call _ CallInitialize).
  - apply reachable_set_enemySizeMax, reachable_new.
  - cbn [call]. by rewrite (bind_Ok _ _ _ _ _ (Initialize_eq _ Hwf)).
Qed.

Lemma reachable_pool_free_alive : reachable example_data pool_free_alive.
Proof.
  apply reachable_state_after; [apply reachable_new_pool|].
  vm_compute. reflexivity.
Qed.

(** ** Invariants of the reachable states *)

(** Property X6.
    In every reachable state the two collections agree: looking a unit up
    by [index.toString()] in the dictionary gives what the list gives at
    that position, by return or by throw; the unit found at position [i] has
    index [i]; and the cursor is a position of the list (0 when the list is
    empty). *)
Theorem reachable_collections_agree EnemyData st :
  reachable EnemyData st →
  (∀ i, enemyDict_getItem (toString i) st = enemyList_getItem i st)
  ∧ (∀ i r, enemyList_getItem i st = Ok r st →
       ∃ o, objects st !! r = Some o ∧ index o = i)
  ∧ (∀ i, enemyList_getItem i st = Throw OutOfRangeError st
          ↔ ¬ (0 ≤ i < List_size (enemyList st)))
  ∧ 0 ≤ iterationIndex st < Z.max 1 (List_size (enemyList st)).
Proof.
  intros (Hwf & _)%reachable_pool_invariant.
  split; [|split; [|split; [|apply (wf_cursor _ Hwf)]]].
  - intros i. unfold enemyDict_getItem, enemyList_getItem.
    by rewrite (wf_dict _ Hwf).
  - intros i r Hget.
    destruct (decide (0 ≤ i < List_size (enemyList st))) as [Hi|Hi].
    + rewrite enemyList_getItem_in in Hget by done. injection Hget as <-.
      by apply wf_objects_in.
    + unfold enemyList_getItem in Hget. by rewrite wf_getItem_out in Hget.
  - intros i. split.
    + intros Hthrow Hi. by rewrite enemyList_getItem_in in Hthrow.
    + intros Hi. unfold enemyList_getItem. by rewrite wf_getItem_out.
Qed.

Lemma reachable_collections_agree_witness :
  reachable example_data pool_free_alive
  ∧ enemyDict_getItem (toString 1) pool_free_alive
    = enemyList_getItem 1 pool_free_alive
  ∧ enemyDict_getItem (toString (-1)) pool_free_alive
    = enemyList_getItem (-1) pool_free_alive.
Proof.
  split; [apply reachable_pool_free_alive|].
  destruct (reachable_collections_agree _ _ reachable_pool_free_alive) as (Hagree & _).
  split; [exact (Hagree 1)|exact (Hagree (-1))].
Defined.

(** Property X7.
    On a reachable state every method ends: each of the five calls,
    [GetEnemyUnit] and [AddEnemyUnit] returns or throws; the [while(true)]
    of [GetEnemyUnit] and the [while] of [Initialize] never run for ever. *)
Theorem reachable_methods_end EnemyData st :
  reachable EnemyData st →
  (∀ c, call c st ≠ Diverge)
  ∧ GetEnemyUnit st ≠ Diverge
  ∧ AddEnemyUnit st ≠ Diverge.
Proof.
  intros Hinv%reachable_pool_invariant. split_and!.
  - intros c Hdiv. destruct (call_pool_invariant c st Hinv) as (st' & Hout & _).
    by rewrite Hdiv in Hout.
  - intros Hdiv. destruct (GetEnemyUnit_pool_invariant st Hinv) as (st' & Hout & _).
    by rewrite Hdiv in Hout.
  - done.
Qed.

Lemma reachable_methods_end_witness :
  reachable example_data pool_free_alive
  ∧ call (CallAssignEnemyUnit 5 1) pool_free_alive ≠ Diverge
  ∧ GetEnemyUnit pool_free_alive ≠ Diverge.
Proof.
  split; [apply reachable_pool_free_alive|].
  destruct (reachable_methods_end _ _ reachable_pool_free_alive) as (Hcall & Hget & _).
  split; [exact (Hcall (CallAssignEnemyUnit 5 1))|exact Hget].
Defined.

Lemma reachable_played_pool : reachable example_data played_pool.
Proof.
  apply reachable_state_after; [apply reachable_new_pool|].
  vm_compute. reflexivity.
Qed.

Lemma call_Throw_enemyModelDict c st e st' :
  wf st → call c st = Throw e st' → enemyModelDict st' = enemyModelDict st.
Proof.
  intros Hwf Hcall. destruct c as [t w|i d|i| |]; cbn [call] in Hcall.
  - destruct (AssignEnemyUnit_Throw_inv _ _ _ _ _ Hwf Hcall)
      as [(_ & _ & _ & Hsame)|(st1 & r & o & Hget & _ & _ & _ & _ & _ & ->)].
    + exact (f_equal enemyModelDict Hsame).
    + by destruct (GetEnemyUnit_Some_inv _ _ _ Hwf Hget) as (j & _ & _ & _ & _ & ->).
  - destruct (decide (0 ≤ i < List_size (enemyList st))) as [Hi|Hi].
    + destruct (wf_objects_in _ _ Hwf Hi) as (o & Ho & _).
      by rewrite (bind_Ok _ _ _ _ _ (DamageUnit_in _ _ d _ Hwf Hi Ho)) in Hcall.
    + rewrite (bind_Throw _ _ _ _ _ (DamageUnit_out _ _ d Hwf Hi)) in Hcall.
      by injection Hcall as <- <-.
  - destruct (decide (0 ≤ i < List_size (enemyList st))) as [Hi|Hi].
    + destruct (wf_objects_in _ _ Hwf Hi) as (o & Ho & _).
      by rewrite (bind_Ok _ _ _ _ _ (ClearUnit_in _ _ _ Hwf Hi Ho)) in Hcall.
    + rewrite (bind_Throw _ _ _ _ _ (ClearUnit_out _ _ Hwf Hi)) in Hcall.
      by injection Hcall as <- <-.
  - by rewrite (bind_Ok _ _ _ _ _ (ClearUnits_eq _ Hwf)) in Hcall.
  - by rewrite (bind_Ok _ _ _ _ _ (Initialize_eq _ Hwf)) in Hcall.
Qed.

Lemma reachable_enemyModelDict EnemyData st :
  reachable EnemyData st →
  enemyModelDict st = enemyModelDict (constructor EnemyData).
Proof.
  induction 1 as [|c st st' Hreach IH Hout|st st' _ IH Hout|st st' _ IH Hout|n st _ IH];
    [done| | | |done].
  - apply reachable_pool_invariant in Hreach as (Hwf & _). rewrite <- IH.
    destruct (call c st) as [a st1|e st1|] eqn:Hcall; [| |done];
      injection Hout as ->.
    + by destruct (call_frame _ _ _ _ Hwf Hcall) as (_ & ? & _).
    + by eapply call_Throw_enemyModelDict.
  - rewrite <- IH. exact (f_equal enemyModelDict (GetEnemyUnit_frame _ _ Hout)).
  - by injection Hout as <-.
Qed.

(** Property X8.
    In every reachable state the model cache is the one the constructor
    built, and a unit that has a shape has the model of the archetype row
    its [type] names: skipping the shape change when the type is unchanged
    never leaves a unit with the model of another type. *)
Theorem reachable_shapes_match_types EnemyData st r o s :
  reachable EnemyData st →
  objects st !! r = Some o → shape o = Some s →
  enemyModelDict st !! toString (type o) = Some s
  ∧ 0 ≤ type o
  ∧ model_of <$> EnemyData !! Z.to_nat (type o) = Some s.
Proof.
  intros Hreach Ho Hs.
  pose proof (reachable_pool_invariant _ _ Hreach) as (_ & Hsm & _).
  pose proof (Hsm _ _ _ Ho Hs) as Hmodel. split; [done|].
  rewrite (reachable_enemyModelDict _ _ Hreach) in Hmodel. cbn in Hmodel.
  rewrite constructor_models_lookup, lookup_empty, Z.sub_0_r in Hmodel.
  case_bool_decide; [|done]. split; [lia|done].
Qed.

Lemma reachable_shapes_match_types_witness :
  reachable example_data played_pool
  ∧ ∃ o, objects played_pool !! 1%nat = Some o
       ∧ shape o = Some {| src := "models/enemy/goblin.glb" |}
       ∧ type o = 0 ∧ isAlive o = false
       ∧ model_of <$> example_data !! Z.to_nat (type o)
         = Some {| src := "models/enemy/goblin.glb" |}.
Proof.
  split; [apply reachable_played_pool|].
  destruct (objects played_pool !! 1%nat) as [o|] eqn:Ho;
    [|vm_compute in Ho; discriminate Ho].
  assert (shape o = Some {| src := "models/enemy/goblin.glb" |}) as Hs
    by (vm_compute in Ho; injection Ho as <-; reflexivity).
  exists o. split; [reflexivity|]. split; [exact Hs|].
  split; [vm_compute in Ho; injection Ho as <-; reflexivity|].
  split; [vm_compute in Ho; injection Ho as <-; reflexivity|].
  exact (proj2 (proj2 (reachable_shapes_match_types _ _ _ _ _
                         reachable_played_pool Ho Hs))).
Defined.

(** ** The counter never undercounts *)

Lemma counter_invariant_same_units st st' :
  counter_invariant st → wf st' → objects st' = objects st →
  enemySizeCur st' = enemySizeCur st →
  counter_invariant st'.
Proof.
  intros (_ & Hcount) Hwf' Hobjs Hcur. split; [done|].
  unfold alive_count in *. by rewrite Hobjs, Hcur.
Qed.

Lemma counter_invariant_put_obj st r o o' :
  counter_invariant st → objects st !! r = Some o →
  index o' = index o → (isAlive o' = true → isAlive o = true) →
  counter_invariant (put_obj r o' st).
Proof.
  intros (Hwf & Hcount) Ho Hidx Halive. split.
  - by eapply wf_put_obj.
  - rewrite (alive_count_insert st _ r o o') by done.
    change (enemySizeCur (put_obj r o' st)) with (enemySizeCur st).
    destruct (isAlive o'), (isAlive o); cbn;
      first [lia | by specialize (Halive eq_refl)].
Qed.

Lemma counter_invariant_failed_assign st r o :
  counter_invariant st → objects st !! r = Some o →
  counter_invariant (failed_assign_result r o st).
Proof.
  intros (Hwf & Hcount) Ho. split.
  - by apply wf_failed_assign_result.
  - rewrite (alive_count_insert st _ r o (set_shape None (set_engineState false o)))
      by done.
    change (enemySizeCur (failed_assign_result r o st)) with (enemySizeCur st).
    cbn. lia.
Qed.

Lemma counter_invariant_assign_result st r o o' ops :
  counter_invariant st → objects st !! r = Some o → isAlive o = false →
  index o' = index o →
  counter_invariant (assign_result r o' ops st).
Proof.
  intros (Hwf & Hcount) Ho Halive Hidx. split.
  - by eapply wf_assign_result.
  - rewrite (alive_count_insert st _ r o o') by done.
    rewrite Halive. destruct (isAlive o'); cbn; lia.
Qed.

(** [ClearUnits] brings the counter and the number of units alive to 0,
    whatever the units were before. *)
Lemma counter_invariant_all_cleared st : wf st → counter_invariant (all_cleared st).
Proof.
  intros Hwf. split; [by apply wf_all_cleared|].
  by rewrite alive_count_all_cleared.
Qed.

Lemma call_counter_invariant c st st' :
  counter_invariant st → outcome_state (call c st) = Some st' →
  counter_invariant st'.
Proof.
  intros Hinv Hout. pose proof Hinv as (Hwf & Hcount).
  destruct c as [t w|i d|i| |]; cbn [call] in Hout.
  - (* AssignEnemyUnit *)
    destruct (AssignEnemyUnit t w st) as [[r|] st1|e st1|] eqn:Hassign;
      [| | |done]; injection Hout as ->.
    + destruct (AssignEnemyUnit_Some_inv _ _ _ _ _ Hwf Hassign)
        as (st1 & o & s & Hget & Ho & Halive & _ & ->).
      destruct (GetEnemyUnit_Some_inv _ _ _ Hwf Hget) as (j & _ & _ & _ & _ & Hst1).
      eapply counter_invariant_assign_result; [|done|done|done].
      apply (counter_invariant_same_units st); [done| |by rewrite Hst1..].
      by eapply wf_GetEnemyUnit_Some.
    + apply AssignEnemyUnit_None_inv in Hassign.
      destruct (GetEnemyUnit_None_inv _ _ Hwf Hassign) as (_ & _ & ->).
      apply (counter_invariant_same_units st); [done| |done..].
      by apply wf_set_iterationHalt.
    + destruct (AssignEnemyUnit_Throw_inv _ _ _ _ _ Hwf Hassign)
        as [(_ & _ & Hwf' & Hsame)|(st1 & r & o & Hget & Ho & _ & _ & _ & _ & ->)].
      * apply (counter_invariant_same_units st); [done|done|..].
        -- exact (f_equal objects Hsame).
        -- exact (f_equal enemySizeCur Hsame).
      * destruct (GetEnemyUnit_Some_inv _ _ _ Hwf Hget) as (j & _ & _ & _ & _ & Hst1).
        apply counter_invariant_failed_assign; [|done].
        apply (counter_invariant_same_units st); [done| |by rewrite Hst1..].
        by eapply wf_GetEnemyUnit_Some.
  - (* DamageUnit *)
    destruct (decide (0 ≤ i < List_size (enemyList st))) as [Hi|Hi].
    + destruct (wf_objects_in _ _ Hwf Hi) as (o & Ho & _).
      rewrite (bind_Ok _ _ _ _ _ (DamageUnit_in _ _ d _ Hwf Hi Ho)) in Hout.
      injection Hout as <-. by eapply counter_invariant_put_obj.
    + rewrite (bind_Throw _ _ _ _ _ (DamageUnit_out _ _ d Hwf Hi)) in Hout.
      by injection Hout as <-.
  - (* ClearUnit *)
    destruct (decide (0 ≤ i < List_size (enemyList st))) as [Hi|Hi].
    + destruct (wf_objects_in _ _ Hwf Hi) as (o & Ho & _).
      rewrite (bind_Ok _ _ _ _ _ (ClearUnit_in _ _ _ Hwf Hi Ho)) in Hout.
      injection Hout as <-. by eapply counter_invariant_put_obj.
    + rewrite (bind_Throw _ _ _ _ _ (ClearUnit_out _ _ Hwf Hi)) in Hout.
      by injection Hout as <-.
  - (* ClearUnits *)
    rewrite (bind_Ok _ _ _ _ _ (ClearUnits_eq _ Hwf)) in Hout.
    injection Hout as <-. by apply counter_invariant_all_cleared.
  - (* Initialize: the units it creates are cleared with all the others *)
    rewrite (bind_Ok _ _ _ _ _ (Initialize_eq _ Hwf)) in Hout.
    injection Hout as <-. by apply counter_invariant_all_cleared, wf_with_new_units.
Qed.

Lemma reachable_by_calls_counter_invariant EnemyData st :
  reachable_by_calls EnemyData st → counter_invariant st.
Proof.
  induction 1 as [|c st st' _ IH Hout|st st' _ IH Hout|n st _ IH].
  - split; [apply wf_constructor|done].
  - by eapply call_counter_invariant.
  - pose proof (GetEnemyUnit_frame _ _ Hout) as Hsame.
    apply (counter_invariant_same_units st); [done| |..].
    + eapply wf_GetEnemyUnit; [|done]. by destruct IH.
    + exact (f_equal objects Hsame).
    + exact (f_equal enemySizeCur Hsame).
  - apply (counter_invariant_same_units st); [done| |done..].
    apply wf_set_enemySizeMax. by destruct IH.
Qed.

Lemma by_calls_calls EnemyData cs : ∀ st rs st',
  reachable_by_calls EnemyData st → calls cs st = Ok rs st' →
  reachable_by_calls EnemyData st'.
Proof.
  induction cs as [|c cs IH]; intros st rs st' Hreach Hcalls.
  { by injection Hcalls as <- <-. }
  cbn [calls] in Hcalls.
  apply bind_inv_Ok in Hcalls as (a & st1 & Hcall & Hcalls).
  apply bind_inv_Ok in Hcalls as (rs' & st2 & Hrest & [= <- <-]).
  eapply IH; [|done]. eapply by_calls_call; [done|]. by rewrite Hcall.
Qed.

Lemma by_calls_state_after EnemyData cs st :
  reachable_by_calls EnemyData st → returns (calls cs st) = true →
  reachable_by_calls EnemyData (state_after cs st).
Proof.
  intros Hreach Hret. unfold state_after.
  destruct (calls cs st) as [rs st'| |] eqn:Hcalls; [|done..].
  by eapply by_calls_calls.
Qed.

Lemma by_calls_new_pool size_max : reachable_by_calls example_data (new_pool size_max).
Proof.
  unfold new_pool.
  assert (wf (set_enemySizeMax size_max (constructor example_data))) as Hwf
    by apply wf_set_enemySizeMax, wf_constructor.
  unfold state_after. cbn [calls call]. rewrite bind_assoc.
  rewrite (bind_Ok _ _ _ _ _ (Initialize_eq _ Hwf)). rewrite !bind_ret.
  cbn beta iota.
  eapply (by_calls_call _ CallInitialize).
  - apply by_calls_set_enemySizeMax, by_calls_new.
  - cbn [call]. by rewrite (bind_Ok _ _ _ _ _ (Initialize_eq _ Hwf)).
Qed.

Lemma by_calls_played_pool : reachable_by_calls example_data played_pool.
Proof.
  apply by_calls_state_after; [apply by_calls_new_pool|].
  vm_compute. reflexivity.
Qed.

(** Property X9.
    In every state a client reaches through the calls of the pool
    ([Initialize], [AssignEnemyUnit], [DamageUnit], [ClearUnit],
    [ClearUnits], [GetEnemyUnit], returning or throwing, and writes to
    [enemySizeMax]) [enemySizeCur] is at least the number of units alive, and
    that number is at most the number of units: the counter may overcount
    after [ClearUnit], it never undercounts. Units come into the pool through
    [Initialize] only, which clears them all, so that the bound does not
    depend on the flags a unit is constructed with. *)
Theorem calls_alive_count_bound EnemyData st :
  reachable_by_calls EnemyData st →
  0 ≤ alive_count st ≤ enemySizeCur st
  ∧ alive_count st ≤ List_size (enemyList st).
Proof.
  intros (Hwf & Hcount)%reachable_by_calls_counter_invariant.
  split; [unfold alive_count in *; lia|].
  unfold alive_count, List_size. rewrite (wf_length _ Hwf).
  pose proof (length_filter (λ o, isAlive o = true) (objects st)). lia.
Qed.

Lemma calls_alive_count_bound_witness :
  reachable_by_calls example_data played_pool
  ∧ alive_count played_pool = 1 ∧ enemySizeCur played_pool = 2
  ∧ 0 ≤ alive_count played_pool ≤ enemySizeCur played_pool.
Proof.
  split; [apply by_calls_played_pool|].
  split; [vm_compute; reflexivity|]. split; [vm_compute; reflexivity|].
  exact (proj1 (calls_alive_count_bound _ _ by_calls_played_pool)).
Defined.

(** ** What [enemySizeCur] counts *)

Lemma assigned_count_cons a rs :
  assigned_count (a :: rs)
  = (if a is Some _ then 1 else 0) + assigned_count rs.
Proof. unfold assigned_count. destruct a; cbn; lia. Qed.

Lemma call_counts_up c st a st' :
  wf st → counts_up c = true → call c st = Ok a st' →
  enemySizeCur st' = enemySizeCur st + (if a is Some _ then 1 else 0).
Proof.
  intros Hwf Hc Hcall. destruct c as [t w|i d|i| |]; [| | |done..];
    cbn [call] in Hcall.
  - destruct a as [r|].
    + destruct (AssignEnemyUnit_Some_inv _ _ _ _ _ Hwf Hcall)
        as (st1 & o & s & Hget & _ & _ & _ & ->).
      by destruct (GetEnemyUnit_Some_inv _ _ _ Hwf Hget) as (j & _ & _ & _ & _ & ->).
    + apply AssignEnemyUnit_None_inv in Hcall.
      destruct (GetEnemyUnit_None_inv _ _ Hwf Hcall) as (_ & _ & ->). cbn. lia.
  - apply bind_inv_Ok in Hcall as ([] & st1 & Hdmg & [= <- <-]).
    destruct (DamageUnit_inv _ _ _ _ Hwf Hdmg) as (_ & o & _ & ->). cbn. lia.
  - apply bind_inv_Ok in Hcall as ([] & st1 & Hclear & [= <- <-]).
    destruct (ClearUnit_inv _ _ _ Hwf Hclear) as (_ & o & _ & ->). cbn. lia.
Qed.

(** Property X10.
    Over any run of [AssignEnemyUnit], [DamageUnit] and [ClearUnit] calls
    that all return, [enemySizeCur] grows by the number of assignments that
    returned a unit: it counts the assignments made since the last
    [ClearUnits] or [Initialize], which no [ClearUnit] takes back. *)
Theorem enemySizeCur_counts_assignments cs : ∀ st rs st',
  wf st → forallb counts_up cs = true → calls cs st = Ok rs st' →
  enemySizeCur st' = enemySizeCur st + assigned_count rs.
Proof.
  induction cs as [|c cs IH]; intros st rs st' Hwf Hcs Hcalls.
  { injection Hcalls as <- <-. unfold assigned_count. cbn. lia. }
  cbn [forallb] in Hcs. apply andb_prop in Hcs as [Hc Hcs].
  cbn [calls] in Hcalls.
  apply bind_inv_Ok in Hcalls as (a & st1 & Hcall & Hcalls).
  apply bind_inv_Ok in Hcalls as (rs' & st2 & Hrest & [= <- <-]).
  destruct (call_frame _ _ _ _ Hwf Hcall) as (Hwf1 & _).
  rewrite (IH _ _ _ Hwf1 Hcs Hrest), (call_counts_up _ _ _ _ Hwf Hc Hcall).
  rewrite assigned_count_cons. lia.
Qed.

Lemma enemySizeCur_counts_assignments_witness :
  wf (new_pool 2)
  ∧ enemySizeCur
      (state_after
         [CallAssignEnemyUnit 0 1; CallClearUnit 1; CallAssignEnemyUnit 0 1;
          CallAssignEnemyUnit 1 1; CallAssignEnemyUnit 1 2; CallClearUnit 0]
         (new_pool 2))
    = 3.
Proof.
  split; [apply wf_new_pool|].
  assert (calls
            [CallAssignEnemyUnit 0 1; CallClearUnit 1; CallAssignEnemyUnit 0 1;
             CallAssignEnemyUnit 1 1; CallAssignEnemyUnit 1 2; CallClearUnit 0]
            (new_pool 2)
          = Ok [Some 1%nat; None; Some 0%nat; Some 1%nat; None; None]
              (state_after
                 [CallAssignEnemyUnit 0 1; CallClearUnit 1; CallAssignEnemyUnit 0 1;
                  CallAssignEnemyUnit 1 1; CallAssignEnemyUnit 1 2; CallClearUnit 0]
                 (new_pool 2))) as Hcalls by (vm_compute; reflexivity).
  pose proof (λ Hcs, enemySizeCur_counts_assignments _ _ _ _
                       (wf_new_pool 2) Hcs Hcalls) as Hcount.
  rewrite (Hcount eq_refl). vm_compute. reflexivity.
Defined.

(** ** An assignment that returns a unit *)

(** Property X11.
    When [AssignEnemyUnit(type, wave)] returns a unit, that unit was free;
    it is now alive with the type and wave asked for and has a shape; its
    index and the damage it has received are as before; every other unit is
    as before; [enemySizeCur] is one more; the cursor is on the unit and
    [iterationHalt] holds the cursor of entry. *)
Theorem AssignEnemyUnit_returns_assigned st t w r st' :
  wf st → AssignEnemyUnit t w st = Ok (Some r) st' →
  ∃ o o',
    objects st !! r = Some o ∧ isAlive o = false
    ∧ objects st' !! r = Some o'
    ∧ isAlive o' = true ∧ type o' = t ∧ wave o' = w
    ∧ is_Some (shape o')
    ∧ index o' = Z.of_nat r ∧ index o = Z.of_nat r
    ∧ damageTaken o' = damageTaken o
    ∧ (∀ r', r' ≠ r → objects st' !! r' = objects st !! r')
    ∧ length (objects st') = length (objects st)
    ∧ enemySizeCur st' = enemySizeCur st + 1
    ∧ iterationIndex st' = Z.of_nat r
    ∧ iterationHalt st' = iterationIndex st
    ∧ enemySizeRemaining st' = enemySizeRemaining st
    ∧ enemySizeMax st' = enemySizeMax st
    ∧ enemyList st' = enemyList st ∧ enemyDict st' = enemyDict st
    ∧ enemyModelDict st' = enemyModelDict st.
Proof.
  intros Hwf Hassign.
  destruct (AssignEnemyUnit_Some_inv _ _ _ _ _ Hwf Hassign)
    as (st1 & o & s & Hget & Ho & Halive & _ & ->).
  destruct (GetEnemyUnit_Some_inv _ _ _ Hwf Hget) as (j & Hj & -> & _ & _ & ->).
  cbn in Ho. pose proof (wf_index _ Hwf _ _ Ho) as Hidx.
  exists o, (assigned t w (Some (swap_shape o t s)) o).
  split_and!; try done.
  - cbn. apply list_lookup_insert_eq. by eapply lookup_lt_Some.
  - intros r' Hne. cbn. by apply list_lookup_insert_ne.
  - cbn. apply length_insert.
  - cbn. lia.
Qed.

Lemma AssignEnemyUnit_returns_assigned_witness :
  wf (new_pool 2)
  ∧ AssignEnemyUnit 1 5 (new_pool 2)
    = Ok (Some 1%nat) (state_after [CallAssignEnemyUnit 1 5] (new_pool 2))
  ∧ ∃ o', objects (state_after [CallAssignEnemyUnit 1 5] (new_pool 2)) !! 1%nat
          = Some o'
        ∧ isAlive o' = true ∧ type o' = 1 ∧ wave o' = 5.
Proof.
  assert (AssignEnemyUnit 1 5 (new_pool 2)
          = Ok (Some 1%nat) (state_after [CallAssignEnemyUnit 1 5] (new_pool 2)))
    as Hassign by (vm_compute; reflexivity).
  split; [apply wf_new_pool|]. split; [exact Hassign|].
  destruct (AssignEnemyUnit_returns_assigned _ _ _ _ _ (wf_new_pool 2) Hassign)
    as (o & o' & _ & _ & Ho' & Halive & Ht & Hw & _).
  exists o'. split; [exact Ho'|]. split; [exact Halive|]. split; [exact Ht|exact Hw].
Defined.

(** ** An assignment that finds no model *)

(** Property X12.
    When [AssignEnemyUnit(type, wave)] fails on the model-cache lookup, the
    type has no model, and the call had already found a free unit, put the
    cursor on it, taken it off the engine and removed its shape if it had
    one (of another type). The unit is still free and now without a shape,
    every other unit is as before, and [enemySizeCur] is not incremented. *)
Theorem AssignEnemyUnit_unknown_type st t w st' :
  wf st → AssignEnemyUnit t w st = Throw NotFoundError st' →
  ∃ r o,
    enemyModelDict st !! toString t = None
    ∧ objects st !! r = Some o ∧ isAlive o = false
    ∧ (shape o = None ∨ type o ≠ t)
    ∧ objects st' = <[r := set_shape None (set_engineState false o)]> (objects st)
    ∧ shapeOps st'
      = shapeOps st ++ match shape o with Some _ => [RemoveShape r] | None => [] end
    ∧ enemySizeCur st' = enemySizeCur st
    ∧ alive_count st' = alive_count st
    ∧ iterationIndex st' = Z.of_nat r
    ∧ iterationHalt st' = iterationIndex st
    ∧ wf st'.
Proof.
  intros Hwf Hassign.
  destruct (AssignEnemyUnit_Throw_inv _ _ _ _ _ Hwf Hassign)
    as [(_ & [=] & _)|(st1 & r & o & Hget & Ho & Halive & Hm & Hcase & _ & ->)].
  destruct (GetEnemyUnit_Some_inv _ _ _ Hwf Hget) as (j & Hj & -> & _ & _ & ->).
  cbn in Ho. exists (Z.to_nat j), o. split_and!; try done.
  - rewrite (alive_count_insert st _ (Z.to_nat j) o
               (set_shape None (set_engineState false o))) by done.
    cbn. lia.
  - cbn. lia.
  - apply wf_failed_assign_result; [|done].
    apply wf_set_iterationIndex; [by apply wf_set_iterationHalt|].
    change (enemyList (set_iterationHalt _ st)) with (enemyList st). lia.
Qed.

Lemma AssignEnemyUnit_unknown_type_witness :
  wf played_pool
  ∧ AssignEnemyUnit 7 1 played_pool
    = Throw NotFoundError (state_after [CallAssignEnemyUnit 7 1] played_pool)
  ∧ enemySizeCur (state_after [CallAssignEnemyUnit 7 1] played_pool)
    = enemySizeCur played_pool
  ∧ alive_count (state_after [CallAssignEnemyUnit 7 1] played_pool)
    = alive_count played_pool.
Proof.
  assert (wf played_pool) as Hwf
    by (apply wf_state_after; [apply wf_new_pool|vm_compute; reflexivity]).
  assert (AssignEnemyUnit 7 1 played_pool
          = Throw NotFoundError (state_after [CallAssignEnemyUnit 7 1] played_pool))
    as Hassign by (vm_compute; reflexivity).
  split; [exact Hwf|]. split; [exact Hassign|].
  destruct (AssignEnemyUnit_unknown_type _ _ _ _ Hwf Hassign)
    as (r & o & _ & _ & _ & _ & _ & _ & Hcur & Hcount & _).
  split; [exact Hcur|exact Hcount].
Defined.

(** ** The order in which a free pool is handed out *)

Lemma find_first_of_run st k :
  wf st → 0 < List_size (enemyList st) → free_run st (S k) →
  find (free_at st) (scan_order st)
  = Some (next_index (List_size (enemyList st)) (iterationIndex st)).
Proof.
  intros Hwf Hn [Hfree _]. unfold scan_order.
  destruct (length (enemyList st)) as [|len] eqn:Hlen.
  { unfold List_size in Hn. lia. }
  cbn [scan find]. unfold free_at. rewrite Hfree; [done|].
  cbn [scan]. apply list_elem_of_here.
Qed.

Lemma AssignEnemyUnit_fill_order st k t w r st' :
  wf st → free_run st (S k) → Z.of_nat (S k) ≤ List_size (enemyList st) →
  AssignEnemyUnit t w st = Ok (Some r) st' →
  r = Z.to_nat (next_index (List_size (enemyList st)) (iterationIndex st))
  ∧ iterationIndex st'
    = next_index (List_size (enemyList st)) (iterationIndex st).
Proof.
  intros Hwf Hrun Hk Hassign.
  assert (0 < List_size (enemyList st)) as Hn by lia.
  destruct (AssignEnemyUnit_Some_inv _ _ _ _ _ Hwf Hassign)
    as (st1 & o & s & Hget & _ & _ & _ & ->).
  destruct (GetEnemyUnit_Some_inv _ _ _ Hwf Hget) as (j & _ & -> & Hfind & _ & ->).
  rewrite (find_first_of_run _ _ Hwf Hn Hrun) in Hfind. injection Hfind as <-.
  done.
Qed.

Lemma AssignEnemyUnits_order args : ∀ st,
  wf st → free_run st (length args) →
  Z.of_nat (length args) ≤ List_size (enemyList st) →
  Forall (λ a, is_Some (enemyModelDict st !! toString a.1)) args →
  ∃ st',
    AssignEnemyUnits args st
    = Ok ((λ j, Some (Z.to_nat j))
            <$> scan (List_size (enemyList st))
                  (next_index (List_size (enemyList st)) (iterationIndex st))
                  (length args)) st'
    ∧ wf st' ∧ free_run st' 0 ∧ enemyList st' = enemyList st
    ∧ last (iterationIndex st
            :: scan (List_size (enemyList st))
                 (next_index (List_size (enemyList st)) (iterationIndex st))
                 (length args))
      = Some (iterationIndex st').
Proof.
  induction args as [|[t w] args IH]; intros st Hwf Hrun Hlen Hreg.
  { exists st. by split_and!. }
  apply Forall_cons in Hreg as [Ht Hreg].
  destruct (AssignEnemyUnit_fill_step _ _ t w Hwf Hrun Hlen Ht)
    as (r & st1 & Hassign & Hwf1 & Hrun1 & Hlist1 & Hmd1).
  destruct (AssignEnemyUnit_fill_order _ _ _ _ _ _ Hwf Hrun Hlen Hassign)
    as [-> Hidx1].
  destruct (IH st1 Hwf1 Hrun1) as (st' & Hrest & Hwf' & Hrun' & Hlist' & Hlast).
  { rewrite Hlist1. cbn [length] in Hlen. lia. }
  { by rewrite Hmd1. }
  rewrite Hlist1, Hidx1 in Hrest, Hlast.
  exists st'. split_and!; [|done|done|congruence|].
  - cbn [AssignEnemyUnits]. mstep Hassign. mstep Hrest. done.
  - cbn [length scan]. by rewrite last_cons_cons.
Qed.

(** Property X13.
    In a pool with every unit free, as many [AssignEnemyUnit] calls as there
    are units (with registered types) hand the units out in cursor order:
    the call number [k] (from 0) returns the unit at position
    [(cursor + 1 + k) mod size]. Every unit is returned exactly once, all
    units are then alive, and the cursor is back where it started. *)
Theorem AssignEnemyUnits_round_robin st args :
  wf st → enemyList st ≠ [] →
  Forall (λ o, isAlive o = false) (objects st) →
  length args = length (enemyList st) →
  Forall (λ a, is_Some (enemyModelDict st !! toString a.1)) args →
  ∃ st',
    AssignEnemyUnits args st
    = Ok ((λ k, Some (Z.to_nat ((iterationIndex st + 1 + Z.of_nat k)
                                  `mod` List_size (enemyList st))))
            <$> seq 0 (length (enemyList st))) st'
    ∧ (λ k, (iterationIndex st + 1 + Z.of_nat k) `mod` List_size (enemyList st))
        <$> seq 0 (length (enemyList st))
      ≡ₚ seqZ 0 (List_size (enemyList st))
    ∧ Forall (λ o, isAlive o = true) (objects st')
    ∧ iterationIndex st' = iterationIndex st.
Proof.
  intros Hwf Hne Hall Hlen Hreg.
  assert (0 < List_size (enemyList st)) as Hn.
  { unfold List_size. destruct (enemyList st); [done|cbn; lia]. }
  destruct (AssignEnemyUnits_order args st Hwf)
    as (st' & Hrun & Hwf' & [_ Halive] & Hlist' & Hlast).
  { rewrite Hlen. by apply free_run_all_free. }
  { unfold List_size. lia. }
  { done. }
  rewrite Hlen in Hrun, Hlast.
  change (scan _ _ (length (enemyList st))) with (scan_order st) in Hrun, Hlast.
  exists st'. split_and!.
  - rewrite Hrun. f_equal. rewrite scan_order_closed_form by done.
    by rewrite <- list_fmap_compose.
  - rewrite <- scan_order_closed_form by done. by apply scan_order_Permutation.
  - apply Forall_lookup. intros r o Ho.
    assert (0 ≤ Z.of_nat r < List_size (enemyList st')) as Hr.
    { apply lookup_lt_Some in Ho. unfold List_size.
      rewrite (wf_length _ Hwf'). lia. }
    rewrite <- (alive_at_in st' (Z.of_nat r) o) by (done || by rewrite Nat2Z.id).
    apply Halive; [done|]. cbn. apply not_elem_of_nil.
  - pose proof (scan_order_last _ Hwf Hn) as Hlast'.
    destruct (scan_order st) as [|x l] eqn:Hso; [done|].
    rewrite last_cons_cons in Hlast. congruence.
Qed.

Lemma AssignEnemyUnits_round_robin_witness :
  wf (new_pool 3)
  ∧ ∃ st',
      AssignEnemyUnits [(0, 1); (1, 1); (0, 2)] (new_pool 3)
      = Ok [Some 1%nat; Some 2%nat; Some 0%nat] st'
      ∧ iterationIndex st' = 0.
Proof.
  split; [apply wf_new_pool|].
  destruct (AssignEnemyUnits_round_robin (new_pool 3) [(0, 1); (1, 1); (0, 2)])
    as (st' & Hrun & _ & _ & Hidx).
  - apply wf_new_pool.
  - vm_compute. discriminate.
  - vm_compute. repeat constructor.
  - vm_compute. reflexivity.
  - repeat constructor; vm_compute; eexists; reflexivity.
  - exists st'. split; [|rewrite Hidx; vm_compute; reflexivity].
    rewrite Hrun. f_equal.
Defined.

(** ** Freeing one unit of a full pool *)

Lemma find_only `{EqDecision A} (f : A → bool) (l : list A) x :
  x ∈ l → f x = true → (∀ y, y ∈ l → y ≠ x → f y = false) →
  find f l = Some x.
Proof.
  induction l as [|a l IH]; intros Hin Hx Hothers.
  { by apply elem_of_nil in Hin. }
  cbn. destruct (decide (a = x)) as [->|Hne].
  - by rewrite Hx.
  - rewrite (Hothers a) by (done || apply list_elem_of_here).
    apply elem_of_cons in Hin as [->|Hin]; [done|].
    apply IH; [done|done|]. intros y Hy. apply Hothers.
    by apply list_elem_of_further.
Qed.

Lemma alive_at_put_obj st r o o' x :
  wf st → 0 ≤ x < List_size (enemyList st) → objects st !! r = Some o →
  alive_at (put_obj r o' st) x
  = if decide (x = Z.of_nat r) then isAlive o' else alive_at st x.
Proof.
  intros Hwf Hx Ho. unfold alive_at. cbn.
  rewrite wf_getItem_in by done.
  case_decide as Hxr.
  - subst x. rewrite Nat2Z.id.
    by rewrite list_lookup_insert_eq by (by eapply lookup_lt_Some).
  - rewrite list_lookup_insert_ne by lia. done.
Qed.

(** Property X14.
    In a pool with every unit alive, [ClearUnit(index)] followed by
    [AssignEnemyUnit] with a registered type returns the very unit that was
    cleared, wherever the cursor is. *)
Theorem ClearUnit_then_AssignEnemyUnit st i t w :
  wf st → Forall (λ o, isAlive o = true) (objects st) →
  0 ≤ i < List_size (enemyList st) →
  is_Some (enemyModelDict st !! toString t) →
  ∃ st1 st2,
    ClearUnit i st = Ok tt st1
    ∧ AssignEnemyUnit t w st1 = Ok (Some (Z.to_nat i)) st2.
Proof.
  intros Hwf Hall Hi [s Hs].
  assert (0 < List_size (enemyList st)) as Hn by lia.
  destruct (wf_objects_in _ _ Hwf Hi) as (o & Ho & _).
  pose proof (ClearUnit_in _ _ _ Hwf Hi Ho) as Hclear.
  set (st1 := put_obj (Z.to_nat i) (cleared o) st) in *.
  assert (wf st1) as Hwf1 by (by eapply wf_put_obj).
  assert (find (free_at st1) (scan_order st1) = Some i) as Hfind.
  { apply find_only.
    - unfold scan_order.
      replace (length (enemyList st1)) with (Z.to_nat (List_size (enemyList st1)))
        by (unfold List_size; lia).
      apply scan_complete; [done| |done].
      apply next_index_in; [done|]. pose proof (wf_cursor _ Hwf1).
      change (enemyList st1) with (enemyList st) in *. lia.
    - unfold free_at, st1. rewrite (alive_at_put_obj _ _ o) by done.
      by rewrite decide_True by lia.
    - intros y Hy Hne.
      assert (0 ≤ y < List_size (enemyList st)) as Hyr.
      { eapply (scan_range _ Hn); [|exact Hy].
        apply next_index_in; [done|]. pose proof (wf_cursor _ Hwf1).
        change (enemyList st1) with (enemyList st) in *. lia. }
      unfold free_at, st1. rewrite (alive_at_put_obj _ _ o) by done.
      rewrite decide_False by lia.
      destruct (wf_objects_in _ _ Hwf Hyr) as (oy & Hoy & _).
      rewrite (alive_at_in _ _ _ Hwf Hyr Hoy).
      by rewrite (proj1 (Forall_lookup _ _) Hall _ _ Hoy). }
  pose proof (GetEnemyUnit_scan _ Hwf1 Hn) as Hget. rewrite Hfind in Hget.
  exists st1. eexists. split; [done|].
  eapply AssignEnemyUnit_registered; [exact Hget| |exact Hs].
  cbn. apply list_lookup_insert_eq. by eapply lookup_lt_Some.
Qed.

Lemma ClearUnit_then_AssignEnemyUnit_witness :
  wf (state_after [CallAssignEnemyUnit 0 1; CallAssignEnemyUnit 1 1;
                   CallAssignEnemyUnit 0 1] (new_pool 3))
  ∧ ∃ st1 st2,
      ClearUnit 2 (state_after [CallAssignEnemyUnit 0 1; CallAssignEnemyUnit 1 1;
                                CallAssignEnemyUnit 0 1] (new_pool 3))
      = Ok tt st1
      ∧ AssignEnemyUnit 1 2 st1 = Ok (Some 2%nat) st2.
Proof.
  assert (wf (state_after [CallAssignEnemyUnit 0 1; CallAssignEnemyUnit 1 1;
                           CallAssignEnemyUnit 0 1] (new_pool 3))) as Hwf
    by (apply wf_state_after; [apply wf_new_pool|vm_compute; reflexivity]).
  split; [exact Hwf|].
  apply (ClearUnit_then_AssignEnemyUnit _ 2 1 2 Hwf).
  - vm_compute. repeat constructor.
  - vm_compute. split; [discriminate|reflexivity].
  - vm_compute. eexists. reflexivity.
Defined.

(** ** [ClearUnit] again, and out of range *)

(** Property X15.
    A second [ClearUnit] of the same index changes nothing: it returns the
    state the first one left. *)
Theorem ClearUnit_idempotent st i st1 :
  wf st → ClearUnit i st = Ok tt st1 → ClearUnit i st1 = Ok tt st1.
Proof.
  intros Hwf Hclear.
  destruct (ClearUnit_inv _ _ _ Hwf Hclear) as (Hi & o & Ho & ->).
  assert (wf (put_obj (Z.to_nat i) (cleared o) st)) as Hwf1
    by (by eapply wf_put_obj).
  rewrite (ClearUnit_in _ _ (cleared o) Hwf1 Hi) by (by eapply put_obj_lookup).
  f_equal. unfold put_obj, set_objects. cbn. by rewrite list_insert_insert_eq.
Qed.

Lemma ClearUnit_idempotent_witness :
  wf played_pool
  ∧ ClearUnit 2 played_pool = Ok tt (state_after [CallClearUnit 2] played_pool)
  ∧ ClearUnit 2 (state_after [CallClearUnit 2] played_pool)
    = Ok tt (state_after [CallClearUnit 2] played_pool).
Proof.
  assert (wf played_pool) as Hwf
    by (apply wf_state_after; [apply wf_new_pool|vm_compute; reflexivity]).
  assert (ClearUnit 2 played_pool = Ok tt (state_after [CallClearUnit 2] played_pool))
    as Hclear by (vm_compute; reflexivity).
  split; [exact Hwf|]. split; [exact Hclear|].
  exact (ClearUnit_idempotent _ _ _ Hwf Hclear).
Defined.

(** Property X16.
    [ClearUnit] with an index that is not a position of the list (negative,
    or the size or more) throws the out-of-range error of the dictionary
    lookup and leaves the state as it was: no unit is cleared in its place. *)
Theorem ClearUnit_out_of_range st i :
  wf st → ¬ (0 ≤ i < List_size (enemyList st)) →
  ClearUnit i st = Throw OutOfRangeError st.
Proof. apply ClearUnit_out. Qed.

Lemma ClearUnit_out_of_range_witness :
  wf (new_pool 2)
  ∧ ClearUnit (-1) (new_pool 2) = Throw OutOfRangeError (new_pool 2)
  ∧ ClearUnit 2 (new_pool 2) = Throw OutOfRangeError (new_pool 2).
Proof.
  split; [apply wf_new_pool|]. split.
  - apply (ClearUnit_out_of_range _ (-1) (wf_new_pool 2)).
    vm_compute. intros [H _]. apply H. reflexivity.
  - apply (ClearUnit_out_of_range _ 2 (wf_new_pool 2)).
    vm_compute. intros [_ H]. discriminate H.
Defined.
